(** * The operator shell of task2: endpoint names, registry, dispatch, readers

    A shallow embedding of [supertel/task2/src/shell.c].  Bytes and [char]s are
    integers in [Z]; a C string is the list of the bytes it points at, the
    terminating NUL being implicit at the end of the list (reading at the end
    of a list yields 0).  Sizes and indices ([size_t]) are [nat].  The
    output stream [sh->output] is the list of bytes written to it so far. *)

From Stdlib Require Import ZArith Lia String Ascii Bool.
From stdpp Require Import gmap list.

Local Open Scope Z_scope.

(** ** Characters and C strings *)

Fixpoint bytes (s : string) : list Z :=
  match s with
  | EmptyString => []
  | String a s' => Z.of_N (N_of_ascii a) :: bytes s'
  end.

Definition isdigit (c : Z) : bool := (48 <=? c) && (c <=? 57).

Definition isspace (c : Z) : bool := (c =? 32) || ((9 <=? c) && (c <=? 13)).

(** The bytes of a C string up to (excluding) its first NUL. *)
Fixpoint cstring (s : list Z) : list Z :=
  match s with
  | [] => []
  | c :: s' => if c =? 0 then [] else c :: cstring s'
  end.

Definition strlen (s : list Z) : nat := length (cstring s).

(** [strncmp a b n]: compares at most [n] characters, stops after a NUL. *)
Fixpoint strncmp (a b : list Z) (n : nat) : Z :=
  match n with
  | O => 0
  | S n' =>
      let ca := hd 0 a in
      let cb := hd 0 b in
      if ca =? cb
      then (if ca =? 0 then 0 else strncmp (tl a) (tl b) n')
      else ca - cb
  end.

Definition strcmp (a b : list Z) : Z :=
  strncmp a b (S (Nat.max (length a) (length b))).

Definition streq (a b : list Z) : bool := strcmp a b =? 0.

(** Value of a run of decimal digits, and what follows the run. *)
Fixpoint digits_value (s : list Z) (acc : Z) : Z * list Z :=
  match s with
  | c :: s' => if isdigit c then digits_value s' (acc * 10 + (c - 48)) else (acc, s)
  | [] => (acc, [])
  end.

Fixpoint skip_spaces (s : list Z) : list Z :=
  match s with
  | c :: s' => if isspace c then skip_spaces s' else s
  | [] => []
  end.

Definition LONG_MAX : Z := 2 ^ 63 - 1.
Definition LONG_MIN : Z := - 2 ^ 63.
Definition ULONG_MAX : Z := 2 ^ 64 - 1.
Definition UINT_MOD : Z := 2 ^ 32.

(** [strtol(s, NULL, 10)] with a 64-bit [long]: blanks, a sign, digits; the
    value saturates at the bounds of [long]. *)
Definition strtol (s : list Z) : Z :=
  let s1 := skip_spaces s in
  let '(neg, s2) :=
    match s1 with
    | 45 :: r => (true, r)
    | 43 :: r => (false, r)
    | _ => (false, s1)
    end in
  let v := fst (digits_value s2 0) in
  let v := if neg then - v else v in
  Z.max LONG_MIN (Z.min LONG_MAX v).

(** [atoi] is [(int) strtol(s, NULL, 10)]; the result is stored in an
    [unsigned int], so only its value modulo 2^32 is kept. *)
Definition atoi (s : list Z) : Z := strtol s mod UINT_MOD.

(** [strtoul(s, &end, 10)] stored in an [unsigned int], with the string
    [end] points at.  Without a digit nothing is converted and [end = s]. *)
Definition strtoul (s : list Z) : Z * list Z :=
  let s1 := skip_spaces s in
  let '(neg, s2) :=
    match s1 with
    | 45 :: r => (true, r)
    | 43 :: r => (false, r)
    | _ => (false, s1)
    end in
  match s2 with
  | c :: _ =>
      if isdigit c then
        let '(v, rest) := digits_value s2 0 in
        let v := if ULONG_MAX <? v then ULONG_MAX
                 else if neg then (- v) mod 2 ^ 64 else v in
        (v mod UINT_MOD, rest)
      else (0, s)
  | [] => (0, s)
  end.

(** [%u] of an [unsigned int]: its decimal digits, most significant first. *)
Fixpoint utoa_aux (fuel : nat) (n : Z) (acc : list Z) : list Z :=
  match fuel with
  | O => acc
  | S f =>
      let acc' := (48 + n mod 10) :: acc in
      if n / 10 =? 0 then acc' else utoa_aux f (n / 10) acc'
  end.

Definition utoa (n : Z) : list Z := utoa_aux 10 (n mod UINT_MOD) [].

(** [%.*s] with precision [prec] applied to the bytes at [s]: at most [prec]
    bytes, stopping at a NUL; a negative precision counts as none given. *)
Definition printf_prec_s (prec : Z) (s : list Z) : list Z :=
  if prec <? 0 then cstring s else cstring (take (Z.to_nat prec) s).

(** Conversion of a 32-bit unsigned value passed where [int] is expected. *)
Definition to_int (v : Z) : Z :=
  let w := v mod UINT_MOD in if w <? 2 ^ 31 then w else w - UINT_MOD.

(** ** Configuration: the constants of [common.h] and the external hash *)

Class Config := {
  SUFFIX : list Z;
  hash_pearson : list Z -> Z;
  PR_DRV_COMMAND : Z;
  PR_DRV_INFO : Z;
  PR_DRV_RESPONSE : Z
}.

Definition MAX_COMMAND_NAME_LEN : nat := 32.
Definition MAX_COMMAND_DESCRIPTION_LEN : nat := 128.

Definition PROMPT : list Z := bytes "> ".
Definition INVALID_MSG : list Z := bytes "Invalid command" ++ [10].
Definition NEW_LINE : list Z := [10].
Definition LIST_CMD : list Z := bytes "list".
Definition HELP_CMD : list Z := bytes "help".
Definition CMD_CMD : list Z := bytes "cmd".
Definition DRIVER_PRE : list Z := bytes "Driver: ".
Definition SLOT_PRE : list Z := bytes "Slot: ".
Definition HELP_MSG : list Z :=
  bytes "Commands:" ++ [10] ++
  bytes "list --- list all drivers" ++ [10] ++
  bytes "help --- print this message" ++ [10] ++
  bytes "cmd drv slot drv_cmd ... --- send command drv_cmd to driver drv at slot with arguments" ++ [10].

(** ** Endpoint names *)

Record driver_description_t := {
  driver_name : nat;        (* offset of the name slice in the parsed input *)
  driver_name_len : nat;
  slot_number : Z
}.

(** [while (back > 0 && name[back] != '/') --back;] *)
Fixpoint scan_back (name : list Z) (back : nat) : nat :=
  match back with
  | O => O
  | S b => if nth back name 0 =? 47 then back else scan_back name b
  end.

(** [for (; i < name_len && p(name[i]); ++i);] where [s] is [name + i]. *)
Fixpoint scan_fwd (p : Z -> bool) (s : list Z) (i : nat) : nat :=
  match s with
  | [] => i
  | c :: s' => if p c then scan_fwd p s' (S i) else i
  end.

(** A call either returns or ends in [abort()]. *)
Inductive outcome (A : Type) :=
  | Done (a : A)
  | Abort.
Arguments Done {A} a.
Arguments Abort {A}.

Section WithConfig.
Context `{cfg : Config}.

Definition SUFFIX_LEN : nat := length SUFFIX.

Definition parse_unix_socket_name_ (name : list Z) : option driver_description_t :=
  let name_len := length name in
  match name_len with
  | O => None (* back = name_len - 1 wraps around: the source reads out of bounds *)
  | S back0 =>
      let back := scan_back name back0 in
      let name_start := back in
      let name_end :=
        scan_fwd (fun c => negb (c =? 46)) (drop name_start name) name_start in
      if (name_end =? name_start)%nat || (name_end =? name_len)%nat then None else
      let slot_start := S name_end in
      let slot_end :=
        scan_fwd (fun c => negb (c =? 46) && isdigit c)
                 (drop slot_start name) slot_start in
      if (slot_end =? slot_start)%nat || (slot_end =? name_len)%nat
         || negb (nth slot_end name 0 =? 46) then None else
      if negb (name_len - slot_end =? SUFFIX_LEN + 1)%nat then None else
      if negb (strncmp (drop (slot_end + 1) name) SUFFIX SUFFIX_LEN =? 0) then None else
      Some {| driver_name := name_start;
              driver_name_len := (name_end - name_start)%nat;
              slot_number := atoi (drop slot_start name) |}
  end.

(** The name slice a description denotes inside the parsed input. *)
Definition name_slice (name : list Z) (dd : driver_description_t) : list Z :=
  take (driver_name_len dd) (drop (driver_name dd) name).

(** The parser as a function to identities [(name, slot)]. *)
Definition parse (name : list Z) : option (list Z * Z) :=
  match parse_unix_socket_name_ name with
  | Some dd => Some (name_slice name dd, slot_number dd)
  | None => None
  end.

(** The endpoint file name of an identity, by the grammar of the
    specification: ["<name>.<slot>.<SUFFIX>"], the slot in decimal.  The
    shell itself only parses such names; the drivers create the files. *)
Definition format (name : list Z) (slot : Z) : list Z :=
  name ++ [46] ++ utoa slot ++ [46] ++ SUFFIX.

(** ** Wire layout *)

(** Modelled from the spec: [protocol.h] is not part of the sources at hand.
    Section 4.C gives the frames with fixed field widths and no padding:
    signature [u8]; info header [u8 | u16]; response header [u8 | u32];
    command header [u8 | u16 | u8]; argument header [u8]; a command
    descriptor is [name[32] | descr[128] | arity : u8].  Multi-byte fields are
    in host order, taken little-endian. *)
Definition sizeof_pr_signature_t : nat := 1.
Definition sizeof_pr_driver_info_t : nat := 3.
Definition sizeof_pr_driver_response_t : nat := 5.
Definition sizeof_pr_driver_command_t : nat := 4.
Definition sizeof_pr_driver_command_argument_t : nat := 1.
Definition sizeof_pr_driver_command_info_t : nat := 161.

Definition u8 (v : Z) : Z := v mod 256.

Definition le16 (v : Z) : list Z := [v mod 256; (v / 256) mod 256].

Definition read_le16 (b : list Z) (at_ : nat) : Z :=
  nth at_ b 0 + 256 * nth (S at_) b 0.

Definition read_le32 (b : list Z) (at_ : nat) : Z :=
  nth at_ b 0 + 256 * nth (at_ + 1) b 0
  + 65536 * nth (at_ + 2) b 0 + 16777216 * nth (at_ + 3) b 0.

(** ** Shell state *)

Inductive reader_t := Reader_signature | Reader_info | Reader_response.

(** Modelled from the spec: the client library ([unix-socket-client.c]) is not
    part of the sources at hand; section 4.H names its operations.  A call
    into it is recorded, in the order of issue, in the client it is made on;
    what the library then does with the socket is not modelled. *)
Inductive usc_call :=
  | Usc_init
  | Usc_connect (name : list Z)
  | Usc_reconnect
  | Usc_deinit
  | Usc_send (frame : list Z)
  | Usc_recv (sz : nat) (reader : reader_t).

(** [buffer_t]: [user_size] is the length of [data]. *)
Record buffer_t := { data : list Z; offset : nat }.

Definition user_size (b : buffer_t) : nat := length (data b).

Definition buffer_realloc (b : buffer_t) (sz : nat) : buffer_t :=
  {| data := take sz (data b) ++ repeat 0 (sz - length (data b)); offset := offset b |}.

Definition set_offset (b : buffer_t) (o : nat) : buffer_t :=
  {| data := data b; offset := o |}.

Record usc_t := {
  read_task_b : buffer_t;
  write_task_b : buffer_t;
  eof : bool;
  calls : list usc_call
}.

Definition usc_call_ (u : usc_t) (c : usc_call) : usc_t :=
  {| read_task_b := read_task_b u; write_task_b := write_task_b u;
     eof := eof u; calls := calls u ++ [c] |}.

Definition usc_set_read (u : usc_t) (b : buffer_t) : usc_t :=
  {| read_task_b := b; write_task_b := write_task_b u;
     eof := eof u; calls := calls u |}.

Definition usc_set_write (u : usc_t) (b : buffer_t) : usc_t :=
  {| read_task_b := read_task_b u; write_task_b := b;
     eof := eof u; calls := calls u |}.

Record shell_driver_command_t := {
  sdc_name : list Z;       (* the 32 name bytes; [name[32]] is the NUL *)
  sdc_arity : Z;
  sdc_descr : list Z
}.

Record shell_driver_t := {
  sd_usc : usc_t;
  sd_name : list Z;
  sd_name_len : nat;
  sd_slot : Z;
  sd_commands : list shell_driver_command_t
}.

Definition sd_set_usc (sd : shell_driver_t) (u : usc_t) : shell_driver_t :=
  {| sd_usc := u; sd_name := sd_name sd; sd_name_len := sd_name_len sd;
     sd_slot := sd_slot sd; sd_commands := sd_commands sd |}.

Definition sd_set_commands (sd : shell_driver_t)
    (cs : list shell_driver_command_t) : shell_driver_t :=
  {| sd_usc := sd_usc sd; sd_name := sd_name sd; sd_name_len := sd_name_len sd;
     sd_slot := sd_slot sd; sd_commands := cs |}.

(** [clients] is the AVL tree keyed by hash; each node holds the list of the
    drivers with that hash. *)
Record shell_t := {
  clients : gmap Z (list shell_driver_t);
  running : bool;
  input_buffer : buffer_t;
  output : list Z;
  iosvc_stopped : bool
}.

Definition fprintf (sh : shell_t) (s : list Z) : shell_t :=
  {| clients := clients sh; running := running sh;
     input_buffer := input_buffer sh; output := output sh ++ s;
     iosvc_stopped := iosvc_stopped sh |}.

Definition set_clients (sh : shell_t) (c : gmap Z (list shell_driver_t)) : shell_t :=
  {| clients := c; running := running sh;
     input_buffer := input_buffer sh; output := output sh;
     iosvc_stopped := iosvc_stopped sh |}.

Definition set_input_buffer (sh : shell_t) (b : buffer_t) : shell_t :=
  {| clients := clients sh; running := running sh;
     input_buffer := b; output := output sh;
     iosvc_stopped := iosvc_stopped sh |}.

Definition io_service_stop (sh : shell_t) : shell_t :=
  {| clients := clients sh; running := running sh;
     input_buffer := input_buffer sh; output := output sh;
     iosvc_stopped := true |}.

Definition set_running (sh : shell_t) (r : bool) : shell_t :=
  {| clients := clients sh; running := r;
     input_buffer := input_buffer sh; output := output sh;
     iosvc_stopped := iosvc_stopped sh |}.

Definition shell_init : shell_t :=
  {| clients := ∅; running := false;
     input_buffer := {| data := []; offset := 0 |}; output := [];
     iosvc_stopped := false |}.

(** What the environment answers during a [CREATED] event.
    [base_dir_smth_created] never writes the [commands] of the record it
    appends, [reader_info] is the first to do so; what the field holds until
    then is what [list_append], of a library that is not in the sources at
    hand, leaves in the new element, and is taken from the environment. *)
Record created_env := {
  is_socket : bool;     (* [stat] succeeds and [S_ISSOCK] holds *)
  init_ok : bool;       (* [unix_socket_client_init] *)
  connect_ok : bool;    (* [unix_socket_client_connect]; a failure is only logged *)
  fresh_commands : list shell_driver_command_t   (* [commands] of the new element *)
}.

(** [DRIVER_SLOT_ID]: [sprintf(ID, "%.*s%u", name_len, name, slot)]. *)
Definition DRIVER_SLOT_ID (name : list Z) (name_len : nat) (slot : Z) : list Z :=
  printf_prec_s (to_int (Z.of_nat name_len)) name ++ utoa slot.

(** The scan of a hash bucket for a driver; the three copies of the loop
    differ in the length [n] handed to [strncmp].  The result is the
    position at which the loop breaks. *)
Fixpoint scan_drivers (n : shell_driver_t -> nat) (key : list Z) (key_len : nat)
    (slot : Z) (l : list shell_driver_t) : option nat :=
  match l with
  | [] => None
  | sd :: l' =>
      if negb (sd_name_len sd =? key_len)%nat
      then option_map S (scan_drivers n key key_len slot l')
      else if (strncmp (sd_name sd) key (n sd) =? 0) && (sd_slot sd =? slot)
      then Some O
      else option_map S (scan_drivers n key key_len slot l')
  end.

Definition new_usc : usc_t :=
  {| read_task_b := {| data := []; offset := 0 |};
     write_task_b := {| data := []; offset := 0 |};
     eof := false; calls := [] |}.

Definition base_dir_smth_created (sh : shell_t) (name : list Z)
    (env : created_env) : outcome shell_t :=
  let name_len := length name in
  if negb (is_socket env) then Done sh else
  match parse_unix_socket_name_ name with
  | None => Done sh
  | Some dd =>
      let dd_name := drop (driver_name dd) name in
      let ID := DRIVER_SLOT_ID dd_name (driver_name_len dd) (slot_number dd) in
      let hash := hash_pearson ID in
      (* avl_tree_add_or_get, and list_init of a fresh node *)
      let l := default [] (clients sh !! hash) in
      match scan_drivers (fun _ => name_len) dd_name (driver_name_len dd)
                         (slot_number dd) l with
      | Some _ => Abort
      | None =>
          if negb (init_ok env) then Abort else
          let sd := {| sd_usc := usc_call_ (usc_call_ new_usc Usc_init) (Usc_connect name);
                       sd_name := take (driver_name_len dd) dd_name;
                       sd_name_len := driver_name_len dd;
                       sd_slot := slot_number dd;
                       sd_commands := fresh_commands env |} in
          Done (set_clients sh (<[hash := l ++ [sd]]> (clients sh)))
      end
  end.

Definition base_dir_smth_deleted (sh : shell_t) (name : list Z) : shell_t :=
  match parse_unix_socket_name_ name with
  | None => sh
  | Some dd =>
      let dd_name := drop (driver_name dd) name in
      let ID := DRIVER_SLOT_ID dd_name (driver_name_len dd) (slot_number dd) in
      let hash := hash_pearson ID in
      match clients sh !! hash with
      | None => sh
      | Some l =>
          match scan_drivers sd_name_len dd_name (driver_name_len dd)
                             (slot_number dd) l with
          | None => sh
          | Some i => set_clients sh (<[hash := delete i l]> (clients sh))
          end
      end
  end.

Definition base_dir_self_deleted (sh : shell_t) : shell_t :=
  io_service_stop (set_running sh false).

(** ** Command interpreter *)

Definition finish_cmd (sh : shell_t) : shell_t := fprintf sh PROMPT.

Definition cmd_invalid (sh : shell_t) : shell_t := finish_cmd (fprintf sh INVALID_MSG).

Definition cmd_help (sh : shell_t) : shell_t := finish_cmd (fprintf sh HELP_MSG).

Definition print_command (sdc : shell_driver_command_t) : list Z :=
  cstring (sdc_name sdc) ++ bytes " <arity: " ++ utoa (sdc_arity sdc)
  ++ bytes "> --- " ++ cstring (sdc_descr sdc) ++ NEW_LINE.

Definition print_driver (sd : shell_driver_t) : list Z :=
  NEW_LINE ++ DRIVER_PRE
  ++ printf_prec_s (to_int (Z.of_nat (sd_name_len sd))) (sd_name sd) ++ NEW_LINE
  ++ SLOT_PRE ++ utoa (sd_slot sd) ++ NEW_LINE
  ++ concat (map print_command (sd_commands sd)).

(** [print_drv] walks the tree (left, right, node) and prints every driver of
    every node; the order of the nodes depends on the shape of the tree and
    is taken here to be that of [map_to_list]. *)
Definition print_drv (sh : shell_t) : shell_t :=
  fprintf sh (concat (map (fun kv => concat (map print_driver (snd kv)))
                          (map_to_list (clients sh)))).

Definition cmd_list (sh : shell_t) : shell_t := finish_cmd (print_drv sh).

Record arg_from_input_t := { afi_arg : list Z; afi_len : Z }.

(** The loop that looks a command up in the catalog: the index of the first
    entry whose name agrees with [cmd] on [MAX_COMMAND_NAME_LEN] bytes, and
    its arity. *)
Fixpoint find_command (cmds : list shell_driver_command_t) (cmd : list Z)
    (idx : nat) : option (nat * Z) :=
  match cmds with
  | [] => None
  | sdc :: cmds' =>
      if strncmp (sdc_name sdc) cmd MAX_COMMAND_NAME_LEN =? 0
      then Some (idx, sdc_arity sdc)
      else find_command cmds' cmd (S idx)
  end.

(** The frame [cmd_cmd] writes into its buffer. *)
Definition command_frame (cmd_idx : nat) (args : list arg_from_input_t) : list Z :=
  [u8 PR_DRV_COMMAND] ++ le16 (Z.of_nat cmd_idx mod 65536)
  ++ [u8 (Z.of_nat (length args))]
  ++ concat (map (fun afi => afi_len afi :: take (Z.to_nat (afi_len afi)) (afi_arg afi))
                 args).

Definition unix_socket_client_send (sd : shell_driver_t) (frame : list Z)
    : shell_driver_t :=
  sd_set_usc sd (usc_call_ (sd_usc sd) (Usc_send frame)).

(** [sd] is the element the scan stopped on; the position the scan returns
    always is one of the list, so the lookup cannot fail. *)
Definition cmd_cmd (sh : shell_t) (drv : list Z) (slot : Z) (cmd : list Z)
    (args : list arg_from_input_t) : shell_t :=
  let drv_len := strlen drv in
  let ID := DRIVER_SLOT_ID drv drv_len slot in
  let hash := hash_pearson ID in
  match clients sh !! hash with
  | None => cmd_invalid sh
  | Some l =>
      match scan_drivers (fun _ => drv_len) drv drv_len slot l with
      | None => cmd_invalid sh
      | Some i =>
          match l !! i with
          | None => cmd_invalid sh
          | Some sd =>
              match find_command (sd_commands sd) cmd 0 with
              | None => cmd_invalid sh
              | Some (cmd_idx, cmd_arity) =>
                  if cmd_arity <? Z.of_nat (length args) then cmd_invalid sh else
                  let sd' := unix_socket_client_send sd (command_frame cmd_idx args) in
                  set_clients sh (<[hash := <[i := sd']> l]> (clients sh))
              end
          end
      end
  end.

(** The tokens successive calls of [strtok(.., " ")] return on a C string;
    [cur] is the token being read, in reverse. *)
Fixpoint strtok_all (s : list Z) (cur : list Z) : list (list Z) :=
  match s with
  | [] => match cur with [] => [] | _ => [rev cur] end
  | c :: s' =>
      if c =? 32
      then match cur with
           | [] => strtok_all s' []
           | _ => rev cur :: strtok_all s' []
           end
      else strtok_all s' (c :: cur)
  end.

(** The loop over the argument tokens: [None] when one is longer than 255. *)
Fixpoint collect_args (tokens : list (list Z)) : option (list arg_from_input_t) :=
  match tokens with
  | [] => Some []
  | token :: rest =>
      let arg_len := strlen token in
      if (255 <? arg_len)%nat then None else
      match collect_args rest with
      | None => None
      | Some args =>
          Some ({| afi_arg := token; afi_len := u8 (Z.of_nat arg_len) |} :: args)
      end
  end.

(** The line is [data[0 .. offset)], made a C string by [line[offset] = 0].
    The bytes [strtok] overwrites lie in the line, which [shift_input] drops. *)
Definition run_command_from_input (sh : shell_t) : shell_t :=
  let b := input_buffer sh in
  let line := cstring (take (offset b) (data b)) in
  match strtok_all line [] with
  | [] => cmd_invalid sh
  | cmd :: toks =>
      if streq LIST_CMD cmd then cmd_list sh
      else if streq HELP_CMD cmd then cmd_help sh
      else if negb (streq CMD_CMD cmd) then cmd_invalid sh
      else
        match toks with
        | drv :: slot :: drv_cmd :: rest =>
            let '(slot_number, slot_endptr) := strtoul slot in
            if negb (hd 0 slot_endptr =? 0) then cmd_invalid sh else
            match collect_args rest with
            | None => cmd_invalid sh
            | Some args => cmd_cmd sh drv slot_number drv_cmd args
            end
        | _ => cmd_invalid sh
        end
  end.

Definition detect_newline_on_input (sh : shell_t) : bool * shell_t :=
  let b := input_buffer sh in
  if (user_size b =? 0)%nat then (false, sh) else
  let off := scan_fwd (fun c => negb (c =? 10)) (drop (offset b) (data b)) (offset b) in
  ((off <? user_size b)%nat, set_input_buffer sh (set_offset b off)).

Definition shift_input (sh : shell_t) : shell_t :=
  let b := input_buffer sh in
  set_input_buffer sh {| data := drop (offset b + 1) (data b); offset := offset b |}.

(** [while (detect_newline_on_input(sh)) { run; shift; offset = 0; }]
    Every round drops at least one byte of the buffer, which bounds the
    number of rounds. *)
Fixpoint input_loop (fuel : nat) (sh : shell_t) : shell_t :=
  let '(found, sh1) := detect_newline_on_input sh in
  if found then
    match fuel with
    | O => sh1
    | S fuel' =>
        let sh2 := shift_input (run_command_from_input sh1) in
        input_loop fuel' (set_input_buffer sh2 (set_offset (input_buffer sh2) 0))
    end
  else sh1.

(** What [on_input] gets from the input descriptor. *)
Inductive input_event :=
  | In_ioctl_error
  | In_read_error
  | In_data (bs : list Z).    (* the pending bytes; none at end of input *)

Definition on_input (sh : shell_t) (ev : input_event) : outcome shell_t :=
  match ev with
  | In_ioctl_error => Abort
  | In_read_error => Abort
  | In_data [] => Done (io_service_stop sh)
  | In_data bs =>
      let b := input_buffer sh in
      let sh1 := set_input_buffer sh {| data := data b ++ bs; offset := offset b |} in
      Done (input_loop (length (data b ++ bs)) sh1)
  end.

(** ** Client callbacks

    A callback works on the driver record its client belongs to
    ([usc->priv]) and on the output stream; [reconnect_ok] is what
    [unix_socket_client_reconnect] would answer. *)

Definition unix_socket_client_recv (sd : shell_driver_t) (sz : nat) (r : reader_t)
    : shell_driver_t :=
  sd_set_usc sd (usc_call_ (sd_usc sd) (Usc_recv sz r)).

Definition unix_socket_client_reconnect (sd : shell_driver_t) : shell_driver_t :=
  sd_set_usc sd (usc_call_ (sd_usc sd) Usc_reconnect).

Definition reset_buffers (sd : shell_driver_t) : shell_driver_t :=
  let u := sd_usc sd in
  sd_set_usc sd
    (usc_set_write (usc_set_read u (buffer_realloc (read_task_b u) 0))
                   (buffer_realloc (write_task_b u) 0)).

Definition writer (sd : shell_driver_t) (error : Z) (reconnect_ok : bool)
    (out : list Z) : shell_driver_t * list Z :=
  let sd := reset_buffers sd in
  if negb (error =? 0) then
    let sd := unix_socket_client_reconnect sd in
    if negb reconnect_ok then (sd, out)
    else (sd, out ++ PROMPT)
  else
    (unix_socket_client_recv sd sizeof_pr_signature_t Reader_signature, out).

(** [READ_ERROR_HANDLER]: [Some] is the state the reader returns with. *)
Definition READ_ERROR_HANDLER (sd : shell_driver_t) (error : Z)
    : option shell_driver_t :=
  if negb (error =? 0) then Some (unix_socket_client_reconnect sd)
  else if eof (sd_usc sd) then Some sd
  else None.

Definition sd_set_read_offset (sd : shell_driver_t) (o : nat) : shell_driver_t :=
  sd_set_usc sd (usc_set_read (sd_usc sd) (set_offset (read_task_b (sd_usc sd)) o)).

(** The descriptor number [idx] of an info frame held in [b]. *)
Definition read_command_info (b : list Z) (idx : nat) : shell_driver_command_t :=
  let base := (sizeof_pr_driver_info_t + sizeof_pr_driver_command_info_t * idx)%nat in
  {| sdc_name := take MAX_COMMAND_NAME_LEN (drop base b);
     sdc_arity := nth (base + 160) b 0;
     sdc_descr := take MAX_COMMAND_DESCRIPTION_LEN (drop (base + 32) b) |}.

Definition reader_info (sd : shell_driver_t) (error : Z) (out : list Z)
    : shell_driver_t * list Z :=
  match READ_ERROR_HANDLER sd error with
  | Some sd' => (sd', out)
  | None =>
      let b := read_task_b (sd_usc sd) in
      let commands_number := Z.to_nat (read_le16 (data b) 1) in
      let required_length :=
        (sizeof_pr_driver_info_t
         + sizeof_pr_driver_command_info_t * commands_number)%nat in
      if (user_size b <? required_length)%nat then
        (unix_socket_client_recv (sd_set_read_offset sd (user_size b))
           (required_length - user_size b) Reader_info, out)
      else
        (sd_set_commands sd (map (read_command_info (data b)) (seq 0 commands_number)),
         out)
  end.

Definition reader_response (sd : shell_driver_t) (error : Z) (out : list Z)
    : shell_driver_t * list Z :=
  match READ_ERROR_HANDLER sd error with
  | Some sd' => (sd', out)
  | None =>
      let b := read_task_b (sd_usc sd) in
      let dr_len := read_le32 (data b) 1 in
      let required_length := (sizeof_pr_driver_response_t + Z.to_nat dr_len)%nat in
      if (user_size b <? required_length)%nat then
        (unix_socket_client_recv (sd_set_read_offset sd (user_size b))
           (required_length - user_size b) Reader_response, out)
      else
        (sd, out
             ++ printf_prec_s (to_int dr_len)
                              (drop sizeof_pr_driver_response_t (data b))
             ++ NEW_LINE ++ PROMPT)
  end.

Definition reader_signature (sd : shell_driver_t) (error : Z) (out : list Z)
    : shell_driver_t * list Z :=
  match READ_ERROR_HANDLER sd error with
  | Some sd' => (sd', out)
  | None =>
      let s := nth 0 (data (read_task_b (sd_usc sd))) 0 in
      let sd := sd_set_read_offset sd sizeof_pr_signature_t in
      if s =? PR_DRV_INFO then
        (unix_socket_client_recv sd
           (sizeof_pr_driver_info_t - sizeof_pr_signature_t) Reader_info, out)
      else if s =? PR_DRV_RESPONSE then
        (unix_socket_client_recv sd
           (sizeof_pr_driver_response_t - sizeof_pr_signature_t) Reader_response, out)
      else
        (unix_socket_client_reconnect sd, out)
  end.

Definition connector (sd : shell_driver_t) : shell_driver_t :=
  unix_socket_client_recv (reset_buffers sd) sizeof_pr_signature_t Reader_signature.

End WithConfig.

(** A sample configuration: suffix [drv], the three signatures numbered from
    0, and a stand-in for the 8-bit hash (the exclusive or of the bytes). *)
#[export] Instance drv_config : Config :=
  {| SUFFIX := bytes "drv"; hash_pearson := fun s => foldr Z.lxor 0 s;
     PR_DRV_COMMAND := 0; PR_DRV_INFO := 1; PR_DRV_RESPONSE := 2 |}.

Definition env_ok : created_env :=
  {| is_socket := true; init_ok := true; connect_ok := true; fresh_commands := [] |}.

(** The configuration with suffix [drv] over an arbitrary hash function. *)
Definition drv_config_with (h : list Z -> Z) : Config :=
  {| SUFFIX := bytes "drv"; hash_pearson := h;
     PR_DRV_COMMAND := 0; PR_DRV_INFO := 1; PR_DRV_RESPONSE := 2 |}.

Definition thermo_record (file : list Z) : shell_driver_t :=
  {| sd_usc := usc_call_ (usc_call_ new_usc Usc_init) (Usc_connect file);
     sd_name := bytes "thermo"; sd_name_len := 6; sd_slot := 3;
     sd_commands := [] |}.

(** ** Vocabulary of the statements *)

Section Vocabulary.
Context `{cfg : Config}.

(** Some record of the registry has the identity [(drv, slot)]. *)
Definition registered (c : gmap Z (list shell_driver_t)) (drv : list Z) (slot : Z)
    : Prop :=
  exists h l sd, c !! h = Some l /\ sd ∈ l /\ sd_name sd = drv /\ sd_slot sd = slot.

(** [sd], at position [i] of [l], is the first record of [l] with the
    identity [(drv, slot)]. *)
Definition first_driver (l : list shell_driver_t) (drv : list Z) (slot : Z)
    (i : nat) (sd : shell_driver_t) : Prop :=
  l !! i = Some sd /\ sd_name sd = drv /\ sd_slot sd = slot
  /\ forall j sd', (j < i)%nat -> l !! j = Some sd' ->
       ~ (sd_name sd' = drv /\ sd_slot sd' = slot).

(** The record a [cmd] line naming [(drv, slot)] is resolved to: the first
    one with that identity in the bucket [l] of the hash [h] of the identity. *)
Definition resolves (c : gmap Z (list shell_driver_t)) (drv : list Z) (slot : Z)
    (h : Z) (l : list shell_driver_t) (i : nat) (sd : shell_driver_t) : Prop :=
  h = hash_pearson (DRIVER_SLOT_ID drv (length drv) slot)
  /\ c !! h = Some l /\ first_driver l drv slot i sd.

(** A catalog name and a typed name agree byte for byte up to the bound of
    [MAX_COMMAND_NAME_LEN] bytes (terminator included when it comes first). *)
Definition name_matches (sdc : shell_driver_command_t) (cmd : list Z) : Prop :=
  take MAX_COMMAND_NAME_LEN (cstring (sdc_name sdc) ++ [0])
  = take MAX_COMMAND_NAME_LEN (cstring cmd ++ [0]).

Definition has_command (sd : shell_driver_t) (cmd : list Z) : Prop :=
  exists sdc, sdc ∈ sd_commands sd /\ name_matches sdc cmd.

(** [sdc], at index [k], is the first entry of the catalog matching [cmd]. *)
Definition first_command (cmds : list shell_driver_command_t) (cmd : list Z)
    (k : nat) (sdc : shell_driver_command_t) : Prop :=
  cmds !! k = Some sdc /\ name_matches sdc cmd
  /\ forall j sdc', (j < k)%nat -> cmds !! j = Some sdc' -> ~ name_matches sdc' cmd.

(** Every record sits in the bucket of the hash of its identity and carries
    the length of its name. *)
Definition wf_registry (c : gmap Z (list shell_driver_t)) : Prop :=
  forall h l sd, c !! h = Some l -> sd ∈ l ->
    sd_name_len sd = length (sd_name sd)
    /\ h = hash_pearson (DRIVER_SLOT_ID (sd_name sd) (sd_name_len sd) (sd_slot sd)).

(** The stored names are C strings: copies, without NUL, of parsed names. *)
Definition nul_free_names (c : gmap Z (list shell_driver_t)) : Prop :=
  forall h l sd, c !! h = Some l -> sd ∈ l ->
    sd_name_len sd = length (sd_name sd) /\ 0 ∉ sd_name sd.

(** The shell answered ["Invalid command"] and the prompt, and left every
    client alone. *)
Definition rejected (sh sh' : shell_t) : Prop :=
  output sh' = output sh ++ INVALID_MSG ++ PROMPT /\ clients sh' = clients sh.

(** The arguments as [run_command_from_input] hands them to [cmd_cmd]. *)
Definition mk_args (tokens : list (list Z)) : list arg_from_input_t :=
  map (fun t => {| afi_arg := t; afi_len := Z.of_nat (length t) |}) tokens.

(** Modelled from the spec: the driver side that reads a command frame is not
    part of the sources at hand.  Section 4.C: [signature : u8 | cmd_idx : u16
    | argc : u8 | ({ len : u8, bytes : u8[len] } x argc)]. *)
Fixpoint parse_command_args (argc : nat) (b : list Z)
    : option (list (list Z) * list Z) :=
  match argc with
  | O => Some ([], b)
  | S argc' =>
      match b with
      | [] => None
      | len :: r =>
          if (length r <? Z.to_nat len)%nat then None else
          match parse_command_args argc' (drop (Z.to_nat len) r) with
          | Some (args, rest) => Some (take (Z.to_nat len) r :: args, rest)
          | None => None
          end
      end
  end.

Definition parse_command_frame (b : list Z) : option (Z * list (list Z)) :=
  match b with
  | s :: lo :: hi :: argc :: r =>
      if s =? u8 PR_DRV_COMMAND then
        match parse_command_args (Z.to_nat argc) r with
        | Some (args, []) => Some (lo + 256 * hi, args)
        | _ => None
        end
      else None
  | _ => None
  end.

End Vocabulary.

(** The registry of scenario 2 of the specification: the driver [thermo] at
    slot 3 with its two commands. *)
Definition thermo_catalog : list shell_driver_command_t :=
  [ {| sdc_name := bytes "read"; sdc_arity := 0; sdc_descr := bytes "get temperature" |};
    {| sdc_name := bytes "set"; sdc_arity := 1; sdc_descr := bytes "assign setpoint" |} ].

Definition thermo_driver : shell_driver_t :=
  sd_set_commands (thermo_record (bytes "thermo.3.drv")) thermo_catalog.

Definition thermo_hash : Z := hash_pearson (Config := drv_config) (bytes "thermo3").

Definition thermo_shell : shell_t :=
  set_clients shell_init {[ thermo_hash := [thermo_driver] ]}.

(** The same driver once its client has seen the end of the stream. *)
Definition eof_driver : shell_driver_t :=
  sd_set_usc thermo_driver
    {| read_task_b := read_task_b (sd_usc thermo_driver);
       write_task_b := write_task_b (sd_usc thermo_driver);
       eof := true; calls := calls (sd_usc thermo_driver) |}.

(** A driver whose client holds [b] in its read buffer. *)
Definition with_read (sd : shell_driver_t) (b : list Z) : shell_driver_t :=
  sd_set_usc sd (usc_set_read (sd_usc sd) {| data := b; offset := 0 |}).

(** The callback behind each reader tag; [writer] is the only one that asks
    for the answer of a reconnect. *)
Definition run_reader `{cfg : Config} (r : reader_t)
    : shell_driver_t -> Z -> list Z -> shell_driver_t * list Z :=
  match r with
  | Reader_signature => reader_signature
  | Reader_info => reader_info
  | Reader_response => reader_response
  end.

(** The callback issued exactly one more library call: a reconnect. *)
Definition reconnect_attempted (sd sd' : shell_driver_t) : Prop :=
  calls (sd_usc sd') = calls (sd_usc sd) ++ [Usc_reconnect].

(** The command printed something and then the prompt, and left the clients
    alone. *)
Definition prompted (sh sh' : shell_t) : Prop :=
  exists s, output sh' = output sh ++ s ++ PROMPT /\ clients sh' = clients sh.

(** The command printed nothing and handed one frame to the client of one
    record. *)
Definition dispatched (sh sh' : shell_t) : Prop :=
  output sh' = output sh
  /\ exists h l i sd frame,
       clients sh !! h = Some l /\ l !! i = Some sd
       /\ clients sh' = <[h := <[i := unix_socket_client_send sd frame]> l]> (clients sh).

(** A shell about to run the line [line]: the buffer holds the line and its
    newline, the scan has stopped on the newline. *)
Definition at_line (sh : shell_t) (line : list Z) : shell_t :=
  set_input_buffer sh {| data := line ++ [10]; offset := length line |}.

Definition line_255 : list Z := bytes "cmd thermo 3 set " ++ repeat 120 255.

(** ** Vocabulary for the input channel *)

(** The lines completed when the bytes [bs] arrive after the pending bytes
    [cur], and the bytes then left pending. *)
Fixpoint split_lines (cur bs : list Z) : list (list Z) * list Z :=
  match bs with
  | [] => ([], cur)
  | c :: bs' =>
      if c =? 10
      then let '(ls, r) := split_lines [] bs' in (cur :: ls, r)
      else split_lines (cur ++ [c]) bs'
  end.

(** Running one line and consuming it. *)
Definition run_line `{cfg : Config} (sh : shell_t) (line : list Z) : shell_t :=
  set_input_buffer (run_command_from_input (at_line sh line))
                   {| data := []; offset := 0 |}.

(** Between two calls of [on_input] the buffer holds an unfinished line,
    scanned to its end. *)
Definition input_idle (sh : shell_t) : Prop :=
  (10 ∉ data (input_buffer sh))
  /\ offset (input_buffer sh) = length (data (input_buffer sh)).

(** ** Vocabulary for the readers *)

(** The client of [sd] after the library has stored [extra] behind the bytes
    its read buffer held. *)
Definition with_more (sd : shell_driver_t) (extra : list Z) : shell_driver_t :=
  sd_set_usc sd
    (usc_set_read (sd_usc sd)
       {| data := data (read_task_b (sd_usc sd)) ++ extra;
          offset := offset (read_task_b (sd_usc sd)) |}).

(** The length a response frame must reach, by the header in the buffer. *)
Definition response_required (sd : shell_driver_t) : nat :=
  (sizeof_pr_driver_response_t
   + Z.to_nat (read_le32 (data (read_task_b (sd_usc sd))) 1))%nat.

(** The length an info frame must reach, by the header in the buffer. *)
Definition info_required (sd : shell_driver_t) : nat :=
  (sizeof_pr_driver_info_t
   + sizeof_pr_driver_command_info_t
     * Z.to_nat (read_le16 (data (read_task_b (sd_usc sd))) 1))%nat.

(** ** Directory events

    [struct inotify_event] of [<sys/inotify.h>] is [int wd; uint32_t mask;
    uint32_t cookie; uint32_t len; char name[]]: sixteen bytes, then [len]
    bytes of name, NUL padded. *)

Definition IN_CREATE : Z := 256.
Definition IN_DELETE : Z := 512.
Definition IN_DELETE_SELF : Z := 1024.
Definition sizeof_inotify_event : nat := 16.

Definition mask_has (mask bit : Z) : bool := negb (Z.land mask bit =? 0).

(** The three tests of [base_dir_single_event] on the mask, in their order. *)
Definition dispatch_event `{cfg : Config} (sh : shell_t) (mask : Z) (name : list Z)
    (env : created_env) : outcome shell_t :=
  match (if mask_has mask IN_CREATE then base_dir_smth_created sh name env else Done sh) with
  | Abort => Abort
  | Done sh1 =>
      let sh2 := if mask_has mask IN_DELETE then base_dir_smth_deleted sh1 name else sh1 in
      Done (if mask_has mask IN_DELETE_SELF then base_dir_self_deleted sh2 else sh2)
  end.

(** The event at [_offset] of the batch [base]: the bytes to skip are taken
    from the reported [len], the name is cut at its NUL ([event->len =
    strlen(event->name)]).  With [len = 0] there is no name. *)
Definition base_dir_single_event `{cfg : Config} (sh : shell_t) (base : list Z)
    (_offset : nat) (env : created_env) : outcome shell_t * nat :=
  let mask := read_le32 base (_offset + 4) in
  let len := Z.to_nat (read_le32 base (_offset + 12)) in
  let offset := (sizeof_inotify_event + len)%nat in
  let name := if (len =? 0)%nat then []
              else cstring (drop (_offset + sizeof_inotify_event) base) in
  (dispatch_event sh mask name env, offset).

(** [while ((b.offset < b.user_size) && sh->running)]; [env] tells, for the
    event handled in each round ([idx] counts the rounds), what [stat] and
    the client library answer.  Every round skips at least the sixteen bytes
    of a header. *)
Fixpoint events_loop `{cfg : Config} (fuel : nat) (env : nat -> created_env)
    (b : list Z) (offset idx : nat) (sh : shell_t) : outcome shell_t :=
  if (offset <? length b)%nat && running sh then
    match fuel with
    | O => Done sh
    | S fuel' =>
        match base_dir_single_event sh b offset (env idx) with
        | (Abort, _) => Abort
        | (Done sh', data_read) =>
            events_loop fuel' env b (offset + data_read) (S idx) sh'
        end
    end
  else Done sh.

(** What [base_dir_event] gets from the notifier. *)
Inductive dir_input :=
  | Dir_ioctl_error
  | Dir_read_error
  | Dir_bytes (b : list Z).

Definition base_dir_event `{cfg : Config} (sh : shell_t) (inp : dir_input)
    (env : nat -> created_env) : outcome shell_t :=
  match inp with
  | Dir_ioctl_error => Abort
  | Dir_read_error => Abort
  | Dir_bytes b => events_loop (length b) env b 0 0 sh
  end.

(** *** Batches as the kernel writes them *)

Definition le32 (v : Z) : list Z :=
  [v mod 256; v / 256 mod 256; v / 256 / 256 mod 256; v / 256 / 256 / 256 mod 256].

Record dir_event := {
  de_wd : Z;
  de_mask : Z;
  de_cookie : Z;
  de_name : list Z;
  de_pad : nat          (* NUL bytes after the name *)
}.

Definition encode_event (e : dir_event) : list Z :=
  le32 (de_wd e) ++ le32 (de_mask e) ++ le32 (de_cookie e)
  ++ le32 (Z.of_nat (length (de_name e) + de_pad e))
  ++ de_name e ++ repeat 0 (de_pad e).

(** A name, when there is one, is a C string with its NUL inside [len]; an
    event without a name ([len = 0]) is about the watched directory itself
    and reports no entry created or deleted. *)
Definition event_ok (e : dir_event) : Prop :=
  0 <= de_mask e < 2 ^ 32
  /\ (0 ∉ de_name e)
  /\ Z.of_nat (length (de_name e) + de_pad e) < 2 ^ 32
  /\ match de_name e with
     | [] => de_pad e = 0%nat
             /\ mask_has (de_mask e) IN_CREATE = false
             /\ mask_has (de_mask e) IN_DELETE = false
     | _ :: _ => (0 < de_pad e)%nat
     end.

(** The events of a batch handled one after the other while the shell runs:
    only the mask and the name of an event count; [idx] is the number of the
    first one. *)
Fixpoint handle_events `{cfg : Config} (env : nat -> created_env) (idx : nat)
    (sh : shell_t) (evs : list dir_event) : outcome shell_t :=
  match evs with
  | [] => Done sh
  | e :: evs' =>
      if running sh then
        match dispatch_event sh (de_mask e) (de_name e) (env idx) with
        | Abort => Abort
        | Done sh' => handle_events env (S idx) sh' evs'
        end
      else Done sh
  end.

Definition encode_batch (evs : list dir_event) : list Z :=
  concat (map encode_event evs).

Definition thermo_created : dir_event :=
  {| de_wd := 1; de_mask := IN_CREATE; de_cookie := 0;
     de_name := bytes "thermo.3.drv"; de_pad := 4 |}.

Definition thermo_deleted : dir_event :=
  {| de_wd := 1; de_mask := IN_DELETE; de_cookie := 0;
     de_name := bytes "thermo.3.drv"; de_pad := 4 |}.

Definition dir_deleted : dir_event :=
  {| de_wd := 1; de_mask := IN_DELETE_SELF; de_cookie := 0;
     de_name := []; de_pad := 0 |}.

Definition running_shell : shell_t := set_running shell_init true.

(** ** Start-up *)

(** [struct dirent]: whether [d_type] is [DT_SOCK], and the name field. *)
Record dirent := { d_is_sock : bool; d_name : list Z }.

Definition socket_name_filter `{cfg : Config} (de : dirent) : bool :=
  if negb (d_is_sock de) then false
  else match parse_unix_socket_name_ (cstring (d_name de)) with
       | Some _ => true
       | None => false
       end.

(** What [scandir] finds: a failure, or the entries of the directory in the
    order of [alphasort], each with the answers of the environment for its
    [CREATED] handling. *)
Inductive scandir_result :=
  | Scandir_error
  | Scandir_entries (l : list (dirent * created_env)).

Fixpoint created_each `{cfg : Config} (sh : shell_t) (es : list (dirent * created_env))
    : outcome shell_t :=
  match es with
  | [] => Done sh
  | (e, env) :: es' =>
      match base_dir_smth_created sh (cstring (d_name e)) env with
      | Abort => Abort
      | Done sh' => created_each sh' es'
      end
  end.

(** [scandir] hands over the entries that pass [socket_name_filter]. *)
Definition connect_to_all_existing_sockets `{cfg : Config} (sh : shell_t)
    (dir : scandir_result) : outcome shell_t :=
  match dir with
  | Scandir_error => Abort
  | Scandir_entries l =>
      created_each sh (List.filter (fun p => socket_name_filter (fst p)) l)
  end.

Record run_env := {
  chdir_ok : bool;
  watch_ok : bool;          (* [inotify_add_watch] *)
  dir_scan : scandir_result
}.

(** [shell_run] up to the point where the reactor takes over; from there the
    shell lives in [base_dir_event] and [on_input]. *)
Definition shell_run `{cfg : Config} (sh : shell_t) (env : run_env) : outcome shell_t :=
  if negb (chdir_ok env) then Abort
  else if negb (watch_ok env) then Done sh
  else match connect_to_all_existing_sockets (set_running sh true) (dir_scan env) with
       | Abort => Abort
       | Done sh' => Done (fprintf sh' PROMPT)
       end.

Definition thermo_entry : dirent * created_env :=
  ({| d_is_sock := true; d_name := bytes "thermo.3.drv" |}, env_ok).

Definition notes_entry : dirent * created_env :=
  ({| d_is_sock := false; d_name := bytes "notes.1.drv" |}, env_ok).

Definition readme_entry : dirent * created_env :=
  ({| d_is_sock := true; d_name := bytes "readme" |}, env_ok).

Definition sample_dir : list (dirent * created_env) :=
  [notes_entry; readme_entry; thermo_entry].

(** * The socket server ([unix-socket-server.c])

    A connection with its two tasks.  What the kernel answers to [send] and
    [recv] is given as the list of the answers still to come; the bytes
    that went through the socket and the callbacks made are recorded, in
    order, in the connection. *)

Module Uss.

Definition EINTR : Z := 4.
Definition EAGAIN : Z := 11.       (* [EWOULDBLOCK] is the same number *)

Inductive send_result :=
  | Send_ok (n : nat)              (* [n] bytes taken *)
  | Send_err (errno : Z).

Inductive recv_result :=
  | Recv_ok (d : list Z)           (* the bytes stored; none at end of stream *)
  | Recv_err (errno : Z).

Inductive callback :=
  | Writer_called (err : Z)
  | Reader_called (err : Z).

Record uss_connection_t := {
  read_b : buffer_t;               (* [read_task.b] *)
  currently_read : nat;
  has_reader : bool;               (* [read_task.reader] is not [NULL] *)
  write_b : buffer_t;              (* [write_task.b] *)
  currently_wrote : nat;
  has_writer : bool;
  ussc_eof : bool;
  read_job : bool;                 (* a job for [IO_SVC_OP_READ] is posted *)
  write_job : bool;
  wire_out : list Z;               (* bytes the kernel took from [send] *)
  wire_in : list Z;                (* bytes the kernel stored by [recv] *)
  called : list callback
}.

Definition memcpy (dst src : list Z) (n : nat) : list Z := take n src ++ drop n dst.

(** [d] with [sz = length d]. *)
Definition unix_socket_server_send (conn : uss_connection_t) (d : list Z)
    (writer : bool) : uss_connection_t :=
  let sz := length d in
  let b := buffer_realloc (write_b conn) sz in
  {| read_b := read_b conn; currently_read := currently_read conn;
     has_reader := has_reader conn;
     write_b := {| data := memcpy (data b) d sz; offset := offset b |};
     currently_wrote := 0; has_writer := writer;
     ussc_eof := ussc_eof conn; read_job := read_job conn; write_job := true;
     wire_out := wire_out conn; wire_in := wire_in conn; called := called conn |}.

Definition unix_socket_server_recv (conn : uss_connection_t) (sz : nat)
    (reader : bool) : uss_connection_t :=
  let b := set_offset (read_b conn) (user_size (read_b conn)) in
  {| read_b := buffer_realloc b (offset b + sz); currently_read := 0;
     has_reader := reader;
     write_b := write_b conn; currently_wrote := currently_wrote conn;
     has_writer := has_writer conn;
     ussc_eof := ussc_eof conn; read_job := true; write_job := write_job conn;
     wire_out := wire_out conn; wire_in := wire_in conn; called := called conn |}.

(** The loop of [data_may_be_sent]; the result is [bytes_wrote],
    [bytes_to_write], [errno], the bytes on the wire and the answers left.
    There is no result when the answers run out inside the loop, nor when
    the kernel reports more bytes than it was given. *)
Fixpoint send_loop (ks : list send_result) (buf : list Z)
    (bytes_wrote bytes_to_write : nat) (wire : list Z)
    : option (nat * nat * Z * list Z * list send_result) :=
  if (bytes_to_write =? 0)%nat then Some (bytes_wrote, bytes_to_write, 0, wire, ks)
  else
    match ks with
    | [] => None
    | Send_err e :: ks' =>
        if e =? EINTR then send_loop ks' buf bytes_wrote bytes_to_write wire
        else Some (bytes_wrote, bytes_to_write, e, wire, ks')
    | Send_ok n :: ks' =>
        if (bytes_to_write <? n)%nat then None
        else send_loop ks' buf (bytes_wrote + n) (bytes_to_write - n)
               (wire ++ take n (drop bytes_wrote buf))
    end.

Definition data_may_be_sent (ussc : uss_connection_t) (ks : list send_result)
    : option (uss_connection_t * list send_result) :=
  let bytes_wrote := currently_wrote ussc in
  let bytes_to_write := (user_size (write_b ussc) - bytes_wrote)%nat in
  match send_loop ks (data (write_b ussc)) bytes_wrote bytes_to_write (wire_out ussc) with
  | None => None
  | Some (bytes_wrote, bytes_to_write, err, wire, ks') =>
      let keep := negb (bytes_to_write =? 0)%nat && (err =? EAGAIN) in
      Some ({| read_b := read_b ussc; currently_read := currently_read ussc;
               has_reader := has_reader ussc;
               write_b := write_b ussc; currently_wrote := bytes_wrote;
               has_writer := has_writer ussc;
               ussc_eof := ussc_eof ussc; read_job := read_job ussc;
               write_job := if keep then write_job ussc else false;
               wire_out := wire; wire_in := wire_in ussc;
               called := if keep then called ussc
                         else if has_writer ussc
                              then called ussc ++ [Writer_called err]
                              else called ussc |}, ks')
  end.

(** The loop of [data_may_be_read]: [recv] stores at [at_ + bytes_read]. *)
Fixpoint recv_loop (ks : list recv_result) (buf : list Z) (at_ : nat)
    (bytes_read bytes_to_read : nat) (eof : bool) (wire : list Z)
    : option (list Z * nat * nat * bool * Z * list Z * list recv_result) :=
  if (bytes_to_read =? 0)%nat || eof
  then Some (buf, bytes_read, bytes_to_read, eof, 0, wire, ks)
  else
    match ks with
    | [] => None
    | Recv_err e :: ks' =>
        if e =? EINTR then recv_loop ks' buf at_ bytes_read bytes_to_read eof wire
        else Some (buf, bytes_read, bytes_to_read, eof, e, wire, ks')
    | Recv_ok d :: ks' =>
        if (bytes_to_read <? length d)%nat then None
        else recv_loop ks'
               (take (at_ + bytes_read) buf ++ d
                ++ drop (at_ + bytes_read + length d) buf)
               at_ (bytes_read + length d) (bytes_to_read - length d)
               (length d =? 0)%nat (wire ++ d)
    end.

(** [remove_job] for the read side, then the reader when there is one. *)
Definition read_done (ussc : uss_connection_t) (err : Z) : uss_connection_t :=
  {| read_b := read_b ussc; currently_read := currently_read ussc;
     has_reader := has_reader ussc;
     write_b := write_b ussc; currently_wrote := currently_wrote ussc;
     has_writer := has_writer ussc;
     ussc_eof := ussc_eof ussc; read_job := false; write_job := write_job ussc;
     wire_out := wire_out ussc; wire_in := wire_in ussc;
     called := if has_reader ussc then called ussc ++ [Reader_called err]
               else called ussc |}.

Definition set_eof (ussc : uss_connection_t) (e : bool) : uss_connection_t :=
  {| read_b := read_b ussc; currently_read := currently_read ussc;
     has_reader := has_reader ussc;
     write_b := write_b ussc; currently_wrote := currently_wrote ussc;
     has_writer := has_writer ussc;
     ussc_eof := e; read_job := read_job ussc; write_job := write_job ussc;
     wire_out := wire_out ussc; wire_in := wire_in ussc; called := called ussc |}.

(** [pending] is what [ioctl (FIONREAD)] stores; past the test for zero it
    is only clipped and not used again. *)
Definition data_may_be_read (ussc : uss_connection_t) (pending : Z)
    (ks : list recv_result) : option (uss_connection_t * list recv_result) :=
  let bytes_read := currently_read ussc in
  let bytes_to_read :=
    (user_size (read_b ussc) - offset (read_b ussc) - bytes_read)%nat in
  if pending =? 0 then Some (read_done (set_eof ussc true) 0, ks)
  else
    match recv_loop ks (data (read_b ussc)) (offset (read_b ussc))
                    bytes_read bytes_to_read false (wire_in ussc) with
    | None => None
    | Some (buf, bytes_read, bytes_to_read, eof, err, wire, ks') =>
        let c :=
          {| read_b := {| data := buf; offset := offset (read_b ussc) |};
             currently_read := bytes_read; has_reader := has_reader ussc;
             write_b := write_b ussc; currently_wrote := currently_wrote ussc;
             has_writer := has_writer ussc;
             ussc_eof := eof; read_job := read_job ussc;
             write_job := write_job ussc;
             wire_out := wire_out ussc; wire_in := wire;
             called := called ussc |} in
        if eof then Some (read_done c err, ks')
        else if negb (bytes_to_read =? 0)%nat && (err =? EAGAIN) then Some (c, ks')
        else Some (read_done c err, ks')
    end.

(** The reactor calls a job as long as it is posted: [n] wake-ups of the
    write job, and one wake-up of the read job for each [pending] of [ps]. *)
Fixpoint writes (n : nat) (ussc : uss_connection_t) (ks : list send_result)
    : option (uss_connection_t * list send_result) :=
  match n with
  | O => Some (ussc, ks)
  | S n' =>
      if write_job ussc then
        match data_may_be_sent ussc ks with
        | None => None
        | Some (ussc', ks') => writes n' ussc' ks'
        end
      else Some (ussc, ks)
  end.

Fixpoint reads (ps : list Z) (ussc : uss_connection_t) (ks : list recv_result)
    : option (uss_connection_t * list recv_result) :=
  match ps with
  | [] => Some (ussc, ks)
  | pending :: ps' =>
      if read_job ussc then
        match data_may_be_read ussc pending ks with
        | None => None
        | Some (ussc', ks') => reads ps' ussc' ks'
        end
      else Some (ussc, ks)
  end.

(** The bytes a list of answers carries. *)
Definition taken (ks : list send_result) : nat :=
  foldr (fun k s => match k with Send_ok n => (n + s)%nat | Send_err _ => s end) 0%nat ks.

Definition stored (ks : list recv_result) : list Z :=
  concat (map (fun k => match k with Recv_ok d => d | Recv_err _ => [] end) ks).

(** Answers of a kernel that only ever asks to try again at once. *)
Definition only_eintr_send (k : send_result) : Prop :=
  match k with Send_ok _ => True | Send_err e => e = EINTR end.

Definition only_eintr_recv (k : recv_result) : Prop :=
  match k with Recv_ok d => d <> [] | Recv_err e => e = EINTR end.

(** A failing call sets [errno]. *)
Definition errno_set_send (k : send_result) : Prop := k <> Send_err 0.
Definition errno_set_recv (k : recv_result) : Prop := k <> Recv_err 0.

(** A connection as [acceptor] sets it up. *)
Definition accepted : uss_connection_t :=
  {| read_b := {| data := []; offset := 0 |}; currently_read := 0;
     has_reader := false;
     write_b := {| data := []; offset := 0 |}; currently_wrote := 0;
     has_writer := false;
     ussc_eof := false; read_job := false; write_job := false;
     wire_out := []; wire_in := []; called := [] |}.

End Uss.

(** A send of five bytes taken in two pieces over two wake-ups, and a
    receive of four bytes delivered likewise. *)
Definition hello_answers : list Uss.send_result :=
  [Uss.Send_ok 2; Uss.Send_err Uss.EAGAIN; Uss.Send_err Uss.EINTR; Uss.Send_ok 3].

Definition hello_posted : Uss.uss_connection_t :=
  Uss.unix_socket_server_send Uss.accepted (bytes "hello") true.

Definition four_answers : list Uss.recv_result :=
  [Uss.Recv_ok [1; 2]; Uss.Recv_err Uss.EAGAIN; Uss.Recv_err Uss.EINTR;
   Uss.Recv_ok [3; 4]].

Definition four_posted : Uss.uss_connection_t :=
  Uss.unix_socket_server_recv Uss.accepted 4 true.

(** A client that has just received a signature byte, and sample frames. *)
Definition info_pending : shell_driver_t :=
  with_read thermo_driver [PR_DRV_INFO (Config := drv_config)].

Definition response_pending : shell_driver_t :=
  with_read thermo_driver [PR_DRV_RESPONSE (Config := drv_config)].

Definition one_descriptor : list Z :=
  bytes "get" ++ repeat 0 29 ++ bytes "read the temperature" ++ repeat 0 108 ++ [0].



(** Modelled from the spec: [protocol.h] is not part of the sources at hand.
    Section 4.C gives a descriptor of an info frame as [{ name[32],
    descr[128], arity : u8 }]; a driver writes a name and a description
    shorter than their fields with NUL bytes behind them. *)
Record pr_driver_command_info_t := {
  dci_name : list Z;
  dci_descr : list Z;
  dci_arity : Z
}.

Definition encode_command_info (d : pr_driver_command_info_t) : list Z :=
  dci_name d ++ repeat 0 (MAX_COMMAND_NAME_LEN - length (dci_name d))
  ++ dci_descr d ++ repeat 0 (MAX_COMMAND_DESCRIPTION_LEN - length (dci_descr d))
  ++ [dci_arity d].

Definition info_frame `{cfg : Config} (cs : list pr_driver_command_info_t) : list Z :=
  [PR_DRV_INFO] ++ le16 (Z.of_nat (length cs)) ++ concat (map encode_command_info cs).

(** Texts that fit their fields. *)
Definition dci_ok (d : pr_driver_command_info_t) : Prop :=
  (0 ∉ dci_name d) /\ (length (dci_name d) <= MAX_COMMAND_NAME_LEN)%nat
  /\ (0 ∉ dci_descr d) /\ (length (dci_descr d) <= MAX_COMMAND_DESCRIPTION_LEN)%nat.

(** What the shell keeps of a descriptor, as its strings read. *)
Definition command_view (c : shell_driver_command_t) : list Z * list Z * Z :=
  (cstring (sdc_name c), cstring (sdc_descr c), sdc_arity c).

Definition thermo_info : list pr_driver_command_info_t :=
  [ {| dci_name := bytes "get"; dci_descr := bytes "read the temperature";
       dci_arity := 0 |};
    {| dci_name := bytes "set"; dci_descr := bytes "assign setpoint";
       dci_arity := 1 |} ].

Definition info_received : shell_driver_t :=
  with_read thermo_driver (info_frame (cfg := drv_config) thermo_info).

(** * Properties *)

(** ** C strings and numbers *)

Lemma strncmp_refl (s : list Z) (n : nat) : strncmp s s n = 0.
Proof.
  revert s; induction n as [|n IH]; intros s; simpl; [reflexivity|].
  rewrite Z.eqb_refl. destruct (hd 0 s =? 0); [reflexivity|apply IH].
Qed.

Lemma cstring_id (s : list Z) : 0 ∉ s -> cstring s = s.
Proof.
  induction s as [|c s IH]; intros H; simpl; [reflexivity|].
  apply not_elem_of_cons in H as [Hc Hs].
  destruct (Z.eqb_spec c 0); [congruence|]. by rewrite IH.
Qed.

Lemma cstring_no_nul (s : list Z) : 0 ∉ cstring s.
Proof.
  induction s as [|c s IH]; simpl; [apply not_elem_of_nil|].
  destruct (Z.eqb_spec c 0); [apply not_elem_of_nil|].
  apply not_elem_of_cons; split; [congruence|exact IH].
Qed.

Lemma isdigit_range (c : Z) : isdigit c = true <-> 48 <= c <= 57.
Proof. unfold isdigit. rewrite andb_true_iff, !Z.leb_le. reflexivity. Qed.

(** The digits [%u] prints are read back by the digit loop of [atoi]. *)
Lemma utoa_aux_spec (fuel : nat) :
  forall (n : Z) (acc : list Z),
    (0 < fuel)%nat -> 0 <= n < 10 ^ Z.of_nat fuel ->
    exists ds, utoa_aux fuel n acc = ds ++ acc /\ ds <> []
      /\ Forall (fun c => isdigit c = true) ds
      /\ forall rest a, digits_value (ds ++ rest) a
                        = digits_value rest (a * 10 ^ Z.of_nat (length ds) + n).
Proof.
  induction fuel as [|f IH]; intros n acc Hf Hn; [lia|].
  simpl. pose proof (Z.mod_pos_bound n 10 ltac:(lia)) as Hm.
  pose proof (Z.div_mod n 10 ltac:(lia)) as Hdm.
  assert (Hd : isdigit (48 + n mod 10) = true) by (apply isdigit_range; lia).
  destruct (Z.eqb_spec (n / 10) 0) as [Hz|Hz].
  - exists [48 + n mod 10]. repeat split; [done|by constructor|].
    intros rest a. simpl. rewrite Hd. f_equal. lia.
  - assert (Hq : 0 <= n / 10) by (apply Z.div_pos; lia).
    assert (Hf' : (0 < f)%nat).
    { destruct f; [|lia]. simpl in Hn. assert (n / 10 = 0) by (apply Z.div_small; lia). lia. }
    assert (Hn' : 0 <= n / 10 < 10 ^ Z.of_nat f).
    { split; [lia|]. apply Z.div_lt_upper_bound; [lia|].
      replace (Z.of_nat (S f)) with (1 + Z.of_nat f) in Hn by lia.
      rewrite Z.pow_add_r in Hn by lia. lia. }
    destruct (IH (n / 10) ((48 + n mod 10) :: acc) Hf' Hn')
      as (ds & Heq & Hne & Hall & Hval).
    exists (ds ++ [48 + n mod 10]). rewrite Heq, <- app_assoc. simpl.
    repeat split.
    + destruct ds; done.
    + apply Forall_app; split; [done|by constructor].
    + intros rest a. rewrite <- app_assoc, Hval. simpl. rewrite Hd. f_equal.
      rewrite length_app. simpl.
      replace (Z.of_nat (length ds + 1)) with (Z.of_nat (length ds) + 1) by lia.
      rewrite Z.pow_add_r by lia. lia.
Qed.

Lemma utoa_spec (slot : Z) :
  0 <= slot < UINT_MOD ->
  exists ds, utoa slot = ds /\ ds <> []
    /\ Forall (fun c => isdigit c = true) ds
    /\ forall rest a, digits_value (ds ++ rest) a
                      = digits_value rest (a * 10 ^ Z.of_nat (length ds) + slot).
Proof.
  intros H. unfold utoa. rewrite Z.mod_small by exact H.
  destruct (utoa_aux_spec 10 slot [] ltac:(lia)) as (ds & Heq & Hrest).
  { unfold UINT_MOD in H. simpl. lia. }
  exists ds. rewrite Heq, app_nil_r. by split.
Qed.

(** ** The endpoint-name parser *)

Lemma nth_not_elem (l : list Z) (i : nat) (c : Z) :
  c ∉ l -> c <> 0 -> nth i l 0 <> c.
Proof.
  intros Hl Hc Heq. destruct (Nat.lt_ge_cases i (length l)) as [Hi|Hi].
  - apply Hl. rewrite <- Heq. apply list_elem_of_In, nth_In, Hi.
  - rewrite nth_overflow in Heq by exact Hi. congruence.
Qed.

Lemma scan_back_no_slash (name : list Z) (back : nat) :
  47 ∉ name -> scan_back name back = O.
Proof.
  intros H. induction back as [|b IH]; simpl; [reflexivity|].
  destruct (Z.eqb_spec (nth (S b) name 0) 47) as [Heq|_]; [|exact IH].
  exfalso. revert Heq. apply nth_not_elem; [exact H|lia].
Qed.

Lemma scan_fwd_stop (p : Z -> bool) (l : list Z) (c : Z) (r : list Z) (i : nat) :
  Forall (fun x => p x = true) l -> p c = false ->
  scan_fwd p (l ++ c :: r) i = (i + length l)%nat.
Proof.
  intros Hl Hc. revert i. induction Hl as [|x l Hx Hl IH]; intros i; simpl.
  - rewrite Hc. lia.
  - rewrite Hx, IH. lia.
Qed.

Section ParserFacts.
Context `{cfg : Config}.

Lemma atoi_digits (ds rest : list Z) (slot : Z) :
  ds <> [] -> Forall (fun c => isdigit c = true) ds ->
  (forall rest a, digits_value (ds ++ rest) a
                  = digits_value rest (a * 10 ^ Z.of_nat (length ds) + slot)) ->
  0 <= slot < UINT_MOD ->
  atoi (ds ++ 46 :: rest) = slot.
Proof.
  intros Hne Hdig Hval Hslot. unfold atoi, strtol.
  destruct ds as [|d ds']; [done|].
  pose proof (Forall_inv Hdig) as Hd. apply isdigit_range in Hd.
  assert (Hsp : skip_spaces ((d :: ds') ++ 46 :: rest) = (d :: ds') ++ 46 :: rest).
  { simpl. unfold isspace.
    destruct (Z.eqb_spec d 32); [lia|].
    destruct (Z.leb_spec 9 d); destruct (Z.leb_spec d 13); simpl; try reflexivity; lia. }
  rewrite Hsp.
  assert (Hsign : match (d :: ds') ++ 46 :: rest with
                  | 45 :: r => (true, r)
                  | 43 :: r => (false, r)
                  | _ => (false, (d :: ds') ++ 46 :: rest)
                  end = (false, (d :: ds') ++ 46 :: rest)).
  { simpl app. destruct d as [|p|p]; try lia.
    do 6 (destruct p as [p|p|]; try lia; try reflexivity). }
  rewrite Hsign, Hval. simpl digits_value. simpl fst.
  unfold LONG_MIN, LONG_MAX, UINT_MOD in *.
  rewrite Z.min_r, Z.max_r by lia. apply Z.mod_small. lia.
Qed.

Lemma parse_format_description (name : list Z) (slot : Z) :
  name <> [] -> 46 ∉ name -> 47 ∉ name -> 47 ∉ SUFFIX ->
  0 <= slot < UINT_MOD ->
  parse_unix_socket_name_ (format name slot)
  = Some {| driver_name := 0; driver_name_len := length name; slot_number := slot |}.
Proof.
  intros Hne Hdot Hsl Hsuf Hslot.
  destruct (utoa_spec slot Hslot) as (ds & Hds & Hdne & Hdig & Hval).
  unfold format. rewrite Hds. clear Hds.
  assert (Hn0 : (0 < length name)%nat) by (destruct name; [done|simpl; lia]).
  assert (Hd0 : (0 < length ds)%nat) by (destruct ds; [done|simpl; lia]).
  remember (name ++ [46] ++ ds ++ [46] ++ SUFFIX) as s eqn:Hs.
  assert (Hns : 47 ∉ s).
  { subst s. rewrite !not_elem_of_app. repeat split; try done.
    - apply not_elem_of_cons; split; [lia|apply not_elem_of_nil].
    - intros Hin. rewrite Forall_forall in Hdig. apply Hdig in Hin. done.
    - apply not_elem_of_cons; split; [lia|apply not_elem_of_nil]. }
  assert (Hlen : length s = (length name + 1 + length ds + 1 + length SUFFIX)%nat).
  { subst s. rewrite !length_app. simpl. lia. }
  assert (Hend : scan_fwd (fun c => negb (c =? 46)) (drop 0 s) 0 = length name).
  { subst s.
    change (scan_fwd (fun c => negb (c =? 46)) (name ++ 46 :: ds ++ 46 :: SUFFIX) 0
            = length name).
    rewrite scan_fwd_stop; [lia| |reflexivity].
    rewrite Forall_forall. intros x Hx.
    destruct (Z.eqb_spec x 46); [subst; done|reflexivity]. }
  assert (Hdrop1 : drop (S (length name)) s = ds ++ 46 :: SUFFIX).
  { subst s. replace (S (length name)) with (length (name ++ [46]))
      by (rewrite length_app; simpl; lia).
    rewrite (app_assoc name [46]). apply drop_app_length. }
  assert (Hse : scan_fwd (fun c => negb (c =? 46) && isdigit c)
                         (drop (S (length name)) s) (S (length name))
                = (length name + 1 + length ds)%nat).
  { rewrite Hdrop1, scan_fwd_stop; [lia| |reflexivity].
    eapply Forall_impl; [exact Hdig|]. simpl. intros x Hx. rewrite Hx.
    apply isdigit_range in Hx. destruct (Z.eqb_spec x 46); [lia|reflexivity]. }
  assert (Hnth : nth (length name + 1 + length ds) s 0 = 46).
  { subst s. rewrite (app_assoc name [46]), (app_assoc _ ds).
    replace (length name + 1 + length ds)%nat with (length ((name ++ [46]) ++ ds))
      by (rewrite !length_app; simpl; lia).
    exact (nth_middle ((name ++ [46]) ++ ds) SUFFIX 46 0). }
  assert (Hdrop2 : drop (length name + 1 + length ds + 1) s = SUFFIX).
  { subst s. rewrite (app_assoc name [46]), (app_assoc _ ds), (app_assoc _ [46]).
    replace (length name + 1 + length ds + 1)%nat
      with (length (((name ++ [46]) ++ ds) ++ [46])) by (rewrite !length_app; simpl; lia).
    apply drop_app_length. }
  assert (Hatoi : atoi (drop (S (length name)) s) = slot).
  { rewrite Hdrop1. by apply atoi_digits. }
  clear Hs. unfold parse_unix_socket_name_.
  destruct (length s) as [|back0] eqn:Hls; [lia|]. rewrite <- Hls. cbv zeta.
  rewrite (scan_back_no_slash _ back0 Hns), Hend, Hse, Hnth, Hdrop2, Hatoi, strncmp_refl.
  unfold SUFFIX_LEN.
  destruct (Nat.eqb_spec (length name) 0) as [|_]; [lia|].
  destruct (Nat.eqb_spec (length name) (length s)) as [|_]; [lia|].
  destruct (Nat.eqb_spec (length name + 1 + length ds) (S (length name))) as [|_]; [lia|].
  destruct (Nat.eqb_spec (length name + 1 + length ds) (length s)) as [|_]; [lia|].
  destruct (Nat.eqb_spec (length s - (length name + 1 + length ds))
                         (length SUFFIX + 1)) as [_|]; [|lia].
  cbn [orb negb Z.eqb]. do 2 f_equal. lia.
Qed.

End ParserFacts.

(** C4.  Round trip of endpoint names: for a non-empty driver name without
    ['.'] and ['/'] and a slot that fits an [unsigned int], parsing the file
    name ["<name>.<slot>.<SUFFIX>"] succeeds and gives back exactly the name
    and the slot (the configured suffix, being part of a file name, holds no
    ['/']). *)
Theorem parse_format_roundtrip `{cfg : Config} (name : list Z) (slot : Z) :
  name <> [] -> 46 ∉ name -> 47 ∉ name -> 47 ∉ SUFFIX ->
  0 <= slot < 2 ^ 32 ->
  parse (format name slot) = Some (name, slot).
Proof.
  intros Hne Hdot Hsl Hsuf Hslot. unfold parse.
  rewrite parse_format_description by assumption.
  unfold name_slice, format. simpl driver_name. simpl driver_name_len.
  simpl slot_number. rewrite drop_0, take_app_length. reflexivity.
Qed.

Lemma parse_format_roundtrip_witness :
  parse (cfg := drv_config) (format (cfg := drv_config) (bytes "thermo") 3)
  = Some (bytes "thermo", 3).
Proof.
  apply (@parse_format_roundtrip drv_config (bytes "thermo") 3).
  - discriminate.
  - apply (bool_decide_unpack _). vm_compute. exact I.
  - apply (bool_decide_unpack _). vm_compute. exact I.
  - apply (bool_decide_unpack _). vm_compute. exact I.
  - lia.
Defined.


(** In general: whenever the input holds a ['/'], the name slice of a
    successful parse begins with a ['/']. *)
Lemma scan_back_slash (name : list Z) (back i : nat) :
  (i <= back)%nat -> nth i name 0 = 47 -> nth (scan_back name back) name 0 = 47.
Proof.
  induction back as [|b IH]; intros Hi Hn; simpl.
  - by replace i with O in Hn by lia.
  - destruct (Z.eqb_spec (nth (S b) name 0) 47) as [->|Hne]; [reflexivity|].
    apply IH; [|exact Hn]. destruct (decide (i = S b)) as [->|]; [done|lia].
Qed.

Lemma parse_slice_starts_at_slash `{cfg : Config} (name : list Z)
    (dd : driver_description_t) :
  47 ∈ name -> parse_unix_socket_name_ name = Some dd ->
  nth (driver_name dd) name 0 = 47.
Proof.
  intros Hin. apply list_elem_of_lookup_1 in Hin as [i Hi].
  pose proof (lookup_lt_Some _ _ _ Hi) as Hlt.
  unfold parse_unix_socket_name_.
  destruct (length name) as [|back0] eqn:Hlen; [done|]. cbv zeta.
  repeat (match goal with |- context [if ?b then None else _] => destruct b end; [done|]).
  intros [= <-]. cbn [driver_name].
  apply (scan_back_slash name back0 i); [lia|].
  by rewrite nth_lookup, Hi.
Qed.

(** ** The registry *)

Lemma scan_back_le (name : list Z) (back : nat) : (scan_back name back <= back)%nat.
Proof.
  induction back as [|b IH]; simpl; [lia|].
  destruct (nth (S b) name 0 =? 47); lia.
Qed.

Lemma scan_fwd_bounds (p : Z -> bool) (s : list Z) (i : nat) :
  (i <= scan_fwd p s i <= i + length s)%nat.
Proof.
  revert i. induction s as [|c s IH]; intros i; simpl; [lia|].
  destruct (p c); [|lia]. specialize (IH (S i)). lia.
Qed.

Lemma scan_fwd_char (p : Z -> bool) (s : list Z) (i : nat) :
  (scan_fwd p s i < i + length s)%nat ->
  p (nth (scan_fwd p s i - i) s 0) = false.
Proof.
  revert i. induction s as [|c s IH]; intros i; simpl; [lia|].
  destruct (p c) eqn:Hc.
  - intros H. pose proof (scan_fwd_bounds p s (S i)).
    specialize (IH (S i) ltac:(lia)).
    replace (scan_fwd p s (S i) - i)%nat with (S (scan_fwd p s (S i) - S i)) by lia.
    exact IH.
  - intros _. by rewrite Nat.sub_diag.
Qed.

Lemma strncmp_shorter (a key : list Z) (n : nat) :
  0 ∉ a -> (length a < n)%nat -> nth (length a) key 0 <> 0 ->
  strncmp a key n <> 0.
Proof.
  revert key n. induction a as [|x a IH]; intros key n Ha Hn Hkey;
    (destruct n as [|n]; [simpl in Hn; lia|]); cbn [strncmp hd tl].
  - assert (Hy : hd 0 key <> 0) by (destruct key; exact Hkey).
    destruct (Z.eqb_spec 0 (hd 0 key)); [congruence|lia].
  - apply not_elem_of_cons in Ha as [Hx Ha].
    destruct (Z.eqb_spec x (hd 0 key)) as [Heq|]; [|lia].
    destruct (Z.eqb_spec x 0); [congruence|].
    apply IH; [done|simpl in Hn; lia|].
    destruct key as [|y key]; simpl in *; [congruence|done].
Qed.

Section RegistryFacts.
Context `{cfg : Config}.

(** A parsed name lies inside the file name and is followed by a ['.']. *)
Lemma parse_name_shape (name : list Z) (dd : driver_description_t) :
  parse_unix_socket_name_ name = Some dd ->
  (0 < driver_name_len dd)%nat
  /\ (driver_name dd + driver_name_len dd < length name)%nat
  /\ nth (driver_name dd + driver_name_len dd) name 0 = 46.
Proof.
  unfold parse_unix_socket_name_.
  destruct (length name) as [|back0] eqn:Hlen; [done|]. rewrite <- Hlen. cbv zeta.
  pose proof (scan_back_le name back0) as Hns.
  set (ns := scan_back name back0) in *.
  pose proof (scan_fwd_bounds (fun c => negb (c =? 46)) (drop ns name) ns) as Hne.
  pose proof (scan_fwd_char (fun c => negb (c =? 46)) (drop ns name) ns) as Hch.
  set (ne := scan_fwd (fun c => negb (c =? 46)) (drop ns name) ns) in *.
  rewrite length_drop in Hne, Hch.
  destruct (Nat.eqb_spec ne ns) as [|Hne1]; [done|].
  destruct (Nat.eqb_spec ne (length name)) as [|Hne2]; [done|]. cbn [orb].
  repeat (match goal with |- context [if ?b then None else _] => destruct b end; [done|]).
  intros [= <-]. cbn [driver_name driver_name_len].
  split; [lia|]. split; [lia|].
  specialize (Hch ltac:(lia)). rewrite nth_skipn in Hch.
  replace (ns + (ne - ns))%nat with ne in * by lia.
  destruct (Z.eqb_spec (nth ne name 0) 46); [done|discriminate].
Qed.

(** The scan of [base_dir_smth_created] hands the length of the whole file
    name to [strncmp]: a stored name, which ends where the file name goes on
    with ['.'], never compares equal. *)
Lemma created_scan_never_matches (name : list Z) (dd : driver_description_t)
    (l : list shell_driver_t) :
  parse_unix_socket_name_ name = Some dd ->
  (forall sd, sd ∈ l -> sd_name_len sd = length (sd_name sd) /\ 0 ∉ sd_name sd) ->
  scan_drivers (fun _ => length name) (drop (driver_name dd) name)
               (driver_name_len dd) (slot_number dd) l = None.
Proof.
  intros Hp Hl. destruct (parse_name_shape name dd Hp) as (Hpos & Hin & Hdot).
  induction l as [|sd l IH]; [reflexivity|]. simpl.
  rewrite IH by (intros sd' Hsd'; apply Hl; by right).
  destruct (Nat.eqb_spec (sd_name_len sd) (driver_name_len dd)) as [Hlen|]; [|reflexivity].
  cbn [negb]. destruct (Hl sd ltac:(by left)) as [Hlen' Hnul].
  destruct (Z.eqb_spec (strncmp (sd_name sd) (drop (driver_name dd) name) (length name)) 0)
    as [Hcmp|]; [|reflexivity].
  exfalso. revert Hcmp. apply strncmp_shorter; [exact Hnul|lia|].
  rewrite nth_skipn, <- Hlen', Hlen, Hdot. done.
Qed.

(** Hence a [CREATED] event can only be fatal through the failure of
    [unix_socket_client_init]. *)
Lemma created_abort_only_on_init (sh : shell_t) (name : list Z) (env : created_env) :
  nul_free_names (clients sh) ->
  base_dir_smth_created sh name env = Abort -> init_ok env = false.
Proof.
  intros Hinv. unfold base_dir_smth_created.
  destruct (is_socket env); [|done]. cbn [negb].
  destruct (parse_unix_socket_name_ name) as [dd|] eqn:Hp; [|done]. cbv zeta.
  rewrite (created_scan_never_matches name dd); [destruct (init_ok env); done|done|].
  intros sd Hsd. destruct (clients sh !! _) as [l|] eqn:Hl; simpl in Hsd;
    [exact (Hinv _ _ _ Hl Hsd)|by apply elem_of_nil in Hsd].
Qed.

Lemma wf_registry_empty : wf_registry ∅.
Proof. intros h l sd Hl. by rewrite lookup_empty in Hl. Qed.

Lemma created_wf (sh sh' : shell_t) (name : list Z) (env : created_env) :
  wf_registry (clients sh) -> Z.of_nat (length name) < 2 ^ 31 ->
  base_dir_smth_created sh name env = Done sh' -> wf_registry (clients sh').
Proof.
  intros Hwf Hlen. unfold base_dir_smth_created.
  destruct (is_socket env); [|by intros [= <-]]. cbn [negb].
  destruct (parse_unix_socket_name_ name) as [dd|] eqn:Hp; [|by intros [= <-]]. cbv zeta.
  destruct (parse_name_shape name dd Hp) as (Hpos & Hin & _).
  destruct (scan_drivers _ _ _ _ _); [done|].
  destruct (init_ok env); [|done]. cbn [negb].
  intros [= <-]. intros h l sd Hl Hsd. simpl in Hl.
  destruct (decide (hash_pearson (DRIVER_SLOT_ID (drop (driver_name dd) name)
                                    (driver_name_len dd) (slot_number dd)) = h))
    as [<-|Hne].
  - rewrite lookup_insert_eq in Hl. injection Hl as <-.
    apply elem_of_app in Hsd as [Hsd|Hsd].
    + destruct (clients sh !! _) as [l0|] eqn:Hl0; simpl in Hsd;
        [exact (Hwf _ _ _ Hl0 Hsd)|by apply elem_of_nil in Hsd].
    + apply list_elem_of_singleton in Hsd as ->. cbn [sd_name sd_name_len sd_slot].
      split.
      * rewrite length_take, length_drop. lia.
      * unfold DRIVER_SLOT_ID, printf_prec_s, to_int, UINT_MOD.
        rewrite Z.mod_small by lia.
        destruct (Z.ltb_spec (Z.of_nat (driver_name_len dd)) (2 ^ 31)); [|lia].
        destruct (Z.ltb_spec (Z.of_nat (driver_name_len dd)) 0); [lia|].
        by rewrite Nat2Z.id, take_idemp.
  - rewrite lookup_insert_ne in Hl by done. exact (Hwf _ _ _ Hl Hsd).
Qed.

Lemma deleted_wf (sh : shell_t) (name : list Z) :
  wf_registry (clients sh) -> wf_registry (clients (base_dir_smth_deleted sh name)).
Proof.
  intros Hwf. unfold base_dir_smth_deleted.
  destruct (parse_unix_socket_name_ name) as [dd|]; [|done]. cbv zeta.
  destruct (clients sh !! _) as [l0|] eqn:Hl0; [|done].
  destruct (scan_drivers _ _ _ _ _) as [i|]; [|done].
  intros h l sd Hl Hsd. simpl in Hl.
  destruct (decide (hash_pearson (DRIVER_SLOT_ID (drop (driver_name dd) name)
                                    (driver_name_len dd) (slot_number dd)) = h))
    as [<-|Hne].
  - rewrite lookup_insert_eq in Hl. injection Hl as <-.
    apply list_elem_of_delete_inv in Hsd. exact (Hwf _ _ _ Hl0 Hsd).
  - rewrite lookup_insert_ne in Hl by done. exact (Hwf _ _ _ Hl Hsd).
Qed.

Lemma created_nul_free (sh sh' : shell_t) (name : list Z) (env : created_env) :
  nul_free_names (clients sh) -> 0 ∉ name ->
  base_dir_smth_created sh name env = Done sh' -> nul_free_names (clients sh').
Proof.
  intros Hinv Hname. unfold base_dir_smth_created.
  destruct (is_socket env); [|by intros [= <-]]. cbn [negb].
  destruct (parse_unix_socket_name_ name) as [dd|] eqn:Hp; [|by intros [= <-]]. cbv zeta.
  destruct (parse_name_shape name dd Hp) as (Hpos & Hin & _).
  destruct (scan_drivers _ _ _ _ _); [done|].
  destruct (init_ok env); [|done]. cbn [negb].
  intros [= <-]. intros h l sd Hl Hsd. simpl in Hl.
  destruct (decide (hash_pearson (DRIVER_SLOT_ID (drop (driver_name dd) name)
                                    (driver_name_len dd) (slot_number dd)) = h))
    as [<-|Hne].
  - rewrite lookup_insert_eq in Hl. injection Hl as <-.
    apply elem_of_app in Hsd as [Hsd|Hsd].
    + destruct (clients sh !! _) as [l0|] eqn:Hl0; simpl in Hsd;
        [exact (Hinv _ _ _ Hl0 Hsd)|by apply elem_of_nil in Hsd].
    + apply list_elem_of_singleton in Hsd as ->. cbn [sd_name sd_name_len].
      split; [rewrite length_take, length_drop; lia|].
      intros H0. apply Hname.
      apply (elem_of_sublist _ _ _ H0).
      etransitivity; [apply sublist_take|apply sublist_drop].
  - rewrite lookup_insert_ne in Hl by done. exact (Hinv _ _ _ Hl Hsd).
Qed.

(** The position [scan_drivers] breaks at is a position of the list. *)
Lemma scan_drivers_lookup (n : shell_driver_t -> nat) (key : list Z) (key_len : nat)
    (slot : Z) (l : list shell_driver_t) (i : nat) :
  scan_drivers n key key_len slot l = Some i -> is_Some (l !! i).
Proof.
  revert i. induction l as [|sd l IH]; intros i; simpl; [done|].
  destruct (negb _).
  - destruct (scan_drivers n key key_len slot l) as [j|]; [|done].
    intros [= <-]. by apply IH.
  - destruct (_ && _); [by intros [= <-]|].
    destruct (scan_drivers n key key_len slot l) as [j|]; [|done].
    intros [= <-]. by apply IH.
Qed.

Lemma cmd_cmd_wf (sh : shell_t) (drv : list Z) (slot : Z) (cmd : list Z)
    (args : list arg_from_input_t) :
  wf_registry (clients sh) -> wf_registry (clients (cmd_cmd sh drv slot cmd args)).
Proof.
  intros Hwf. unfold cmd_cmd.
  destruct (clients sh !! _) as [l0|] eqn:Hl0; [|done].
  destruct (scan_drivers _ _ _ _ _) as [i|]; [|done].
  destruct (l0 !! i) as [sd0|] eqn:Hi; [|done].
  destruct (find_command _ _ _) as [[cmd_idx cmd_arity]|]; [|done].
  destruct (cmd_arity <? _); [done|].
  intros h l sd Hl Hsd. simpl in Hl.
  destruct (decide (hash_pearson (DRIVER_SLOT_ID drv (strlen drv) slot) = h)) as [<-|Hne].
  - rewrite lookup_insert_eq in Hl. injection Hl as <-.
    apply list_elem_of_lookup in Hsd as [j Hj].
    destruct (decide (i = j)) as [<-|Hij].
    + rewrite list_lookup_insert_eq in Hj by (by eapply lookup_lt_Some).
      injection Hj as <-. apply (Hwf _ _ sd0 Hl0). by eapply list_elem_of_lookup_2.
    + rewrite list_lookup_insert_ne in Hj by done.
      apply (Hwf _ _ sd Hl0). by eapply list_elem_of_lookup_2.
  - rewrite lookup_insert_ne in Hl by done. exact (Hwf _ _ _ Hl Hsd).
Qed.

End RegistryFacts.

(** C1.  Two [CREATED] events for the endpoint ["thermo.3.drv"], whatever the
    hash function: the second one is not fatal, and the bucket of the
    identity then holds two records with the name ["thermo"] and the slot 3.
    The same happens when the second endpoint is ["thermo.03.drv"], another
    file of the same identity. *)
Theorem created_twice_two_records (h : list Z -> Z) :
  let created := base_dir_smth_created (cfg := drv_config_with h) in
  exists sh1,
    created shell_init (bytes "thermo.3.drv") env_ok = Done sh1
    /\ (exists sh2,
          created sh1 (bytes "thermo.3.drv") env_ok = Done sh2
          /\ clients sh2 !! h (bytes "thermo3")
             = Some [thermo_record (bytes "thermo.3.drv");
                     thermo_record (bytes "thermo.3.drv")])
    /\ (exists sh2,
          created sh1 (bytes "thermo.03.drv") env_ok = Done sh2
          /\ clients sh2 !! h (bytes "thermo3")
             = Some [thermo_record (bytes "thermo.3.drv");
                     thermo_record (bytes "thermo.03.drv")]).
Proof.
  intros created. subst created. unfold base_dir_smth_created.
  assert (Hp1 : parse_unix_socket_name_ (cfg := drv_config_with h) (bytes "thermo.3.drv")
                = Some {| driver_name := 0; driver_name_len := 6; slot_number := 3 |})
    by reflexivity.
  assert (Hp2 : parse_unix_socket_name_ (cfg := drv_config_with h) (bytes "thermo.03.drv")
                = Some {| driver_name := 0; driver_name_len := 6; slot_number := 3 |})
    by reflexivity.
  rewrite Hp1, Hp2. cbv zeta. simpl is_socket. simpl init_ok. cbn [negb].
  change (DRIVER_SLOT_ID (drop 0 (bytes "thermo.3.drv")) 6 3) with (bytes "thermo3").
  change (DRIVER_SLOT_ID (drop 0 (bytes "thermo.03.drv")) 6 3) with (bytes "thermo3").
  change (@hash_pearson (drv_config_with h)) with h.
  eexists. split.
  { simpl clients. rewrite lookup_empty. simpl. reflexivity. }
  simpl clients. rewrite !lookup_insert_eq.
  split; eexists; (split; [reflexivity|]); simpl clients;
    rewrite lookup_insert_eq; reflexivity.
Qed.

(** ** Dispatch of [cmd] *)

Lemma strncmp_eq_full (a b : list Z) :
  length a = length b -> 0 ∉ b -> (strncmp a b (length b) = 0 <-> a = b).
Proof.
  revert b. induction a as [|x a IH]; intros [|y b] Hlen Hb; simpl in Hlen; try lia.
  - simpl. split; reflexivity.
  - apply not_elem_of_cons in Hb as [Hy Hb]. simpl.
    destruct (Z.eqb_spec x y) as [->|Hxy].
    + destruct (Z.eqb_spec y 0) as [|_]; [congruence|].
      rewrite IH by (try lia; exact Hb). split; [intros ->; reflexivity|congruence].
    + split; [lia|congruence].
Qed.

Lemma strncmp_take (n : nat) (a b : list Z) :
  strncmp a b n = 0 <-> take n (cstring a ++ [0]) = take n (cstring b ++ [0]).
Proof.
  revert a b. induction n as [|n IH]; intros a b; [simpl; rewrite !take_0; done|].
  simpl strncmp.
  destruct a as [|x a]; destruct b as [|y b]; simpl hd; simpl tl; simpl cstring.
  - simpl. done.
  - destruct (Z.eqb_spec y 0) as [->|Hy]; [simpl; done|].
    destruct (Z.eqb_spec 0 y) as [|_]; [congruence|]. simpl. split; [lia|congruence].
  - destruct (Z.eqb_spec x 0) as [->|Hx]; [simpl; done|].
    destruct (Z.eqb_spec x 0) as [|_]; [congruence|]. simpl. split; [lia|congruence].
  - destruct (Z.eqb_spec x y) as [->|Hxy].
    + destruct (Z.eqb_spec y 0) as [->|Hy]; [simpl; done|].
      simpl. rewrite IH. split; [intros ->; reflexivity|congruence].
    + destruct (Z.eqb_spec x 0) as [->|Hx]; destruct (Z.eqb_spec y 0) as [->|Hy];
        simpl; try congruence; (split; [lia|congruence]).
Qed.

Section DispatchFacts.
Context `{cfg : Config}.

Lemma name_matches_strncmp (sdc : shell_driver_command_t) (cmd : list Z) :
  name_matches sdc cmd <-> strncmp (sdc_name sdc) cmd MAX_COMMAND_NAME_LEN = 0.
Proof. unfold name_matches. symmetry. apply strncmp_take. Qed.

Lemma scan_drivers_none (drv : list Z) (slot : Z) (l : list shell_driver_t) :
  0 ∉ drv ->
  (forall sd, sd ∈ l -> sd_name_len sd = length (sd_name sd)) ->
  (forall sd, sd ∈ l -> ~ (sd_name sd = drv /\ sd_slot sd = slot)) ->
  scan_drivers (fun _ => length drv) drv (length drv) slot l = None.
Proof.
  intros Hdrv. induction l as [|x l IH]; intros Hwf Hno; simpl; [reflexivity|].
  rewrite IH; first last.
  { intros sd Hsd. apply Hno. by right. }
  { intros sd Hsd. apply Hwf. by right. }
  destruct (Nat.eqb_spec (sd_name_len x) (length drv)) as [Hlen|_]; [|reflexivity].
  simpl negb. cbv iota.
  destruct (Z.eqb_spec (strncmp (sd_name x) drv (length drv)) 0) as [Hcmp|_];
    [|reflexivity].
  destruct (Z.eqb_spec (sd_slot x) slot) as [Hslot|_]; [|reflexivity].
  exfalso. apply (Hno x); [by left|]. split; [|exact Hslot].
  apply strncmp_eq_full; [|exact Hdrv|exact Hcmp].
  rewrite <- Hlen. symmetry. apply Hwf. by left.
Qed.

Lemma scan_drivers_first (drv : list Z) (slot : Z) (l : list shell_driver_t)
    (i : nat) (sd : shell_driver_t) :
  0 ∉ drv ->
  (forall sd, sd ∈ l -> sd_name_len sd = length (sd_name sd)) ->
  first_driver l drv slot i sd ->
  scan_drivers (fun _ => length drv) drv (length drv) slot l = Some i.
Proof.
  intros Hdrv. revert i. induction l as [|x l IH]; intros i Hwf (Hi & Hn & Hs & Hfirst).
  { done. }
  destruct i as [|i].
  - simpl in Hi. injection Hi as ->. simpl.
    assert (Hlen : sd_name_len sd = length drv).
    { rewrite <- Hn. apply Hwf. by left. }
    rewrite Hlen, Nat.eqb_refl, Hn, strncmp_refl, Hs, !Z.eqb_refl. reflexivity.
  - simpl in Hi. simpl.
    rewrite (IH i); first last.
    { repeat split; try done. intros j sd' Hj Hl. apply (Hfirst (S j) sd'); [lia|done]. }
    { intros sd' Hsd'. apply Hwf. by right. }
    destruct (Nat.eqb_spec (sd_name_len x) (length drv)) as [Hlen|_]; [|reflexivity].
    simpl negb. cbv iota.
    destruct (Z.eqb_spec (strncmp (sd_name x) drv (length drv)) 0) as [Hcmp|_];
      [|reflexivity].
    destruct (Z.eqb_spec (sd_slot x) slot) as [Hslot|_]; [|reflexivity].
    exfalso. apply (Hfirst O x); [lia|done|]. split; [|exact Hslot].
    apply strncmp_eq_full; [|exact Hdrv|exact Hcmp].
    rewrite <- Hlen. symmetry. apply Hwf. by left.
Qed.

Lemma find_command_none (cmds : list shell_driver_command_t) (cmd : list Z) (idx : nat) :
  (forall sdc, sdc ∈ cmds -> ~ name_matches sdc cmd) ->
  find_command cmds cmd idx = None.
Proof.
  revert idx. induction cmds as [|c cmds IH]; intros idx Hno; cbn [find_command];
    [reflexivity|].
  destruct (Z.eqb_spec (strncmp (sdc_name c) cmd MAX_COMMAND_NAME_LEN) 0) as [Hc|_].
  - exfalso. apply (Hno c); [by left|]. by apply name_matches_strncmp.
  - apply IH. intros sdc Hsdc. apply Hno. by right.
Qed.

Lemma find_command_first (cmds : list shell_driver_command_t) (cmd : list Z)
    (idx k : nat) (sdc : shell_driver_command_t) :
  first_command cmds cmd k sdc ->
  find_command cmds cmd idx = Some ((idx + k)%nat, sdc_arity sdc).
Proof.
  revert idx k. induction cmds as [|c cmds IH]; intros idx k (Hk & Hm & Hfirst); [done|].
  destruct k as [|k]; simpl in Hk; cbn [find_command].
  - injection Hk as ->. apply name_matches_strncmp in Hm. rewrite Hm.
    cbn [Z.eqb]. do 2 f_equal. lia.
  - destruct (Z.eqb_spec (strncmp (sdc_name c) cmd MAX_COMMAND_NAME_LEN) 0) as [Hc|_].
    + exfalso. apply (Hfirst O c); [lia|done|]. by apply name_matches_strncmp.
    + rewrite (IH (S idx) k).
      * do 2 f_equal. lia.
      * repeat split; try done. intros j sdc' Hj Hl.
        apply (Hfirst (S j) sdc'); [lia|done].
Qed.

Lemma cmd_invalid_rejected (sh : shell_t) : rejected sh (cmd_invalid sh).
Proof. split; [|reflexivity]. simpl. by rewrite <- app_assoc. Qed.

Lemma strlen_id (s : list Z) : 0 ∉ s -> strlen s = length s.
Proof. intros H. unfold strlen. by rewrite cstring_id. Qed.

Lemma cmd_cmd_unregistered (sh : shell_t) (drv : list Z) (slot : Z) (cmd : list Z)
    (args : list arg_from_input_t) :
  wf_registry (clients sh) -> 0 ∉ drv ->
  ~ registered (clients sh) drv slot ->
  cmd_cmd sh drv slot cmd args = cmd_invalid sh.
Proof.
  intros Hwf Hdrv Hno. unfold cmd_cmd. rewrite strlen_id by exact Hdrv.
  destruct (clients sh !! _) as [l|] eqn:Hl; [|reflexivity].
  rewrite scan_drivers_none; [reflexivity|exact Hdrv| |].
  - intros sd Hsd. apply (Hwf _ _ _ Hl Hsd).
  - intros sd Hsd [Hn Hs]. apply Hno. eexists _, l, sd. eauto.
Qed.

Lemma cmd_cmd_resolved (sh : shell_t) (drv : list Z) (slot : Z) (cmd : list Z)
    (args : list arg_from_input_t) (h : Z) (l : list shell_driver_t) (i : nat)
    (sd : shell_driver_t) :
  wf_registry (clients sh) -> 0 ∉ drv ->
  resolves (clients sh) drv slot h l i sd ->
  cmd_cmd sh drv slot cmd args
  = match find_command (sd_commands sd) cmd 0 with
    | None => cmd_invalid sh
    | Some (cmd_idx, cmd_arity) =>
        if cmd_arity <? Z.of_nat (length args) then cmd_invalid sh
        else set_clients sh
               (<[h := <[i := unix_socket_client_send sd (command_frame cmd_idx args)]> l]>
                  (clients sh))
    end.
Proof.
  intros Hwf Hdrv (Hh & Hl & Hfirst). unfold cmd_cmd.
  rewrite strlen_id by exact Hdrv. rewrite <- Hh, Hl.
  rewrite (scan_drivers_first drv slot l i sd); [|exact Hdrv| |exact Hfirst].
  - destruct Hfirst as (-> & _). reflexivity.
  - intros sd' Hsd'. apply (Hwf _ _ _ Hl Hsd').
Qed.

End DispatchFacts.

Lemma exists_first_driver (l : list shell_driver_t) (drv : list Z) (slot : Z) :
  (exists sd, sd ∈ l /\ sd_name sd = drv /\ sd_slot sd = slot) ->
  exists i sd, first_driver l drv slot i sd.
Proof.
  induction l as [|x l IH]; intros (sd & Hin & Hn & Hs).
  { by apply elem_of_nil in Hin. }
  destruct (decide (sd_name x = drv /\ sd_slot x = slot)) as [[Hxn Hxs]|Hx].
  - exists O, x. repeat split; try done. intros j sd' Hj. lia.
  - apply elem_of_cons in Hin as [->|Hin]; [by destruct Hx|].
    destruct IH as (i & sd0 & Hi & Hn0 & Hs0 & Hfirst); [by exists sd|].
    exists (S i), sd0. repeat split; try done.
    intros [|j] sd' Hj Hl; simpl in Hl.
    + by injection Hl as <-.
    + apply (Hfirst j sd'); [lia|done].
Qed.

Lemma registered_resolves `{cfg : Config} (c : gmap Z (list shell_driver_t))
    (drv : list Z) (slot : Z) :
  wf_registry c -> registered c drv slot ->
  exists h l i sd, resolves c drv slot h l i sd.
Proof.
  intros Hwf (h & l & sd & Hl & Hin & Hn & Hs).
  destruct (exists_first_driver l drv slot) as (i & sd0 & Hfirst); [by exists sd|].
  exists h, l, i, sd0. split; [|by split].
  destruct (Hwf h l sd Hl Hin) as [Hlen ->]. by rewrite Hlen, Hn, Hs.
Qed.

(** C2.  Validation in [cmd_cmd], on a registry whose records sit in the
    buckets of their hashes and for a driver name that is a C string.  When no
    record has the identity [(drv, slot)], or the record the line is resolved
    to has no command matching [cmd], or the first matching command has an
    arity below the number of arguments, the shell prints ["Invalid command"]
    and the prompt and no client is touched.  Otherwise (the number of
    arguments is at most the arity) nothing is printed and the command frame
    is handed to [unix_socket_client_send] of that record's client.  A
    registered identity always resolves to a record. *)
Theorem cmd_cmd_validation `{cfg : Config} (sh : shell_t) (drv : list Z) (slot : Z)
    (cmd : list Z) (args : list arg_from_input_t) :
  wf_registry (clients sh) -> 0 ∉ drv ->
  (~ registered (clients sh) drv slot ->
     rejected sh (cmd_cmd sh drv slot cmd args))
  /\ (registered (clients sh) drv slot ->
        exists h l i sd, resolves (clients sh) drv slot h l i sd)
  /\ (forall h l i sd, resolves (clients sh) drv slot h l i sd ->
        (~ has_command sd cmd -> rejected sh (cmd_cmd sh drv slot cmd args))
        /\ (has_command sd cmd -> exists k sdc, first_command (sd_commands sd) cmd k sdc)
        /\ (forall k sdc, first_command (sd_commands sd) cmd k sdc ->
              (sdc_arity sdc < Z.of_nat (length args) ->
                 rejected sh (cmd_cmd sh drv slot cmd args))
              /\ (Z.of_nat (length args) <= sdc_arity sdc ->
                    cmd_cmd sh drv slot cmd args
                    = set_clients sh
                        (<[h := <[i := unix_socket_client_send sd (command_frame k args)]> l]>
                           (clients sh))))).
Proof.
  intros Hwf Hdrv. split; [|split].
  - intros Hno. rewrite cmd_cmd_unregistered by assumption. apply cmd_invalid_rejected.
  - by apply registered_resolves.
  - intros h l i sd Hres. rewrite (cmd_cmd_resolved sh drv slot cmd args h l i sd) by assumption.
    split; [|split].
    + intros Hno. rewrite find_command_none; [apply cmd_invalid_rejected|].
      intros sdc Hin Hm. apply Hno. by exists sdc.
    + intros (sdc & Hin & Hm). clear Hres.
      induction (sd_commands sd) as [|c cs IH]; [by apply elem_of_nil in Hin|].
      destruct (Z.eq_dec (strncmp (sdc_name c) cmd MAX_COMMAND_NAME_LEN) 0) as [Hc|Hc].
      * exists O, c. repeat split; [by apply name_matches_strncmp|]. intros j ? Hj. lia.
      * apply elem_of_cons in Hin as [->|Hin]; [by apply name_matches_strncmp in Hm|].
        destruct (IH Hin) as (k & sdc0 & Hk & Hm0 & Hfirst).
        exists (S k), sdc0. repeat split; try done.
        intros [|j] sdc' Hj Hl'; simpl in Hl'.
        -- injection Hl' as <-. by rewrite name_matches_strncmp.
        -- apply (Hfirst j sdc'); [lia|done].
    + intros k sdc Hfc. rewrite (find_command_first _ cmd 0 k sdc Hfc). simpl Nat.add.
      split; intros Har.
      * apply Z.ltb_lt in Har. rewrite Har. apply cmd_invalid_rejected.
      * destruct (Z.ltb_spec (sdc_arity sdc) (Z.of_nat (length args))); [lia|reflexivity].
Qed.

Lemma thermo_shell_wf : wf_registry (cfg := drv_config) (clients thermo_shell).
Proof.
  intros h l sd Hl Hsd. simpl in Hl.
  apply lookup_singleton_Some in Hl as [<- <-].
  apply list_elem_of_singleton in Hsd as ->. split; reflexivity.
Qed.

Lemma cmd_cmd_validation_witness :
  cmd_cmd (cfg := drv_config) thermo_shell (bytes "thermo") 3 (bytes "set")
          (mk_args [bytes "42"])
  = set_clients thermo_shell
      {[ thermo_hash :=
           [unix_socket_client_send thermo_driver [0; 1; 0; 1; 2; 52; 50]] ]}.
Proof.
  destruct (@cmd_cmd_validation drv_config thermo_shell (bytes "thermo") 3
              (bytes "set") (mk_args [bytes "42"])) as (_ & _ & H).
  - exact thermo_shell_wf.
  - apply (bool_decide_unpack _). vm_compute. exact I.
  - destruct (H thermo_hash [thermo_driver] O thermo_driver) as (_ & _ & H').
    + split; [reflexivity|]. split; [apply lookup_singleton_eq|].
      repeat split. intros j ? Hj. lia.
    + destruct (H' 1%nat {| sdc_name := bytes "set"; sdc_arity := 1;
                            sdc_descr := bytes "assign setpoint" |}) as (_ & Hacc).
      * repeat split. intros [|j] sdc' Hj Hl; [|lia].
        injection Hl as <-. intros Hm. vm_compute in Hm. discriminate.
      * rewrite Hacc by (simpl; lia).
        simpl clients. rewrite insert_singleton_eq. reflexivity.
Defined.

(** ** The command frame *)

Section FrameFacts.
Context `{cfg : Config}.

Lemma command_frame_layout (k : nat) (tokens : list (list Z)) :
  Z.of_nat k < 65536 -> (length tokens <= 255)%nat ->
  command_frame k (mk_args tokens)
  = [u8 PR_DRV_COMMAND; Z.of_nat k mod 256; Z.of_nat k / 256; Z.of_nat (length tokens)]
    ++ concat (map (fun t => Z.of_nat (length t) :: t) tokens).
Proof.
  intros Hk Hn. unfold command_frame, le16, u8, mk_args.
  rewrite length_map, map_map. simpl app. f_equal.
  rewrite (Z.mod_small (Z.of_nat k) 65536) by lia. f_equal. f_equal.
  { apply Z.mod_small. split; [apply Z.div_pos; lia|].
    apply Z.div_lt_upper_bound; lia. }
  f_equal; [apply Z.mod_small; lia|]. f_equal.
  apply map_ext. intros t. simpl. by rewrite Nat2Z.id, firstn_all.
Qed.

Lemma parse_command_args_roundtrip (tokens : list (list Z)) (rest : list Z) :
  parse_command_args (length tokens)
    (concat (map (fun t => Z.of_nat (length t) :: t) tokens) ++ rest)
  = Some (tokens, rest).
Proof.
  induction tokens as [|t tokens IH]; [reflexivity|].
  simpl. rewrite Nat2Z.id, <- app_assoc.
  destruct (Nat.ltb_spec (length (t ++ concat (map (fun t0 => Z.of_nat (length t0) :: t0) tokens)
                                    ++ rest)) (length t)) as [Hlt|_].
  { rewrite length_app in Hlt. lia. }
  rewrite drop_app_length, IH, take_app_length. reflexivity.
Qed.

End FrameFacts.

(** C3.  On a valid dispatch (the line resolves to the record [sd], the
    first matching command is at catalog index [k] below 2^16 with an arity in
    a byte, there are no more arguments than the arity, and no argument is
    longer than 255 bytes) the frame handed to the client is the signature
    byte of [DRV_COMMAND], [k] on two bytes, the number of arguments on one
    byte, and for each argument its length on one byte followed by its bytes;
    reading the frame back by the layout of the specification gives [k] and
    the arguments. *)
Theorem command_frame_roundtrip `{cfg : Config} (sh : shell_t) (drv : list Z) (slot : Z)
    (cmd : list Z) (tokens : list (list Z)) (h : Z) (l : list shell_driver_t)
    (i : nat) (sd : shell_driver_t) (k : nat) (sdc : shell_driver_command_t) :
  wf_registry (clients sh) -> 0 ∉ drv ->
  resolves (clients sh) drv slot h l i sd ->
  first_command (sd_commands sd) cmd k sdc ->
  Z.of_nat k < 65536 -> sdc_arity sdc <= 255 ->
  Z.of_nat (length tokens) <= sdc_arity sdc ->
  Forall (fun t => (length t <= 255)%nat) tokens ->
  let frame :=
    [u8 PR_DRV_COMMAND; Z.of_nat k mod 256; Z.of_nat k / 256; Z.of_nat (length tokens)]
    ++ concat (map (fun t => Z.of_nat (length t) :: t) tokens) in
  cmd_cmd sh drv slot cmd (mk_args tokens)
  = set_clients sh (<[h := <[i := unix_socket_client_send sd frame]> l]> (clients sh))
  /\ parse_command_frame frame = Some (Z.of_nat k, tokens).
Proof.
  intros Hwf Hdrv Hres Hfc Hk Har Hn Hlen frame. split.
  - rewrite (cmd_cmd_resolved sh drv slot cmd _ h l i sd) by assumption.
    rewrite (find_command_first _ cmd 0 k sdc Hfc). simpl Nat.add.
    unfold mk_args at 1. rewrite length_map.
    destruct (Z.ltb_spec (sdc_arity sdc) (Z.of_nat (length tokens))); [lia|].
    rewrite command_frame_layout by lia. reflexivity.
  - subst frame. unfold parse_command_frame. cbn [app]. cbv beta iota.
    rewrite Z.eqb_refl, Nat2Z.id.
    rewrite <- (app_nil_r (concat _)), parse_command_args_roundtrip.
    do 2 f_equal. pose proof (Z.div_mod (Z.of_nat k) 256 ltac:(lia)). lia.
Qed.

Lemma command_frame_roundtrip_witness :
  cmd_cmd (cfg := drv_config) thermo_shell (bytes "thermo") 3 (bytes "set")
          (mk_args [bytes "42"])
  = set_clients thermo_shell
      (<[thermo_hash :=
           <[O := unix_socket_client_send thermo_driver [0; 1; 0; 1; 2; 52; 50]]>
             [thermo_driver]]> (clients thermo_shell))
  /\ parse_command_frame (cfg := drv_config) [0; 1; 0; 1; 2; 52; 50]
     = Some (1, [bytes "42"]).
Proof.
  apply (@command_frame_roundtrip drv_config thermo_shell (bytes "thermo") 3
           (bytes "set") [bytes "42"] thermo_hash [thermo_driver] O thermo_driver
           1%nat {| sdc_name := bytes "set"; sdc_arity := 1;
                    sdc_descr := bytes "assign setpoint" |}).
  - exact thermo_shell_wf.
  - apply (bool_decide_unpack _). vm_compute. exact I.
  - split; [reflexivity|]. split; [apply lookup_singleton_eq|].
    repeat split. intros j ? Hj. lia.
  - repeat split. intros [|j] sdc' Hj Hl; [|lia].
    injection Hl as <-. intros Hm. vm_compute in Hm. discriminate.
  - lia.
  - simpl. lia.
  - simpl. lia.
  - repeat constructor; simpl; lia.
Defined.

(** ** Readers and the writer *)

(** C6, as stated, fails at the end of the stream: a read that completes with
    EOF and no error leaves the client as it is, no reconnect is asked for. *)
Lemma eof_makes_no_reconnect :
  reader_signature (cfg := drv_config) eof_driver 0 [] = (eof_driver, [])
  /\ ~ reconnect_attempted eof_driver
        (fst (reader_signature (cfg := drv_config) eof_driver 0 [])).
Proof.
  split; [reflexivity|].
  unfold reconnect_attempted. simpl. intros H. discriminate H.
Qed.

(** C6, amended.  Every reader asks for a reconnect when its read completed
    with an error, and [reader_signature] also does on a signature byte that
    is neither [DRV_INFO] nor [DRV_RESPONSE]; on EOF without an error a reader
    returns at once, with the client and the output unchanged. *)
Theorem read_error_reconnects `{cfg : Config} (r : reader_t) (sd : shell_driver_t)
    (error : Z) (out : list Z) :
  (error <> 0 ->
     run_reader r sd error out = (unix_socket_client_reconnect sd, out)
     /\ reconnect_attempted sd (fst (run_reader r sd error out)))
  /\ (error = 0 -> eof (sd_usc sd) = true -> run_reader r sd error out = (sd, out))
  /\ (error = 0 -> eof (sd_usc sd) = false ->
        nth 0 (data (read_task_b (sd_usc sd))) 0 <> PR_DRV_INFO ->
        nth 0 (data (read_task_b (sd_usc sd))) 0 <> PR_DRV_RESPONSE ->
        reconnect_attempted sd (fst (reader_signature sd error out))).
Proof.
  split; [|split].
  - intros He.
    assert (Hh : READ_ERROR_HANDLER sd error = Some (unix_socket_client_reconnect sd)).
    { unfold READ_ERROR_HANDLER. destruct (Z.eqb_spec error 0); [done|reflexivity]. }
    assert (Heq : run_reader r sd error out = (unix_socket_client_reconnect sd, out)).
    { destruct r; unfold run_reader, reader_signature, reader_info, reader_response;
        rewrite Hh; reflexivity. }
    split; [exact Heq|]. rewrite Heq. reflexivity.
  - intros -> Heof.
    assert (Hh : READ_ERROR_HANDLER sd 0 = Some sd).
    { unfold READ_ERROR_HANDLER. simpl. by rewrite Heof. }
    destruct r; unfold run_reader, reader_signature, reader_info, reader_response;
      rewrite Hh; reflexivity.
  - intros -> Heof Hi Hr.
    unfold reader_signature, READ_ERROR_HANDLER. simpl negb. cbv iota. rewrite Heof.
    destruct (Z.eqb_spec (nth 0 (data (read_task_b (sd_usc sd))) 0) PR_DRV_INFO); [done|].
    destruct (Z.eqb_spec (nth 0 (data (read_task_b (sd_usc sd))) 0) PR_DRV_RESPONSE); [done|].
    reflexivity.
Qed.

Lemma read_error_reconnects_witness :
  reconnect_attempted thermo_driver
    (fst (run_reader (cfg := drv_config) Reader_response thermo_driver 104 [])).
Proof.
  destruct (@read_error_reconnects drv_config Reader_response thermo_driver 104 [])
    as (H & _).
  apply H. lia.
Defined.

(** C7, as stated, fails on a payload with a NUL byte: of the payload
    [a NUL b] only [a] is written before the newline and the prompt. *)
Lemma response_payload_cut_at_nul :
  snd (reader_response
         (with_read thermo_driver [2; 3; 0; 0; 0; 97; 0; 98]) 0 [])
  = [97] ++ NEW_LINE ++ PROMPT
  /\ snd (reader_response
            (with_read thermo_driver [2; 3; 0; 0; 0; 97; 0; 98]) 0 [])
     <> [97; 0; 98] ++ NEW_LINE ++ PROMPT.
Proof. split; [reflexivity|]. vm_compute. discriminate. Qed.

(** C7, amended.  For a completely received response frame (no error, no
    EOF) whose length field holds the length of the payload [p], below 2^31:
    the shell writes the bytes of [p] that precede its first NUL, then a
    newline, then the prompt; when [p] holds no NUL these are the bytes of
    [p] verbatim. *)
Theorem response_printed (sd : shell_driver_t) (out : list Z)
    (s b1 b2 b3 b4 : Z) (p : list Z) :
  eof (sd_usc sd) = false ->
  data (read_task_b (sd_usc sd)) = s :: b1 :: b2 :: b3 :: b4 :: p ->
  b1 + 256 * b2 + 65536 * b3 + 16777216 * b4 = Z.of_nat (length p) ->
  Z.of_nat (length p) < 2 ^ 31 ->
  reader_response sd 0 out = (sd, out ++ cstring p ++ NEW_LINE ++ PROMPT)
  /\ (0 ∉ p -> reader_response sd 0 out = (sd, out ++ p ++ NEW_LINE ++ PROMPT)).
Proof.
  intros Heof Hdata Hlen Hbound.
  assert (Heq : reader_response sd 0 out = (sd, out ++ cstring p ++ NEW_LINE ++ PROMPT)).
  { unfold reader_response, READ_ERROR_HANDLER. simpl negb. cbv iota.
    rewrite Heof. unfold user_size. rewrite Hdata.
    change (read_le32 (s :: b1 :: b2 :: b3 :: b4 :: p) 1)
      with (b1 + 256 * b2 + 65536 * b3 + 16777216 * b4).
    rewrite Hlen, Nat2Z.id.
    destruct (Nat.ltb_spec (length (s :: b1 :: b2 :: b3 :: b4 :: p))
                (sizeof_pr_driver_response_t + length p)) as [Hlt|_].
    { simpl in Hlt. lia. }
    do 3 f_equal. unfold printf_prec_s, to_int, UINT_MOD.
    rewrite Z.mod_small by lia.
    destruct (Z.ltb_spec (Z.of_nat (length p)) (2 ^ 31)); [|lia].
    destruct (Z.ltb_spec (Z.of_nat (length p)) 0); [lia|].
    change (drop sizeof_pr_driver_response_t (s :: b1 :: b2 :: b3 :: b4 :: p)) with p.
    by rewrite Nat2Z.id, firstn_all. }
  split; [exact Heq|]. intros Hp. rewrite Heq. by rewrite cstring_id.
Qed.

Lemma response_printed_witness :
  reader_response (with_read thermo_driver [2; 2; 0; 0; 0; 111; 107]) 0 []
  = (with_read thermo_driver [2; 2; 0; 0; 0; 111; 107], bytes "ok" ++ NEW_LINE ++ PROMPT).
Proof.
  refine (proj1 (response_printed
                   (with_read thermo_driver [2; 2; 0; 0; 0; 111; 107])
                   [] 2 2 0 0 0 (bytes "ok") _ _ _ _)).
  - reflexivity.
  - reflexivity.
  - reflexivity.
  - simpl. lia.
Defined.

(** ** The prompt *)

Section PromptFacts.
Context `{cfg : Config}.

Lemma rejected_prompted (sh sh' : shell_t) : rejected sh sh' -> prompted sh sh'.
Proof. intros [Ho Hc]. by exists INVALID_MSG. Qed.

Lemma cmd_invalid_prompted (sh : shell_t) : prompted sh (cmd_invalid sh).
Proof. apply rejected_prompted, cmd_invalid_rejected. Qed.

Lemma cmd_help_prompted (sh : shell_t) : prompted sh (cmd_help sh).
Proof. exists HELP_MSG. split; [|reflexivity]. simpl. by rewrite <- app_assoc. Qed.

Lemma cmd_list_prompted (sh : shell_t) : prompted sh (cmd_list sh).
Proof.
  eexists. split; [|reflexivity]. unfold cmd_list, finish_cmd, print_drv.
  simpl output. rewrite <- app_assoc. reflexivity.
Qed.

Lemma cmd_cmd_cases (sh : shell_t) (drv : list Z) (slot : Z) (cmd : list Z)
    (args : list arg_from_input_t) :
  cmd_cmd sh drv slot cmd args = cmd_invalid sh
  \/ dispatched sh (cmd_cmd sh drv slot cmd args).
Proof.
  unfold cmd_cmd.
  destruct (clients sh !! _) as [l|] eqn:Hl; [|by left].
  destruct (scan_drivers _ _ _ _ l) as [i|]; [|by left].
  destruct (l !! i) as [sd|] eqn:Hi; [|by left].
  destruct (find_command _ _ _) as [[cmd_idx cmd_arity]|]; [|by left].
  destruct (cmd_arity <? _); [by left|].
  right. split; [reflexivity|]. by eexists _, l, i, sd, _.
Qed.

Create HintDb prompt.
#[local] Hint Resolve cmd_invalid_prompted cmd_help_prompted cmd_list_prompted : prompt.

(** Case analysis on a test of the interpreter; the branches that answer at
    once are closed by the lemmas above. *)
Ltac branch t := destruct t; simpl negb; cbv iota; auto with prompt.

Lemma run_command_from_input_cases (sh : shell_t) :
  prompted sh (run_command_from_input sh)
  \/ dispatched sh (run_command_from_input sh).
Proof.
  unfold run_command_from_input.
  destruct (strtok_all _ _) as [|cmd toks]; [auto with prompt|].
  branch (streq LIST_CMD cmd). branch (streq HELP_CMD cmd). branch (streq CMD_CMD cmd).
  destruct toks as [|drv [|slot [|drv_cmd rest]]]; auto with prompt.
  destruct (strtoul slot) as [slot_number slot_endptr].
  branch (hd 0 slot_endptr =? 0).
  destruct (collect_args rest) as [args|]; auto with prompt.
  destruct (cmd_cmd_cases sh drv slot_number drv_cmd args) as [->|H]; auto with prompt.
Qed.

End PromptFacts.

(** C8, as stated, fails where a send fails and the reconnect fails too, and
    where a read ends in an error: the callback returns and nothing, hence no
    prompt, is written. *)
Lemma no_prompt_after_failed_reconnect :
  snd (writer thermo_driver 32 false []) = []
  /\ snd (reader_response thermo_driver 104 []) = [].
Proof. split; reflexivity. Qed.

(** C8, amended.  A line of input either prints something that ends with the
    prompt at once ([list], [help], rejected input) or is dispatched without
    any output.  After a dispatch the prompt follows the response once its
    frame is complete, and follows a failed send when the reconnect
    succeeds; when the send fails and the reconnect fails too nothing is
    written, and after a successful send the client only waits for a
    signature. *)
Theorem prompt_discipline `{cfg : Config} :
  (forall sh, prompted sh (run_command_from_input sh)
              \/ dispatched sh (run_command_from_input sh))
  /\ (forall sh, prompted sh (cmd_list sh) /\ prompted sh (cmd_help sh)
                 /\ prompted sh (cmd_invalid sh))
  /\ (forall sd out,
        eof (sd_usc sd) = false ->
        (sizeof_pr_driver_response_t
         + Z.to_nat (read_le32 (data (read_task_b (sd_usc sd))) 1)
         <= user_size (read_task_b (sd_usc sd)))%nat ->
        exists s, snd (reader_response sd 0 out) = out ++ s ++ NEW_LINE ++ PROMPT)
  /\ (forall sd error out, error <> 0 ->
        snd (writer sd error true out) = out ++ PROMPT
        /\ snd (writer sd error false out) = out)
  /\ (forall sd reconnect_ok out,
        writer sd 0 reconnect_ok out
        = (unix_socket_client_recv (reset_buffers sd) sizeof_pr_signature_t
             Reader_signature, out)).
Proof.
  split; [exact run_command_from_input_cases|].
  split; [intros sh; auto using cmd_list_prompted, cmd_help_prompted, cmd_invalid_prompted|].
  split; [|split].
  - intros sd out Heof Hsize. unfold reader_response, READ_ERROR_HANDLER.
    simpl negb. cbv iota. rewrite Heof.
    destruct (Nat.ltb_spec (user_size (read_task_b (sd_usc sd)))
                (sizeof_pr_driver_response_t
                 + Z.to_nat (read_le32 (data (read_task_b (sd_usc sd))) 1))); [lia|].
    eexists. reflexivity.
  - intros sd error out He. unfold writer.
    destruct (Z.eqb_spec error 0); [done|]. split; reflexivity.
  - intros sd rc out. reflexivity.
Qed.

Lemma prompt_discipline_witness :
  snd (reader_response (with_read thermo_driver [2; 2; 0; 0; 0; 111; 107]) 0 [])
  = bytes "ok" ++ NEW_LINE ++ PROMPT
  /\ snd (writer thermo_driver 32 true []) = PROMPT.
Proof.
  destruct (@prompt_discipline drv_config) as (_ & _ & Hr & Hw & _).
  split.
  - destruct (Hr (with_read thermo_driver [2; 2; 0; 0; 0; 111; 107]) [])
      as [s Hs]; [reflexivity|vm_compute; lia|]. reflexivity.
  - apply (Hw thermo_driver 32 []). lia.
Defined.

(** ** Lines of input *)

Lemma elem_of_rev (x : Z) (l : list Z) : x ∈ rev l -> x ∈ l.
Proof. rewrite !list_elem_of_In. apply in_rev. Qed.

Lemma strtok_all_no_nul (s cur : list Z) :
  0 ∉ s -> 0 ∉ cur -> forall t, t ∈ strtok_all s cur -> 0 ∉ t.
Proof.
  revert cur. induction s as [|c s IH]; intros cur Hs Hcur t Ht.
  - simpl in Ht. destruct cur as [|x cur]; [by apply elem_of_nil in Ht|].
    apply list_elem_of_singleton in Ht as ->.
    intros Hin. apply Hcur. by apply elem_of_rev.
  - apply not_elem_of_cons in Hs as [Hc Hs]. simpl in Ht.
    destruct (c =? 32).
    + destruct cur as [|x cur]; [exact (IH [] Hs (not_elem_of_nil 0) t Ht)|].
      apply elem_of_cons in Ht as [->|Ht]; [|exact (IH [] Hs (not_elem_of_nil 0) t Ht)].
      intros Hin. apply Hcur. by apply elem_of_rev.
    + apply (IH (c :: cur)); try done.
      apply not_elem_of_cons. split; [congruence|done].
Qed.

Lemma collect_args_ok (tokens : list (list Z)) :
  (forall t, t ∈ tokens -> 0 ∉ t) ->
  Forall (fun t => (length t <= 255)%nat) tokens ->
  collect_args tokens = Some (mk_args tokens).
Proof.
  induction tokens as [|t tokens IH]; intros Hnul Hlen; [reflexivity|].
  apply Forall_cons in Hlen as [Ht Hlen]. simpl.
  rewrite strlen_id by (apply Hnul; by left).
  destruct (Nat.ltb_spec 255 (length t)); [lia|].
  rewrite IH; [|intros t' Ht'; apply Hnul; by right|exact Hlen].
  unfold u8. rewrite Z.mod_small by lia. reflexivity.
Qed.

Lemma collect_args_too_long (tokens : list (list Z)) :
  (forall t, t ∈ tokens -> 0 ∉ t) ->
  Exists (fun t => (256 <= length t)%nat) tokens ->
  collect_args tokens = None.
Proof.
  induction tokens as [|t tokens IH]; intros Hnul Hex.
  { by apply Exists_nil in Hex. }
  simpl. rewrite strlen_id by (apply Hnul; by left).
  destruct (Nat.ltb_spec 255 (length t)) as [|Hle]; [reflexivity|].
  apply Exists_cons in Hex as [Hex|Hex]; [lia|].
  rewrite IH; [reflexivity|intros t' Ht'; apply Hnul; by right|exact Hex].
Qed.

(** C9.  On a [cmd] line with its driver, slot and command tokens: when no
    argument token is longer than 255 bytes (one of exactly 255 included) and
    the slot is a number, the line goes to [cmd_cmd] with all its arguments;
    when some argument token has 256 bytes or more, the shell prints
    ["Invalid command"] and the prompt and no client is touched. *)
Theorem argument_length_bound `{cfg : Config} (sh : shell_t)
    (drv slot drv_cmd : list Z) (rest : list (list Z)) :
  strtok_all (cstring (take (offset (input_buffer sh)) (data (input_buffer sh)))) []
  = CMD_CMD :: drv :: slot :: drv_cmd :: rest ->
  (Forall (fun t => (length t <= 255)%nat) rest ->
   hd 0 (snd (strtoul slot)) = 0 ->
   run_command_from_input sh
   = cmd_cmd sh drv (fst (strtoul slot)) drv_cmd (mk_args rest))
  /\ (Exists (fun t => (256 <= length t)%nat) rest ->
       rejected sh (run_command_from_input sh)).
Proof.
  intros Htok.
  assert (Hnul : forall t, t ∈ rest -> 0 ∉ t).
  { intros t Ht.
    eapply (strtok_all_no_nul _ []); [apply cstring_no_nul|apply not_elem_of_nil|].
    rewrite Htok. do 4 right. exact Ht. }
  unfold run_command_from_input. rewrite Htok.
  change (streq LIST_CMD CMD_CMD) with false.
  change (streq HELP_CMD CMD_CMD) with false.
  change (streq CMD_CMD CMD_CMD) with true.
  cbv iota. simpl negb. cbv iota.
  destruct (strtoul slot) as [slot_number slot_endptr]. simpl fst. simpl snd.
  split.
  - intros Hlen ->. simpl negb. cbv iota. by rewrite collect_args_ok.
  - intros Hex. destruct (hd 0 slot_endptr =? 0); simpl negb; cbv iota;
      [|apply cmd_invalid_rejected].
    rewrite collect_args_too_long by assumption. apply cmd_invalid_rejected.
Qed.

Lemma argument_length_bound_witness :
  run_command_from_input (cfg := drv_config) (at_line thermo_shell line_255)
  = cmd_cmd (cfg := drv_config) (at_line thermo_shell line_255)
      (bytes "thermo") 3 (bytes "set") (mk_args [repeat 120 255]).
Proof.
  refine (proj1 (@argument_length_bound drv_config (at_line thermo_shell line_255)
                   (bytes "thermo") (bytes "3") (bytes "set") [repeat 120 255] _) _ _).
  - vm_compute. reflexivity.
  - constructor; [vm_compute; lia|constructor].
  - reflexivity.
Defined.

Lemma strtok_all_spaces (m : nat) : strtok_all (repeat 32 m) [] = [].
Proof. induction m as [|m IH]; [reflexivity|exact IH]. Qed.

Lemma cstring_spaces (m : nat) : cstring (repeat 32 m) = repeat 32 m.
Proof. induction m as [|m IH]; [reflexivity|]. simpl. by rewrite IH. Qed.

Section InputFacts.
Context `{cfg : Config}.

Lemma on_input_data (sh : shell_t) (bs : list Z) :
  bs <> [] ->
  on_input sh (In_data bs)
  = Done (input_loop (length (data (input_buffer sh) ++ bs))
            (set_input_buffer sh {| data := data (input_buffer sh) ++ bs;
                                    offset := offset (input_buffer sh) |})).
Proof. destruct bs; [done|reflexivity]. Qed.

Lemma input_loop_unfold (fuel : nat) (sh : shell_t) :
  input_loop fuel sh
  = let '(found, sh1) := detect_newline_on_input sh in
    if found then
      match fuel with
      | O => sh1
      | S fuel' =>
          let sh2 := shift_input (run_command_from_input sh1) in
          input_loop fuel' (set_input_buffer sh2 (set_offset (input_buffer sh2) 0))
      end
    else sh1.
Proof. destruct fuel; reflexivity. Qed.

Lemma cmd_cmd_input_buffer (sh : shell_t) (drv : list Z) (slot : Z) (cmd : list Z)
    (args : list arg_from_input_t) :
  input_buffer (cmd_cmd sh drv slot cmd args) = input_buffer sh.
Proof.
  unfold cmd_cmd.
  destruct (clients sh !! _) as [l|]; [|reflexivity].
  destruct (scan_drivers _ _ _ _ l) as [i|]; [|reflexivity].
  destruct (l !! i) as [sd|]; [|reflexivity].
  destruct (find_command _ _ _) as [[cmd_idx cmd_arity]|]; [|reflexivity].
  destruct (cmd_arity <? _); reflexivity.
Qed.

(** Running a line leaves the input buffer to [shift_input]. *)
Lemma run_command_input_buffer (sh : shell_t) :
  input_buffer (run_command_from_input sh) = input_buffer sh.
Proof.
  unfold run_command_from_input.
  destruct (strtok_all _ _) as [|cmd toks]; [reflexivity|].
  destruct (streq LIST_CMD cmd); [reflexivity|].
  destruct (streq HELP_CMD cmd); [reflexivity|].
  destruct (streq CMD_CMD cmd); [|reflexivity]. simpl negb. cbv iota.
  destruct toks as [|drv [|slot [|drv_cmd rest]]]; try reflexivity.
  destruct (strtoul slot) as [slot_number slot_endptr].
  destruct (hd 0 slot_endptr =? 0); [|reflexivity]. simpl negb. cbv iota.
  destruct (collect_args rest); [|reflexivity].
  apply cmd_cmd_input_buffer.
Qed.

(** The bound on the rounds of the input loop is never what ends it: any
    amount of fuel from the size of the buffer on gives the same state. *)
Lemma input_loop_fuel (f1 f2 : nat) (sh : shell_t) :
  (user_size (input_buffer sh) <= f1)%nat ->
  (user_size (input_buffer sh) <= f2)%nat ->
  input_loop f1 sh = input_loop f2 sh.
Proof.
  revert f2 sh. induction f1 as [|f1 IH]; intros f2 sh H1 H2.
  - rewrite !input_loop_unfold. unfold detect_newline_on_input.
    destruct (Nat.eqb_spec (user_size (input_buffer sh)) 0) as [_|]; [|lia].
    reflexivity.
  - rewrite (input_loop_unfold (S f1)), (input_loop_unfold f2).
    unfold detect_newline_on_input.
    destruct (Nat.eqb_spec (user_size (input_buffer sh)) 0) as [|Hnz]; [reflexivity|].
    destruct (Nat.ltb_spec
                (scan_fwd (fun c => negb (c =? 10))
                   (drop (offset (input_buffer sh)) (data (input_buffer sh)))
                   (offset (input_buffer sh)))
                (user_size (input_buffer sh))) as [Hlt|_]; [|reflexivity].
    destruct f2 as [|f2]; [lia|]. cbv zeta.
    apply IH.
    + unfold shift_input. rewrite run_command_input_buffer. simpl.
      unfold user_size in *. simpl. rewrite length_drop. simpl in *. lia.
    + unfold shift_input. rewrite run_command_input_buffer. simpl.
      unfold user_size in *. simpl. rewrite length_drop. simpl in *. lia.
Qed.

End InputFacts.

(** C10.  A line without a token, that is, blanks only up to the newline, is
    answered by ["Invalid command"] and the prompt.  With [k] blanks already
    in the buffer, the arrival of [n] more blanks and the newline prints
    just that; the line is consumed, the clients and the reactor are left as
    they were.  Only the end of the input stops the reactor. *)
Theorem blank_line_invalid `{cfg : Config} (sh : shell_t) (k n : nat) :
  (take (offset (input_buffer sh)) (data (input_buffer sh)) = repeat 32 k ->
   run_command_from_input sh = cmd_invalid sh)
  /\ on_input (set_input_buffer sh {| data := repeat 32 k; offset := k |})
              (In_data (repeat 32 n ++ [10]))
     = Done (set_input_buffer (cmd_invalid sh) {| data := []; offset := 0 |})
  /\ output (cmd_invalid sh) = output sh ++ INVALID_MSG ++ PROMPT
  /\ clients (cmd_invalid sh) = clients sh
  /\ iosvc_stopped (cmd_invalid sh) = iosvc_stopped sh
  /\ on_input sh (In_data []) = Done (io_service_stop sh).
Proof.
  split.
  { intros Hline. unfold run_command_from_input.
    by rewrite Hline, cstring_spaces, strtok_all_spaces. }
  split; [|repeat split; simpl; by rewrite <- ?app_assoc].
  rewrite on_input_data by (destruct n; done).
  simpl input_buffer. simpl data. simpl offset.
  assert (Hlen : length (repeat 32 k ++ repeat 32 n ++ [10]) = S (k + n)).
  { rewrite !length_app, !repeat_length. simpl. lia. }
  rewrite Hlen. f_equal.
  rewrite input_loop_unfold. unfold detect_newline_on_input.
  simpl input_buffer. unfold user_size. simpl data. simpl offset. rewrite Hlen.
  change (S (k + n) =? 0)%nat with false. cbv iota.
  assert (Hdrop : drop k (repeat 32 k ++ repeat 32 n ++ [10]) = repeat 32 n ++ [10]).
  { rewrite <- (repeat_length 32 k) at 1. apply drop_app_length. }
  rewrite Hdrop.
  assert (Hscan : scan_fwd (fun c => negb (c =? 10)) (repeat 32 n ++ [10]) k
                  = (k + n)%nat).
  { rewrite scan_fwd_stop; [by rewrite repeat_length| |reflexivity].
    apply Forall_forall. intros x Hx. apply list_elem_of_In, repeat_spec in Hx.
    by subst. }
  rewrite Hscan.
  destruct (Nat.ltb_spec (k + n) (S (k + n))) as [_|]; [|lia].
  cbv zeta.
  unfold set_input_buffer, set_offset.
  cbn [input_buffer data offset clients running output iosvc_stopped].
  set (sh1 := {| clients := clients sh; running := running sh;
                 input_buffer := {| data := repeat 32 k ++ repeat 32 n ++ [10];
                                    offset := (k + n)%nat |};
                 output := output sh; iosvc_stopped := iosvc_stopped sh |}).
  assert (Hrun : run_command_from_input sh1 = cmd_invalid sh1).
  { unfold run_command_from_input. simpl input_buffer. simpl data. simpl offset.
    assert (Htake : take (k + n) (repeat 32 k ++ repeat 32 n ++ [10])
                    = repeat 32 (k + n)).
    { rewrite app_assoc, <- repeat_app.
      rewrite <- (repeat_length 32 (k + n)) at 1. apply take_app_length. }
    rewrite Htake, cstring_spaces, strtok_all_spaces. reflexivity. }
  rewrite Hrun. subst sh1.
  unfold shift_input, cmd_invalid, finish_cmd, fprintf, set_input_buffer, set_offset.
  simpl.
  assert (Hd : drop (k + n + 1) (repeat 32 k ++ repeat 32 n ++ [10]) = []).
  { apply drop_ge. rewrite Hlen. lia. }
  rewrite Hd, input_loop_unfold. reflexivity.
Qed.

Lemma blank_line_invalid_witness :
  run_command_from_input (cfg := drv_config) (at_line thermo_shell (repeat 32 2))
  = cmd_invalid (at_line thermo_shell (repeat 32 2)).
Proof.
  apply (@blank_line_invalid drv_config (at_line thermo_shell (repeat 32 2)) 2 0).
  reflexivity.
Defined.

(** ** Scenarios of the specification *)

(** Scenario 3: [cmd thermo 3 set 42] writes the frame with index 1, one
    argument of length 2, and prints nothing yet. *)
Example scenario_cmd_set :
  on_input (cfg := drv_config) thermo_shell (In_data (bytes "cmd thermo 3 set 42" ++ [10]))
  = Done (set_clients thermo_shell
            {[ thermo_hash :=
                 [unix_socket_client_send thermo_driver [0; 1; 0; 1; 2; 52; 50]] ]}).
Proof. vm_compute. reflexivity. Qed.

(** Scenario 4: one argument too many for [read]. *)
Example scenario_arity_exceeded :
  on_input (cfg := drv_config) thermo_shell
           (In_data (bytes "cmd thermo 3 read extra" ++ [10]))
  = Done (fprintf thermo_shell (INVALID_MSG ++ PROMPT)).
Proof. vm_compute. reflexivity. Qed.

(** Scenario 5: after the endpoint file is deleted the driver is unknown. *)
Example scenario_deleted :
  on_input (cfg := drv_config)
           (base_dir_smth_deleted (cfg := drv_config) thermo_shell (bytes "thermo.3.drv"))
           (In_data (bytes "cmd thermo 3 read" ++ [10]))
  = Done (fprintf (base_dir_smth_deleted (cfg := drv_config) thermo_shell
                     (bytes "thermo.3.drv"))
                  (INVALID_MSG ++ PROMPT)).
Proof. vm_compute. reflexivity. Qed.

(** * Further properties of the code *)

(** ** The grammar the parser accepts *)

Lemma scan_fwd_prefix (p : Z -> bool) (s : list Z) (i : nat) :
  Forall (fun x => p x = true) (take (scan_fwd p s i - i) s).
Proof.
  revert i. induction s as [|c s IH]; intros i; simpl.
  - by rewrite take_nil.
  - destruct (p c) eqn:Hc.
    + pose proof (scan_fwd_bounds p s (S i)).
      replace (scan_fwd p s (S i) - i)%nat with (S (scan_fwd p s (S i) - S i)) by lia.
      simpl. constructor; [exact Hc|apply IH].
    + rewrite Nat.sub_diag. constructor.
Qed.

Lemma scan_back_after (name : list Z) (back j : nat) :
  (scan_back name back < j <= back)%nat -> nth j name 0 <> 47.
Proof.
  induction back as [|b IH]; simpl; [lia|].
  destruct (Z.eqb_spec (nth (S b) name 0) 47) as [|Hne]; [lia|].
  intros Hj. destruct (decide (j = S b)) as [->|]; [exact Hne|apply IH; lia].
Qed.

Lemma drop_nth_cons (l : list Z) (i : nat) :
  (i < length l)%nat -> drop i l = nth i l 0 :: drop (S i) l.
Proof.
  intros Hi. destruct (lookup_lt_is_Some_2 l i Hi) as [x Hx].
  rewrite nth_lookup, Hx. simpl. by apply drop_S.
Qed.

Lemma digits_value_nonneg (s : list Z) (a : Z) : 0 <= a -> 0 <= fst (digits_value s a).
Proof.
  revert a. induction s as [|c s IH]; intros a Ha; simpl; [exact Ha|].
  destruct (isdigit c) eqn:Hc; [|exact Ha].
  apply IH. apply isdigit_range in Hc. lia.
Qed.

Lemma digits_value_stop (ds rest : list Z) (a : Z) :
  Forall (fun c => isdigit c = true) ds ->
  digits_value (ds ++ 46 :: rest) a = (fst (digits_value ds a), 46 :: rest).
Proof.
  intros Hd. revert a. induction Hd as [|d ds Hd _ IH]; intros a; simpl; [reflexivity|].
  by rewrite Hd, IH.
Qed.

(** [atoi] on a run of digits followed by a ['.']: the decimal value,
    saturated at [LONG_MAX], modulo 2^32. *)
Lemma atoi_digits_value (ds rest : list Z) :
  ds <> [] -> Forall (fun c => isdigit c = true) ds ->
  atoi (ds ++ 46 :: rest) = Z.min LONG_MAX (fst (digits_value ds 0)) mod UINT_MOD.
Proof.
  intros Hne Hdig. unfold atoi, strtol.
  destruct ds as [|d ds']; [done|].
  pose proof (Forall_inv Hdig) as Hd. apply isdigit_range in Hd.
  assert (Hsp : skip_spaces ((d :: ds') ++ 46 :: rest) = (d :: ds') ++ 46 :: rest).
  { simpl. unfold isspace.
    destruct (Z.eqb_spec d 32); [lia|].
    destruct (Z.leb_spec 9 d); destruct (Z.leb_spec d 13); simpl; try reflexivity; lia. }
  rewrite Hsp.
  assert (Hsign : match (d :: ds') ++ 46 :: rest with
                  | 45 :: r => (true, r)
                  | 43 :: r => (false, r)
                  | _ => (false, (d :: ds') ++ 46 :: rest)
                  end = (false, (d :: ds') ++ 46 :: rest)).
  { simpl app. destruct d as [|p|p]; try lia.
    do 6 (destruct p as [p|p|]; try lia; try reflexivity). }
  rewrite Hsign, digits_value_stop by exact Hdig. cbn [fst].
  pose proof (digits_value_nonneg (d :: ds') 0 ltac:(lia)).
  f_equal. unfold LONG_MIN, LONG_MAX in *. lia.
Qed.

Section GrammarFacts.
Context `{cfg : Config}.

(** X1.  Soundness of the parser: an accepted name is, from the offset the
    description gives, a non-empty name without ['.'], a ['.'], a non-empty
    run of digits, a ['.'] and the suffix; no ['/'] follows the first byte of
    the name; the slot is the value of the digits, saturated at [LONG_MAX],
    modulo 2^32. *)
Theorem parse_sound (name : list Z) (dd : driver_description_t) :
  0 ∉ SUFFIX ->
  parse_unix_socket_name_ name = Some dd ->
  exists ds,
    name = take (driver_name dd) name ++ name_slice name dd
           ++ ([46] ++ ds ++ [46] ++ SUFFIX)
    /\ length (name_slice name dd) = driver_name_len dd
    /\ name_slice name dd <> []
    /\ (46 ∉ name_slice name dd)
    /\ (47 ∉ drop (S (driver_name dd)) name)
    /\ ds <> [] /\ Forall (fun c => isdigit c = true) ds
    /\ slot_number dd = Z.min LONG_MAX (fst (digits_value ds 0)) mod UINT_MOD.
Proof.
  intros Hsuf. unfold parse_unix_socket_name_.
  destruct (length name) as [|back0] eqn:Hlen; [done|]. rewrite <- Hlen. cbv zeta.
  pose proof (scan_back_le name back0) as Hns.
  pose proof (scan_back_after name back0) as Hslash.
  set (ns := scan_back name back0) in *.
  pose proof (scan_fwd_bounds (fun c => negb (c =? 46)) (drop ns name) ns) as Hne.
  pose proof (scan_fwd_char (fun c => negb (c =? 46)) (drop ns name) ns) as Hch.
  pose proof (scan_fwd_prefix (fun c => negb (c =? 46)) (drop ns name) ns) as Hpre.
  set (ne := scan_fwd (fun c => negb (c =? 46)) (drop ns name) ns) in *.
  rewrite length_drop in Hne, Hch.
  destruct (Nat.eqb_spec ne ns) as [|Hne1]; [done|].
  destruct (Nat.eqb_spec ne (length name)) as [|Hne2]; [done|]. cbn [orb].
  pose proof (scan_fwd_bounds (fun c => negb (c =? 46) && isdigit c)
                (drop (S ne) name) (S ne)) as Hse.
  pose proof (scan_fwd_prefix (fun c => negb (c =? 46) && isdigit c)
                (drop (S ne) name) (S ne)) as Hdig.
  set (se := scan_fwd (fun c => negb (c =? 46) && isdigit c) (drop (S ne) name) (S ne)) in *.
  rewrite length_drop in Hse.
  destruct (Nat.eqb_spec se (S ne)) as [|Hse1]; [done|].
  destruct (Nat.eqb_spec se (length name)) as [|Hse2]; [done|]. cbn [orb].
  destruct (Z.eqb_spec (nth se name 0) 46) as [Hdot2|]; [|done]. cbn [negb].
  destruct (Nat.eqb_spec (length name - se) (SUFFIX_LEN + 1)) as [Hsl|]; [|done].
  cbn [negb].
  destruct (Z.eqb_spec (strncmp (drop (se + 1) name) SUFFIX SUFFIX_LEN) 0) as [Hcmp|];
    [|done]. cbn [negb].
  intros [= <-]. unfold name_slice. cbn [driver_name driver_name_len slot_number].
  specialize (Hch ltac:(lia)). rewrite nth_skipn in Hch.
  replace (ns + (ne - ns))%nat with ne in Hch by lia.
  assert (Hdot1 : nth ne name 0 = 46) by (destruct (Z.eqb_spec (nth ne name 0) 46); done).
  assert (Hs : drop (se + 1) name = SUFFIX).
  { apply strncmp_eq_full; [|exact Hsuf|exact Hcmp].
    rewrite length_drop. unfold SUFFIX_LEN in Hsl. lia. }
  assert (Hd1 : drop ne name = 46 :: drop (S ne) name).
  { rewrite <- Hdot1. apply drop_nth_cons. lia. }
  assert (Hd2 : drop se name = 46 :: SUFFIX).
  { rewrite <- Hdot2, <- Hs, Nat.add_1_r. apply drop_nth_cons. lia. }
  assert (Hd3 : drop (S ne) name = take (se - S ne) (drop (S ne) name) ++ 46 :: SUFFIX).
  { rewrite <- Hd2. rewrite <- (take_drop (se - S ne) (drop (S ne) name)) at 1.
    rewrite drop_drop. do 2 f_equal. lia. }
  exists (take (se - S ne) (drop (S ne) name)).
  split; [|split; [|split; [|split; [|split; [|split; [|split]]]]]].
  - rewrite <- (take_drop ns name) at 1. f_equal.
    rewrite <- (take_drop (ne - ns) (drop ns name)) at 1. f_equal.
    rewrite drop_drop. replace (ns + (ne - ns))%nat with ne by lia.
    rewrite Hd1. simpl. f_equal. exact Hd3.
  - rewrite length_take, length_drop. lia.
  - intros Hnil. apply (f_equal length) in Hnil.
    rewrite length_take, length_drop in Hnil. simpl in Hnil. lia.
  - intros Hin. rewrite Forall_forall in Hpre. apply Hpre in Hin. done.
  - intros Hin. apply list_elem_of_lookup_1 in Hin as [j Hj].
    pose proof (lookup_lt_Some _ _ _ Hj) as Hlt. rewrite length_drop in Hlt.
    rewrite lookup_drop in Hj.
    apply (Hslash (S ns + j)%nat); [lia|]. by rewrite nth_lookup, Hj.
  - intros Hnil. apply (f_equal length) in Hnil.
    rewrite length_take, length_drop in Hnil. simpl in Hnil. lia.
  - eapply Forall_impl; [exact Hdig|]. simpl. intros x Hx.
    by apply andb_true_iff in Hx as [_ Hx].
  - etransitivity; [exact (f_equal atoi Hd3)|]. apply atoi_digits_value.
    + intros Hnil. apply (f_equal length) in Hnil.
      rewrite length_take, length_drop in Hnil. simpl in Hnil. lia.
    + eapply Forall_impl; [exact Hdig|]. simpl. intros x Hx.
      by apply andb_true_iff in Hx as [_ Hx].
Qed.

End GrammarFacts.

Lemma parse_sound_witness :
  exists ds,
    bytes "thermo.3.drv"
    = take 0 (bytes "thermo.3.drv")
      ++ name_slice (bytes "thermo.3.drv")
           {| driver_name := 0; driver_name_len := 6; slot_number := 3 |}
      ++ ([46] ++ ds ++ [46] ++ bytes "drv")
    /\ ds <> [].
Proof.
  destruct (@parse_sound drv_config (bytes "thermo.3.drv")
              {| driver_name := 0; driver_name_len := 6; slot_number := 3 |})
    as (ds & H1 & _ & _ & _ & _ & H2 & _).
  - apply (bool_decide_unpack _). vm_compute. exact I.
  - reflexivity.
  - exists ds. split; [exact H1|exact H2].
Defined.

Lemma digits_value_zeros (k : nat) (s : list Z) :
  digits_value (repeat 48 k ++ s) 0 = digits_value s 0.
Proof. induction k as [|k IH]; [reflexivity|exact IH]. Qed.

Section GrammarComplete.
Context `{cfg : Config}.

Lemma parse_digits_description (name ds : list Z) :
  name <> [] -> 46 ∉ name -> 47 ∉ name -> 47 ∉ SUFFIX ->
  ds <> [] -> Forall (fun c => isdigit c = true) ds ->
  parse_unix_socket_name_ (name ++ [46] ++ ds ++ [46] ++ SUFFIX)
  = Some {| driver_name := 0; driver_name_len := length name;
            slot_number := Z.min LONG_MAX (fst (digits_value ds 0)) mod UINT_MOD |}.
Proof.
  intros Hne Hdot Hsl Hsuf Hdne Hdig.
  assert (Hn0 : (0 < length name)%nat) by (destruct name; [done|simpl; lia]).
  assert (Hd0 : (0 < length ds)%nat) by (destruct ds; [done|simpl; lia]).
  remember (name ++ [46] ++ ds ++ [46] ++ SUFFIX) as s eqn:Hs.
  assert (Hns : 47 ∉ s).
  { subst s. rewrite !not_elem_of_app. repeat split; try done.
    - apply not_elem_of_cons; split; [lia|apply not_elem_of_nil].
    - intros Hin. rewrite Forall_forall in Hdig. apply Hdig in Hin. done.
    - apply not_elem_of_cons; split; [lia|apply not_elem_of_nil]. }
  assert (Hlen : length s = (length name + 1 + length ds + 1 + length SUFFIX)%nat).
  { subst s. rewrite !length_app. simpl. lia. }
  assert (Hdrop0 : drop 0 s = name ++ 46 :: ds ++ 46 :: SUFFIX) by (by subst s).
  assert (Hdrop1 : drop (S (length name)) s = ds ++ 46 :: SUFFIX).
  { subst s. rewrite (app_assoc name [46]).
    replace (S (length name)) with (length (name ++ [46]))
      by (rewrite length_app; simpl; lia).
    apply drop_app_length. }
  assert (Hdrop2 : drop (length name + 1 + length ds + 1) s = SUFFIX).
  { subst s. rewrite (app_assoc name [46]), (app_assoc _ ds), (app_assoc _ [46]).
    replace (length name + 1 + length ds + 1)%nat
      with (length (((name ++ [46]) ++ ds) ++ [46])) by (rewrite !length_app; simpl; lia).
    apply drop_app_length. }
  assert (Hnth : nth (length name + 1 + length ds) s 0 = 46).
  { subst s. rewrite (app_assoc name [46]), (app_assoc _ ds).
    replace (length name + 1 + length ds)%nat with (length ((name ++ [46]) ++ ds))
      by (rewrite !length_app; simpl; lia).
    exact (nth_middle ((name ++ [46]) ++ ds) SUFFIX 46 0). }
  clear Hs. unfold parse_unix_socket_name_.
  destruct (length s) as [|back0] eqn:Hls; [lia|]. rewrite <- Hls. cbv zeta.
  rewrite (scan_back_no_slash _ back0 Hns), Hdrop0.
  rewrite (scan_fwd_stop _ name 46); [|by apply Forall_forall; intros x Hx;
    destruct (Z.eqb_spec x 46); [subst|]|reflexivity].
  cbn [Nat.add]. rewrite Hdrop1.
  rewrite (scan_fwd_stop _ ds 46); [| |reflexivity]; first last.
  { eapply Forall_impl; [exact Hdig|]. simpl. intros x Hx. rewrite Hx.
    apply isdigit_range in Hx. destruct (Z.eqb_spec x 46); [lia|reflexivity]. }
  replace (S (length name) + length ds)%nat with (length name + 1 + length ds)%nat by lia.
  rewrite Hnth, Hdrop2, strncmp_refl, atoi_digits_value by assumption.
  unfold SUFFIX_LEN. cbn [Nat.add].
  destruct (Nat.eqb_spec (length name) 0) as [|_]; [lia|].
  destruct (Nat.eqb_spec (length name) (length s)) as [|_]; [lia|].
  destruct (Nat.eqb_spec (length name + 1 + length ds) (S (length name))) as [|_]; [lia|].
  destruct (Nat.eqb_spec (length name + 1 + length ds) (length s)) as [|_]; [lia|].
  destruct (Nat.eqb_spec (length s - (length name + 1 + length ds))
                         (length SUFFIX + 1)) as [_|]; [|lia].
  cbn [orb negb Z.eqb]. do 2 f_equal. lia.
Qed.

End GrammarComplete.

(** X2.  Completeness of the parser on names without a directory part:
    every ["<name>.<digits>.<SUFFIX>"] with a non-empty name free of ['.']
    and ['/'] and a non-empty run of digits is accepted, with the name and
    with the value of the digits (saturated at [LONG_MAX]) modulo 2^32.  In
    particular zeros in front of a slot are ignored, so that several file
    names denote one identity. *)
Theorem parse_complete `{cfg : Config} (name ds : list Z) :
  name <> [] -> 46 ∉ name -> 47 ∉ name -> 47 ∉ SUFFIX ->
  ds <> [] -> Forall (fun c => isdigit c = true) ds ->
  parse (name ++ [46] ++ ds ++ [46] ++ SUFFIX)
  = Some (name, Z.min LONG_MAX (fst (digits_value ds 0)) mod UINT_MOD)
  /\ forall (k : nat) (slot : Z),
       0 <= slot < UINT_MOD -> ds = repeat 48 k ++ utoa slot ->
       parse (name ++ [46] ++ ds ++ [46] ++ SUFFIX) = Some (name, slot).
Proof.
  intros Hne Hdot Hsl Hsuf Hdne Hdig.
  assert (Hp : parse (name ++ [46] ++ ds ++ [46] ++ SUFFIX)
               = Some (name, Z.min LONG_MAX (fst (digits_value ds 0)) mod UINT_MOD)).
  { unfold parse. rewrite parse_digits_description by assumption.
    unfold name_slice. cbn [driver_name driver_name_len slot_number].
    by rewrite drop_0, take_app_length. }
  split; [exact Hp|]. intros k slot Hslot Hds. rewrite Hp. do 2 f_equal.
  destruct (utoa_spec slot Hslot) as (us & Hus & _ & _ & Hval).
  rewrite Hds, Hus, <- (app_nil_r us), digits_value_zeros, Hval. cbn [digits_value fst].
  unfold LONG_MAX, UINT_MOD in *. rewrite Z.min_r by lia. apply Z.mod_small. lia.
Qed.

Lemma parse_complete_witness :
  parse (cfg := drv_config) (bytes "thermo.003.drv") = Some (bytes "thermo", 3).
Proof.
  refine (proj2 (@parse_complete drv_config (bytes "thermo") (bytes "003") _ _ _ _ _ _)
                2%nat 3 _ _).
  - discriminate.
  - apply (bool_decide_unpack _). vm_compute. exact I.
  - apply (bool_decide_unpack _). vm_compute. exact I.
  - apply (bool_decide_unpack _). vm_compute. exact I.
  - discriminate.
  - repeat constructor.
  - unfold UINT_MOD. lia.
  - reflexivity.
Defined.

(** ** Creation and deletion of records *)

Lemma strncmp_prefix (a b : list Z) :
  0 ∉ a -> (strncmp a b (length a) = 0 <-> take (length a) b = a).
Proof.
  revert b. induction a as [|x a IH]; intros b Ha.
  { simpl. by rewrite take_0. }
  apply not_elem_of_cons in Ha as [Hx Ha]. cbn [length strncmp hd tl].
  destruct b as [|y b]; cbn [hd tl].
  - destruct (Z.eqb_spec x 0); [congruence|]. simpl. split; [lia|done].
  - destruct (Z.eqb_spec x y) as [->|Hxy].
    + destruct (Z.eqb_spec y 0); [congruence|]. rewrite IH by exact Ha.
      simpl. split; [by intros ->|congruence].
    + simpl. split; [lia|congruence].
Qed.

Section DeletionFacts.
Context `{cfg : Config}.

(** The hash key of a parsed name is that of its name slice. *)
Lemma DRIVER_SLOT_ID_slice (s : list Z) (len : nat) (slot : Z) :
  Z.of_nat len < 2 ^ 31 -> (len <= length s)%nat ->
  DRIVER_SLOT_ID s len slot
  = DRIVER_SLOT_ID (take len s) (length (take len s)) slot.
Proof.
  intros Hb Hl. rewrite length_take_le by exact Hl.
  unfold DRIVER_SLOT_ID, printf_prec_s, to_int, UINT_MOD.
  rewrite Z.mod_small by lia.
  destruct (Z.ltb_spec (Z.of_nat len) (2 ^ 31)); [|lia].
  destruct (Z.ltb_spec (Z.of_nat len) 0); [lia|].
  by rewrite Nat2Z.id, take_idemp.
Qed.

Lemma deleted_scan_none (key : list Z) (key_len : nat) (slot : Z)
    (l : list shell_driver_t) :
  (forall sd, sd ∈ l -> sd_name_len sd = length (sd_name sd) /\ 0 ∉ sd_name sd) ->
  (forall sd, sd ∈ l -> ~ (sd_name sd = take key_len key /\ sd_slot sd = slot)) ->
  scan_drivers sd_name_len key key_len slot l = None.
Proof.
  induction l as [|x l IH]; intros Hinv Hno; [reflexivity|]. cbn [scan_drivers].
  rewrite IH; [|intros sd Hsd; apply Hinv; by right|intros sd Hsd; apply Hno; by right].
  destruct (Nat.eqb_spec (sd_name_len x) key_len) as [Hlen|]; [|reflexivity].
  cbn [negb]. destruct (Hinv x ltac:(by left)) as [Hl Hnul].
  destruct (Z.eqb_spec (strncmp (sd_name x) key (sd_name_len x)) 0) as [Hcmp|];
    [|reflexivity].
  destruct (Z.eqb_spec (sd_slot x) slot) as [Hslot|]; [|reflexivity].
  exfalso. apply (Hno x); [by left|]. split; [|exact Hslot].
  rewrite Hl in Hcmp. apply strncmp_prefix in Hcmp; [|exact Hnul].
  by rewrite <- Hlen, Hl.
Qed.

Lemma deleted_scan_first (key : list Z) (key_len : nat) (slot : Z)
    (l : list shell_driver_t) (i : nat) (sd : shell_driver_t) :
  (key_len <= length key)%nat ->
  (forall sd, sd ∈ l -> sd_name_len sd = length (sd_name sd) /\ 0 ∉ sd_name sd) ->
  first_driver l (take key_len key) slot i sd ->
  scan_drivers sd_name_len key key_len slot l = Some i.
Proof.
  intros Hk. revert i. induction l as [|x l IH]; intros i Hinv (Hi & Hn & Hs & Hfirst);
    [done|].
  destruct (Hinv x ltac:(by left)) as [Hl Hnul]. cbn [scan_drivers].
  destruct i as [|i]; simpl in Hi.
  - injection Hi as ->.
    assert (Hlen : sd_name_len sd = key_len).
    { rewrite Hl, Hn. by apply length_take_le. }
    rewrite Hlen, Nat.eqb_refl. cbn [negb].
    assert (Hcmp : strncmp (sd_name sd) key key_len = 0).
    { rewrite <- Hlen, Hl. apply strncmp_prefix; [exact Hnul|].
      by rewrite <- Hl, Hlen. }
    by rewrite Hcmp, Hs, !Z.eqb_refl.
  - rewrite (IH i); first last.
    { repeat split; try done. intros j sd' Hj Hl'. apply (Hfirst (S j) sd'); [lia|done]. }
    { intros sd' Hsd'. apply Hinv. by right. }
    destruct (Nat.eqb_spec (sd_name_len x) key_len) as [Hlen|]; [|reflexivity].
    cbn [negb].
    destruct (Z.eqb_spec (strncmp (sd_name x) key (sd_name_len x)) 0) as [Hcmp|];
      [|reflexivity].
    destruct (Z.eqb_spec (sd_slot x) slot) as [Hslot|]; [|reflexivity].
    exfalso. apply (Hfirst O x); [lia|done|]. split; [|exact Hslot].
    rewrite Hl in Hcmp. apply strncmp_prefix in Hcmp; [|exact Hnul].
    by rewrite <- Hlen, Hl.
Qed.

Lemma deleted_unregistered (sh : shell_t) (name : list Z) (dd : driver_description_t) :
  nul_free_names (clients sh) ->
  parse_unix_socket_name_ name = Some dd ->
  ~ registered (clients sh) (name_slice name dd) (slot_number dd) ->
  base_dir_smth_deleted sh name = sh.
Proof.
  intros Hinv Hp Hno. unfold base_dir_smth_deleted. rewrite Hp. cbv zeta.
  destruct (clients sh !! _) as [l|] eqn:Hl; [|reflexivity].
  rewrite deleted_scan_none; [reflexivity| |].
  - intros sd Hsd. exact (Hinv _ _ _ Hl Hsd).
  - intros sd Hsd [Hn Hs]. apply Hno. eexists _, l, sd. eauto.
Qed.

Lemma deleted_resolved (sh : shell_t) (name : list Z) (dd : driver_description_t)
    (h : Z) (l : list shell_driver_t) (i : nat) (sd : shell_driver_t) :
  nul_free_names (clients sh) -> Z.of_nat (length name) < 2 ^ 31 ->
  parse_unix_socket_name_ name = Some dd ->
  resolves (clients sh) (name_slice name dd) (slot_number dd) h l i sd ->
  base_dir_smth_deleted sh name = set_clients sh (<[h := delete i l]> (clients sh)).
Proof.
  intros Hinv Hlen Hp (Hh & Hl & Hfirst).
  destruct (parse_name_shape name dd Hp) as (Hpos & Hin & _).
  unfold base_dir_smth_deleted. rewrite Hp. cbv zeta.
  unfold name_slice in *.
  rewrite DRIVER_SLOT_ID_slice, <- Hh, Hl by (rewrite ?length_drop; lia).
  rewrite (deleted_scan_first _ _ _ l i sd); [reflexivity| | |exact Hfirst].
  - rewrite length_drop. lia.
  - intros sd' Hsd'. exact (Hinv _ _ _ Hl Hsd').
Qed.

Lemma created_done (sh sh' : shell_t) (name : list Z) (env : created_env) :
  base_dir_smth_created sh name env = Done sh' ->
  sh' = sh
  \/ exists dd sd,
       is_socket env = true /\ init_ok env = true
       /\ parse_unix_socket_name_ name = Some dd
       /\ sd_name sd = name_slice name dd /\ sd_name_len sd = driver_name_len dd
       /\ sd_slot sd = slot_number dd /\ sd_commands sd = fresh_commands env
       /\ calls (sd_usc sd) = [Usc_init; Usc_connect name]
       /\ sh' = set_clients sh
                  (<[hash_pearson (DRIVER_SLOT_ID (drop (driver_name dd) name)
                                     (driver_name_len dd) (slot_number dd))
                     := default [] (clients sh
                                      !! hash_pearson
                                           (DRIVER_SLOT_ID (drop (driver_name dd) name)
                                              (driver_name_len dd) (slot_number dd)))
                        ++ [sd]]> (clients sh)).
Proof.
  unfold base_dir_smth_created.
  destruct (is_socket env); [|intros [= <-]; by left]. cbn [negb].
  destruct (parse_unix_socket_name_ name) as [dd|] eqn:Hp; [|intros [= <-]; by left].
  cbv zeta. destruct (scan_drivers _ _ _ _ _); [done|].
  destruct (init_ok env); [|done]. cbn [negb]. intros [= <-]. right.
  exists dd,
    {| sd_usc := usc_call_ (usc_call_ new_usc Usc_init) (Usc_connect name);
       sd_name := take (driver_name_len dd) (drop (driver_name dd) name);
       sd_name_len := driver_name_len dd; sd_slot := slot_number dd;
       sd_commands := fresh_commands env |}.
  repeat split.
Qed.

End DeletionFacts.

(** X3.  A [CREATED] event that returns never removes a record and never
    prints; it leaves the shell untouched when the entry is no socket or its
    name does not parse; otherwise the identity parsed from the name is
    registered afterwards. *)
Theorem created_adds `{cfg : Config} (sh sh' : shell_t) (name : list Z)
    (env : created_env) :
  base_dir_smth_created sh name env = Done sh' ->
  (forall drv slot, registered (clients sh) drv slot -> registered (clients sh') drv slot)
  /\ output sh' = output sh
  /\ (is_socket env = false \/ parse name = None -> sh' = sh)
  /\ (is_socket env = true ->
      forall drv slot, parse name = Some (drv, slot) -> registered (clients sh') drv slot).
Proof.
  intros Hc. split; [|split; [|split]].
  - intros drv slot (h & l & sd & Hl & Hin & Hid).
    destruct (created_done _ _ _ _ Hc) as [->|(dd & sd0 & _ & _ & _ & _ & _ & _ & _ & _ & ->)].
    { by exists h, l, sd. }
    cbn [clients set_clients].
    destruct (decide (hash_pearson (DRIVER_SLOT_ID (drop (driver_name dd) name)
                                      (driver_name_len dd) (slot_number dd)) = h))
      as [Heq|Hne].
    + rewrite Heq, Hl. cbn [default]. exists h, (l ++ [sd0]), sd.
      rewrite lookup_insert_eq. split; [done|]. split; [|done].
      apply elem_of_app. by left.
    + exists h, l, sd. by rewrite lookup_insert_ne.
  - by destruct (created_done _ _ _ _ Hc) as [->|(dd & sd0 & _ & _ & _ & _ & _ & _ & _ & _ & ->)].
  - unfold base_dir_smth_created, parse in *. intros [Hs|Hp].
    + rewrite Hs in Hc. by injection Hc.
    + destruct (is_socket env); [|by injection Hc]. cbn [negb] in Hc.
      destruct (parse_unix_socket_name_ name); [done|]. by injection Hc.
  - intros Hs drv slot Hp. unfold parse in Hp.
    destruct (created_done _ _ _ _ Hc)
      as [->|(dd & sd0 & _ & _ & Hdd & Hn & _ & Hsl & _ & _ & ->)].
    + unfold base_dir_smth_created in Hc. rewrite Hs in Hc. cbn [negb] in Hc.
      destruct (parse_unix_socket_name_ name) as [dd|] eqn:Hdd; [|done]. cbv zeta in Hc.
      destruct (scan_drivers _ _ _ _ _); [done|].
      destruct (init_ok env); [|done]. cbn [negb] in Hc. injection Hc as Hc.
      apply (f_equal clients) in Hc. cbn [clients set_clients] in Hc.
      injection Hp as <- <-.
      eexists _, _, _. rewrite <- Hc, lookup_insert_eq. split; [reflexivity|].
      split; [apply elem_of_app; right; by apply list_elem_of_singleton|].
      split; reflexivity.
    + rewrite Hdd in Hp. injection Hp as <- <-. cbn [clients set_clients].
      eexists _, _, sd0. rewrite lookup_insert_eq. split; [reflexivity|].
      split; [apply elem_of_app; right; by apply list_elem_of_singleton|done].
Qed.

Lemma thermo_registered : registered (clients thermo_shell) (bytes "thermo") 3.
Proof.
  exists thermo_hash, [thermo_driver], thermo_driver.
  split; [apply lookup_singleton_eq|]. split; [by left|]. split; reflexivity.
Qed.

Lemma created_adds_witness :
  exists sh',
    base_dir_smth_created (cfg := drv_config) thermo_shell (bytes "boiler.7.drv") env_ok
    = Done sh'
    /\ registered (clients sh') (bytes "thermo") 3
    /\ registered (clients sh') (bytes "boiler") 7.
Proof.
  destruct (base_dir_smth_created (cfg := drv_config) thermo_shell (bytes "boiler.7.drv")
              env_ok) as [sh'|] eqn:Hc; [|vm_compute in Hc; discriminate].
  exists sh'. split; [reflexivity|].
  destruct (@created_adds drv_config thermo_shell sh' (bytes "boiler.7.drv") env_ok Hc)
    as (Hkeep & _ & _ & Hnew).
  split; [apply Hkeep, thermo_registered|]. apply Hnew; reflexivity.
Defined.

Lemma parse_description `{cfg : Config} (name drv : list Z) (slot : Z) :
  parse name = Some (drv, slot) ->
  exists dd, parse_unix_socket_name_ name = Some dd
             /\ name_slice name dd = drv /\ slot_number dd = slot.
Proof.
  unfold parse. destruct (parse_unix_socket_name_ name) as [dd|]; [|done].
  intros [= <- <-]. by exists dd.
Qed.

(** X4.  A [DELETED] event for an endpoint without a record, or with a name
    that does not parse, changes nothing. *)
Theorem deleted_unknown `{cfg : Config} (sh : shell_t) (name : list Z) :
  nul_free_names (clients sh) ->
  (forall drv slot, parse name = Some (drv, slot) -> ~ registered (clients sh) drv slot) ->
  base_dir_smth_deleted sh name = sh.
Proof.
  intros Hinv Hno. destruct (parse_unix_socket_name_ name) as [dd|] eqn:Hp.
  - apply (deleted_unregistered sh name dd Hinv Hp).
    apply Hno. unfold parse. by rewrite Hp.
  - unfold base_dir_smth_deleted. by rewrite Hp.
Qed.

Lemma thermo_shell_nul_free : nul_free_names (clients thermo_shell).
Proof.
  intros h l sd Hl Hsd. simpl in Hl.
  apply lookup_singleton_Some in Hl as [<- <-].
  apply list_elem_of_singleton in Hsd as ->. split; [reflexivity|].
  apply (bool_decide_unpack _). vm_compute. exact I.
Qed.

Lemma not_registered_boiler : ~ registered (clients thermo_shell) (bytes "boiler") 7.
Proof.
  intros (h & l & sd & Hl & Hsd & Hn & _). simpl in Hl.
  apply lookup_singleton_Some in Hl as [<- <-].
  apply list_elem_of_singleton in Hsd as ->. discriminate Hn.
Qed.

Lemma deleted_unknown_witness :
  base_dir_smth_deleted (cfg := drv_config) thermo_shell (bytes "boiler.7.drv")
  = thermo_shell.
Proof.
  apply (@deleted_unknown drv_config thermo_shell (bytes "boiler.7.drv")).
  - exact thermo_shell_nul_free.
  - intros drv slot Hp. vm_compute in Hp. injection Hp as <- <-.
    exact not_registered_boiler.
Defined.

(** X5.  A [DELETED] event for a registered endpoint removes exactly the
    record a [cmd] line would be resolved to, the first one with that
    identity in the bucket of its hash; every other record stays where it
    is. *)
Theorem deleted_removes_first `{cfg : Config} (sh : shell_t) (name drv : list Z)
    (slot h : Z) (l : list shell_driver_t) (i : nat) (sd : shell_driver_t) :
  nul_free_names (clients sh) -> Z.of_nat (length name) < 2 ^ 31 ->
  parse name = Some (drv, slot) ->
  resolves (clients sh) drv slot h l i sd ->
  base_dir_smth_deleted sh name = set_clients sh (<[h := delete i l]> (clients sh)).
Proof.
  intros Hinv Hlen Hp Hres.
  destruct (parse_description name drv slot Hp) as (dd & Hdd & <- & <-).
  by apply (deleted_resolved sh name dd h l i sd).
Qed.

Lemma deleted_removes_first_witness :
  base_dir_smth_deleted (cfg := drv_config) thermo_shell (bytes "thermo.3.drv")
  = set_clients thermo_shell (<[thermo_hash := []]> (clients thermo_shell)).
Proof.
  apply (@deleted_removes_first drv_config thermo_shell (bytes "thermo.3.drv")
           (bytes "thermo") 3 thermo_hash [thermo_driver] O thermo_driver).
  - exact thermo_shell_nul_free.
  - simpl. lia.
  - reflexivity.
  - split; [reflexivity|]. split; [apply lookup_singleton_eq|].
    repeat split. intros j ? Hj. lia.
Defined.

(** X6.  Creation undone by deletion: when the identity of an endpoint has
    no record, a [CREATED] event followed by the [DELETED] event of the same
    file leaves every bucket with the records it had. *)
Theorem created_then_deleted `{cfg : Config} (sh sh1 : shell_t) (name : list Z)
    (env : created_env) :
  nul_free_names (clients sh) -> 0 ∉ name -> Z.of_nat (length name) < 2 ^ 31 ->
  (forall drv slot, parse name = Some (drv, slot) -> ~ registered (clients sh) drv slot) ->
  base_dir_smth_created sh name env = Done sh1 ->
  forall h, default [] (clients (base_dir_smth_deleted sh1 name) !! h)
            = default [] (clients sh !! h).
Proof.
  intros Hinv Hnul Hlen Hno Hc h.
  pose proof (created_nul_free sh sh1 name env Hinv Hnul Hc) as Hinv1.
  destruct (created_done _ _ _ _ Hc)
    as [->|(dd & sd & _ & _ & Hdd & Hn & Hnl & Hs & _ & _ & Heq)].
  { replace (base_dir_smth_deleted sh name) with sh; [done|]. symmetry.
    destruct (parse_unix_socket_name_ name) as [dd|] eqn:Hp.
    - apply (deleted_unregistered sh name dd Hinv Hp).
      apply Hno. unfold parse. by rewrite Hp.
    - unfold base_dir_smth_deleted. by rewrite Hp. }
  destruct (parse_name_shape name dd Hdd) as (Hpos & Hin & _).
  set (h0 := hash_pearson (DRIVER_SLOT_ID (drop (driver_name dd) name)
                             (driver_name_len dd) (slot_number dd))) in *.
  set (l := default [] (clients sh !! h0)) in *.
  assert (Hl : forall sd', sd' ∈ l ->
             ~ (sd_name sd' = name_slice name dd /\ sd_slot sd' = slot_number dd)).
  { intros sd' Hsd' Hid. apply (Hno (name_slice name dd) (slot_number dd)).
    - unfold parse. by rewrite Hdd.
    - subst l. destruct (clients sh !! h0) as [l0|] eqn:Hl0; simpl in Hsd';
        [|by apply elem_of_nil in Hsd']. by exists h0, l0, sd'. }
  rewrite (deleted_resolved sh1 name dd h0 (l ++ [sd]) (length l) sd Hinv1 Hlen Hdd).
  - rewrite Heq. cbn [clients set_clients].
    destruct (decide (h0 = h)) as [<-|Hne].
    + rewrite lookup_insert_eq. cbn [default].
      by rewrite (delete_middle l [] sd), app_nil_r.
    + by rewrite !lookup_insert_ne.
  - split; [|split].
    + subst h0. unfold name_slice. apply f_equal, DRIVER_SLOT_ID_slice;
        [lia|rewrite length_drop; lia].
    + rewrite Heq. cbn [clients set_clients]. apply lookup_insert_eq.
    + split; [by apply list_lookup_middle|]. split; [exact Hn|]. split; [exact Hs|].
      intros j sd' Hj Hlk. rewrite lookup_app_l in Hlk by exact Hj.
      apply Hl. by eapply list_elem_of_lookup_2.
Qed.

Lemma created_then_deleted_witness :
  default [] (clients (base_dir_smth_deleted (cfg := drv_config)
                         (set_clients thermo_shell
                            (<[hash_pearson (Config := drv_config) (bytes "boiler7") :=
                                 [ {| sd_usc := usc_call_ (usc_call_ new_usc Usc_init)
                                                  (Usc_connect (bytes "boiler.7.drv"));
                                      sd_name := bytes "boiler"; sd_name_len := 6;
                                      sd_slot := 7; sd_commands := [] |} ]]>
                               (clients thermo_shell)))
                         (bytes "boiler.7.drv")) !! thermo_hash)
  = default [] (clients thermo_shell !! thermo_hash).
Proof.
  apply (@created_then_deleted drv_config thermo_shell _ (bytes "boiler.7.drv") env_ok).
  - exact thermo_shell_nul_free.
  - apply (bool_decide_unpack _). vm_compute. exact I.
  - simpl. lia.
  - intros drv slot Hp. vm_compute in Hp. injection Hp as <- <-.
    exact not_registered_boiler.
  - reflexivity.
Defined.

(** ** The input channel, line by line *)

Lemma scan_fwd_all (p : Z -> bool) (s : list Z) (i : nat) :
  Forall (fun x => p x = true) s -> scan_fwd p s i = (i + length s)%nat.
Proof.
  intros H. revert i. induction H as [|x s Hx _ IH]; intros i; simpl; [lia|].
  rewrite Hx, IH. lia.
Qed.

Lemma no_newline_forall (s : list Z) :
  10 ∉ s -> Forall (fun x => negb (x =? 10) = true) s.
Proof.
  intros H. apply Forall_forall. intros x Hx.
  destruct (Z.eqb_spec x 10); [by subst|reflexivity].
Qed.

Lemma first_newline (bs : list Z) :
  10 ∉ bs \/ exists l1 bs2, bs = l1 ++ 10 :: bs2 /\ 10 ∉ l1.
Proof.
  induction bs as [|c bs IH]; [left; apply not_elem_of_nil|].
  destruct (decide (c = 10)) as [->|Hc].
  - right. exists [], bs. split; [reflexivity|apply not_elem_of_nil].
  - destruct IH as [IH|(l1 & bs2 & -> & Hl1)].
    + left. by apply not_elem_of_cons.
    + right. exists (c :: l1), bs2. split; [reflexivity|by apply not_elem_of_cons].
Qed.

Lemma split_lines_none (cur bs : list Z) :
  10 ∉ bs -> split_lines cur bs = ([], cur ++ bs).
Proof.
  revert cur. induction bs as [|c bs IH]; intros cur H; simpl.
  - by rewrite app_nil_r.
  - apply not_elem_of_cons in H as [Hc H].
    destruct (Z.eqb_spec c 10); [done|]. by rewrite IH, <- app_assoc.
Qed.

Lemma split_lines_newline (cur l1 bs2 : list Z) :
  10 ∉ l1 ->
  split_lines cur (l1 ++ 10 :: bs2)
  = (let '(ls, r) := split_lines [] bs2 in ((cur ++ l1) :: ls, r)).
Proof.
  revert cur. induction l1 as [|c l1 IH]; intros cur H; simpl.
  - by rewrite app_nil_r.
  - apply not_elem_of_cons in H as [Hc H].
    destruct (Z.eqb_spec c 10); [done|]. by rewrite IH, <- app_assoc.
Qed.

Lemma split_lines_rest (cur bs : list Z) :
  10 ∉ cur -> 10 ∉ snd (split_lines cur bs).
Proof.
  revert cur. induction bs as [|c bs IH]; intros cur H; simpl; [exact H|].
  destruct (Z.eqb_spec c 10) as [|Hc].
  - specialize (IH [] (not_elem_of_nil 10)). by destruct (split_lines [] bs).
  - apply IH. rewrite not_elem_of_app. split; [exact H|].
    apply not_elem_of_cons. split; [congruence|apply not_elem_of_nil].
Qed.

Lemma split_lines_app (cur bs1 bs2 : list Z) :
  split_lines cur (bs1 ++ bs2)
  = (let '(ls1, r1) := split_lines cur bs1 in
     let '(ls2, r2) := split_lines r1 bs2 in (ls1 ++ ls2, r2)).
Proof.
  revert cur. induction bs1 as [|c bs1 IH]; intros cur; simpl.
  - by destruct (split_lines cur bs2).
  - destruct (c =? 10).
    + rewrite IH. destruct (split_lines [] bs1) as [ls1 r1].
      by destruct (split_lines r1 bs2).
    + apply IH.
Qed.

Section LineFacts.
Context `{cfg : Config}.

Lemma cmd_cmd_set_buffer (sh : shell_t) (b : buffer_t) (drv : list Z) (slot : Z)
    (cmd : list Z) (args : list arg_from_input_t) :
  cmd_cmd (set_input_buffer sh b) drv slot cmd args
  = set_input_buffer (cmd_cmd sh drv slot cmd args) b.
Proof.
  unfold cmd_cmd. cbn [clients set_input_buffer].
  destruct (clients sh !! _) as [l|]; [|reflexivity].
  destruct (scan_drivers _ _ _ _ l) as [i|]; [|reflexivity].
  destruct (l !! i) as [sd|]; [|reflexivity].
  destruct (find_command _ _ _) as [[cmd_idx cmd_arity]|]; [|reflexivity].
  destruct (cmd_arity <? _); reflexivity.
Qed.

(** What a line does depends on the buffer through the line only. *)
Lemma run_command_line (sh : shell_t) (b b' : buffer_t) :
  take (offset b) (data b) = take (offset b') (data b') ->
  run_command_from_input (set_input_buffer sh b)
  = set_input_buffer (run_command_from_input (set_input_buffer sh b')) b.
Proof.
  intros Heq. unfold run_command_from_input. cbn [input_buffer set_input_buffer].
  rewrite Heq.
  destruct (strtok_all _ _) as [|cmd toks]; [reflexivity|].
  destruct (streq LIST_CMD cmd); [reflexivity|].
  destruct (streq HELP_CMD cmd); [reflexivity|].
  destruct (streq CMD_CMD cmd); [|reflexivity]. cbn [negb].
  destruct toks as [|drv [|slot [|drv_cmd rest]]]; try reflexivity.
  destruct (strtoul slot) as [slot_number slot_endptr].
  destruct (hd 0 slot_endptr =? 0); [|reflexivity]. cbn [negb].
  destruct (collect_args rest) as [args|]; [|reflexivity].
  change (set_input_buffer sh b) with (set_input_buffer (set_input_buffer sh b') b).
  apply cmd_cmd_set_buffer.
Qed.

Lemma foldl_run_line_buffer (ls : list (list Z)) (sh : shell_t) (b b' : buffer_t) :
  set_input_buffer (foldl run_line (set_input_buffer sh b) ls) b'
  = set_input_buffer (foldl run_line sh ls) b'.
Proof. destruct ls as [|l ls]; reflexivity. Qed.

Lemma detect_newline_set (sh : shell_t) (b : buffer_t) :
  detect_newline_on_input (set_input_buffer sh b)
  = if (length (data b) =? 0)%nat then (false, set_input_buffer sh b)
    else ((scan_fwd (fun c => negb (c =? 10)%Z) (drop (offset b) (data b)) (offset b)
           <? length (data b))%nat,
          set_input_buffer sh
            {| data := data b;
               offset := scan_fwd (fun c => negb (c =? 10))
                                  (drop (offset b) (data b)) (offset b) |}).
Proof. reflexivity. Qed.

Lemma input_round_set (sh : shell_t) (b : buffer_t) :
  (let sh2 := shift_input (set_input_buffer sh b) in
   set_input_buffer sh2 (set_offset (input_buffer sh2) 0))
  = set_input_buffer sh {| data := drop (offset b + 1) (data b); offset := 0 |}.
Proof. reflexivity. Qed.

Lemma input_loop_lines (n : nat) :
  forall (bs : list Z) (sh : shell_t) (r : list Z) (o fuel : nat),
    (length bs <= n)%nat -> 10 ∉ r -> (o <= length r)%nat ->
    (length (r ++ bs) <= fuel)%nat -> (r ++ bs = [] -> o = O) ->
    input_loop fuel (set_input_buffer sh {| data := r ++ bs; offset := o |})
    = (let '(ls, rem) := split_lines r bs in
       set_input_buffer (foldl run_line sh ls) {| data := rem; offset := length rem |}).
Proof.
  induction n as [|n IH]; intros bs sh r o fuel Hn Hr Ho Hfuel Hnil.
  - destruct bs; [|simpl in Hn; lia]. rewrite app_nil_r in *. simpl split_lines.
    rewrite input_loop_unfold, detect_newline_set. cbn [data offset].
    destruct (Nat.eqb_spec (length r) 0) as [Hz|Hz].
    + destruct r; [|simpl in Hz; lia]. by rewrite Hnil.
    + rewrite scan_fwd_all; first last.
      { apply no_newline_forall. intros Hin. apply Hr.
        by eapply elem_of_sublist; [|apply sublist_drop]. }
      rewrite length_drop. replace (o + (length r - o))%nat with (length r) by lia.
      rewrite Nat.ltb_irrefl. reflexivity.
  - destruct (first_newline bs) as [Hno|(l1 & bs2 & -> & Hl1)].
    + rewrite split_lines_none by exact Hno.
      rewrite input_loop_unfold, detect_newline_set. cbn [data offset].
      destruct (Nat.eqb_spec (length (r ++ bs)) 0) as [Hz|Hz].
      * destruct (r ++ bs) eqn:Hrb; [|simpl in Hz; lia]. by rewrite Hnil.
      * rewrite scan_fwd_all; first last.
        { apply no_newline_forall. intros Hin.
          assert (H10 : 10 ∈ r ++ bs)
            by (eapply elem_of_sublist; [exact Hin|apply sublist_drop]).
          apply elem_of_app in H10 as [?|?]; done. }
        rewrite length_drop.
        replace (o + (length (r ++ bs) - o))%nat with (length (r ++ bs))
          by (rewrite length_app in *; lia).
        rewrite Nat.ltb_irrefl. reflexivity.
    + rewrite split_lines_newline by exact Hl1.
      rewrite input_loop_unfold, detect_newline_set. cbn [data offset].
      assert (Hlen : length (r ++ l1 ++ 10 :: bs2)
                     = (length (r ++ l1) + 1 + length bs2)%nat).
      { rewrite !length_app. simpl. lia. }
      destruct (Nat.eqb_spec (length (r ++ l1 ++ 10 :: bs2)) 0) as [|_]; [lia|].
      assert (Hscan : scan_fwd (fun c => negb (c =? 10)) (drop o (r ++ l1 ++ 10 :: bs2)) o
                      = length (r ++ l1)).
      { rewrite app_assoc, drop_app_le by (rewrite length_app; lia).
        rewrite scan_fwd_stop; [rewrite length_drop; rewrite length_app in *; lia| |done].
        apply no_newline_forall. intros Hin.
        assert (H10 : 10 ∈ r ++ l1)
          by (eapply elem_of_sublist; [exact Hin|apply sublist_drop]).
        apply elem_of_app in H10 as [?|?]; done. }
      rewrite Hscan.
      destruct (Nat.ltb_spec (length (r ++ l1)) (length (r ++ l1 ++ 10 :: bs2))) as [_|];
        [|lia].
      destruct fuel as [|fuel]; [lia|].
      rewrite (run_command_line sh _ {| data := (r ++ l1) ++ [10];
                                        offset := length (r ++ l1) |}); first last.
      { cbn [data offset]. by rewrite (app_assoc r l1), !take_app_length. }
      rewrite input_round_set. cbn [data offset].
      assert (Hd : drop (length (r ++ l1) + 1) (r ++ l1 ++ 10 :: bs2) = bs2).
      { rewrite (app_assoc r l1), (cons_middle 10), (app_assoc _ [10]).
        replace (length (r ++ l1) + 1)%nat with (length ((r ++ l1) ++ [10]))
          by (rewrite (length_app _ [10]); simpl; lia).
        apply drop_app_length. }
      rewrite Hd.
      specialize (IH bs2 (run_line sh (r ++ l1)) [] O fuel).
      cbn [app] in IH.
      change (set_input_buffer (run_command_from_input
                (set_input_buffer sh {| data := (r ++ l1) ++ [10];
                                        offset := length (r ++ l1) |}))
                {| data := bs2; offset := 0 |})
        with (set_input_buffer (run_line sh (r ++ l1)) {| data := bs2; offset := 0 |}).
      rewrite IH.
      * destruct (split_lines [] bs2) as [ls rem]. reflexivity.
      * rewrite length_app in Hn. simpl in Hn. lia.
      * apply not_elem_of_nil.
      * simpl. lia.
      * rewrite length_app in *. simpl in *. lia.
      * done.
Qed.

Lemma on_input_feed (sh : shell_t) (bs : list Z) :
  input_idle sh -> bs <> [] ->
  on_input sh (In_data bs)
  = Done (let '(ls, rem) := split_lines (data (input_buffer sh)) bs in
          set_input_buffer (foldl run_line sh ls)
                           {| data := rem; offset := length rem |}).
Proof.
  intros [Hno Hoff] Hbs. rewrite on_input_data by exact Hbs. f_equal.
  apply (input_loop_lines (length bs)); try done.
  - lia.
  - intros Hnil. apply app_eq_nil in Hnil as [_ ?]. done.
Qed.

End LineFacts.

(** X7.  Between calls the input buffer holds an unfinished line.  The bytes
    of a read complete zero or more lines: each completed line is run once,
    in the order of arrival, and consumed; the bytes after the last newline
    stay in the buffer, scanned, and the buffer is again without a newline.
    A read without a newline runs nothing and only extends the buffer. *)
Theorem on_input_lines `{cfg : Config} (sh : shell_t) (bs : list Z)
    (ls : list (list Z)) (rem : list Z) :
  input_idle sh -> bs <> [] ->
  split_lines (data (input_buffer sh)) bs = (ls, rem) ->
  on_input sh (In_data bs)
  = Done (set_input_buffer (foldl run_line sh ls) {| data := rem; offset := length rem |})
  /\ input_idle (set_input_buffer (foldl run_line sh ls)
                                  {| data := rem; offset := length rem |})
  /\ (10 ∉ bs -> ls = [] /\ rem = data (input_buffer sh) ++ bs).
Proof.
  intros Hidle Hbs Hsplit. split; [|split].
  - rewrite on_input_feed, Hsplit by assumption. reflexivity.
  - split; [|reflexivity]. cbn [input_buffer set_input_buffer data].
    pose proof (split_lines_rest (data (input_buffer sh)) bs (proj1 Hidle)) as H.
    by rewrite Hsplit in H.
  - intros Hno. rewrite split_lines_none in Hsplit by exact Hno. by injection Hsplit.
Qed.

Lemma shell_init_idle : input_idle shell_init.
Proof. split; [apply not_elem_of_nil|reflexivity]. Qed.

Lemma on_input_lines_witness :
  on_input (cfg := drv_config) shell_init
           (In_data (bytes "help" ++ [10] ++ bytes "x" ++ [10] ++ bytes "li"))
  = Done (set_input_buffer
            (foldl (run_line (cfg := drv_config)) shell_init [bytes "help"; bytes "x"])
            {| data := bytes "li"; offset := 2 |}).
Proof.
  refine (proj1 (@on_input_lines drv_config shell_init _ [bytes "help"; bytes "x"]
                   (bytes "li") shell_init_idle _ _)).
  - discriminate.
  - reflexivity.
Defined.

(** X8.  Reads compose: feeding the bytes of two reads one after the other
    leaves the shell in the state that feeding them in a single read does. *)
Theorem on_input_chunks `{cfg : Config} (sh sh1 : shell_t) (bs1 bs2 : list Z) :
  input_idle sh -> bs1 <> [] -> bs2 <> [] ->
  on_input sh (In_data bs1) = Done sh1 ->
  on_input sh1 (In_data bs2) = on_input sh (In_data (bs1 ++ bs2)).
Proof.
  intros Hidle H1 H2 Hfirst.
  rewrite on_input_feed in Hfirst by assumption. injection Hfirst as <-.
  pose proof (split_lines_rest (data (input_buffer sh)) bs1 (proj1 Hidle)) as Hrest.
  rewrite (on_input_feed sh (bs1 ++ bs2)) by (try done; by destruct bs1).
  rewrite split_lines_app.
  destruct (split_lines (data (input_buffer sh)) bs1) as [ls1 r1]. cbn [snd] in Hrest.
  rewrite on_input_feed; [|by split|exact H2].
  cbn [input_buffer set_input_buffer data].
  destruct (split_lines r1 bs2) as [ls2 r2].
  by rewrite foldl_run_line_buffer, foldl_app.
Qed.

Lemma on_input_chunks_witness :
  on_input (cfg := drv_config)
           (set_input_buffer shell_init {| data := bytes "he"; offset := 2 |})
           (In_data (bytes "lp" ++ [10]))
  = on_input (cfg := drv_config) shell_init (In_data (bytes "he" ++ bytes "lp" ++ [10])).
Proof.
  apply (@on_input_chunks drv_config shell_init _ (bytes "he") (bytes "lp" ++ [10])).
  - exact shell_init_idle.
  - discriminate.
  - discriminate.
  - reflexivity.
Defined.

(** ** Verbs and the slot token *)

Lemma streq_eq (a b : list Z) : 0 ∉ a -> 0 ∉ b -> (streq a b = true <-> a = b).
Proof.
  intros Ha Hb. unfold streq, strcmp. rewrite Z.eqb_eq, strncmp_take.
  rewrite !cstring_id by assumption.
  rewrite !take_ge by (rewrite length_app; simpl; lia).
  split; [intros H; by apply app_inv_tail in H|by intros ->].
Qed.

Lemma digits_value_stop_at (ds : list Z) (c : Z) (rest : list Z) (a : Z) :
  Forall (fun c => isdigit c = true) ds -> isdigit c = false ->
  digits_value (ds ++ c :: rest) a = (fst (digits_value ds a), c :: rest).
Proof.
  intros Hd Hc. revert a. induction Hd as [|d ds Hd _ IH]; intros a; simpl.
  - by rewrite Hc.
  - by rewrite Hd, IH.
Qed.

Lemma digits_value_all (ds : list Z) (a : Z) :
  Forall (fun c => isdigit c = true) ds ->
  digits_value ds a = (fst (digits_value ds a), []).
Proof.
  intros Hd. revert a. induction Hd as [|d ds Hd _ IH]; intros a; simpl; [reflexivity|].
  by rewrite Hd, IH.
Qed.

(** [strtoul] on a string that starts with a digit: no blank, no sign. *)
Lemma strtoul_digit_head (d : Z) (s : list Z) :
  isdigit d = true ->
  strtoul (d :: s)
  = (let '(v, rest) := digits_value (d :: s) 0 in
     ((if ULONG_MAX <? v then ULONG_MAX else v) mod UINT_MOD, rest)).
Proof.
  intros Hd. unfold strtoul. pose proof Hd as Hr. apply isdigit_range in Hr.
  assert (Hsp : skip_spaces (d :: s) = d :: s).
  { simpl. unfold isspace.
    destruct (Z.eqb_spec d 32); [lia|].
    destruct (Z.leb_spec 9 d); destruct (Z.leb_spec d 13); simpl; try reflexivity; lia. }
  rewrite Hsp.
  assert (Hsign : match d :: s with
                  | 45 :: r => (true, r)
                  | 43 :: r => (false, r)
                  | _ => (false, d :: s)
                  end = (false, d :: s)).
  { destruct d as [|p|p]; try lia.
    do 6 (destruct p as [p|p|]; try lia; try reflexivity). }
  rewrite Hsign, Hd. reflexivity.
Qed.

Lemma strtok_all_nonempty (s cur : list Z) :
  Forall (fun t => t <> []) (strtok_all s cur).
Proof.
  revert cur. induction s as [|c s IH]; intros cur; simpl.
  - destruct cur as [|x cur]; [constructor|]. constructor; [|constructor].
    intros H. apply (f_equal length) in H. rewrite length_rev in H. done.
  - destruct (c =? 32); [|apply IH].
    destruct cur as [|x cur]; [apply IH|]. constructor; [|apply IH].
    intros H. apply (f_equal length) in H. rewrite length_rev in H. done.
Qed.

Section VerbFacts.
Context `{cfg : Config}.

Lemma line_tokens_no_nul (sh : shell_t) (toks : list (list Z)) :
  strtok_all (cstring (take (offset (input_buffer sh)) (data (input_buffer sh)))) [] = toks ->
  forall t, t ∈ toks -> 0 ∉ t.
Proof.
  intros <- t Ht.
  eapply (strtok_all_no_nul _ []); [apply cstring_no_nul|apply not_elem_of_nil|exact Ht].
Qed.

End VerbFacts.

(** X9.  The first token selects the verb: [list] and [help] run whatever
    follows them on the line; a first token other than [list], [help] and
    [cmd] is rejected, and so is [cmd] with fewer than three more tokens. *)
Theorem verb_dispatch `{cfg : Config} (sh : shell_t) (t : list Z) (rest : list (list Z)) :
  strtok_all (cstring (take (offset (input_buffer sh)) (data (input_buffer sh)))) []
  = t :: rest ->
  (t = LIST_CMD -> run_command_from_input sh = cmd_list sh)
  /\ (t = HELP_CMD -> run_command_from_input sh = cmd_help sh)
  /\ (t <> LIST_CMD -> t <> HELP_CMD -> t <> CMD_CMD ->
      run_command_from_input sh = cmd_invalid sh)
  /\ (t = CMD_CMD -> (length rest < 3)%nat ->
      run_command_from_input sh = cmd_invalid sh).
Proof.
  intros Htok.
  assert (Ht : 0 ∉ t) by (apply (line_tokens_no_nul sh _ Htok); by left).
  assert (Hc : forall k, 0 ∉ k -> streq k t = true <-> k = t)
    by (intros k Hk; by apply streq_eq).
  assert (Hl : 0 ∉ LIST_CMD) by (apply (bool_decide_unpack _); vm_compute; exact I).
  assert (Hh : 0 ∉ HELP_CMD) by (apply (bool_decide_unpack _); vm_compute; exact I).
  assert (Hm : 0 ∉ CMD_CMD) by (apply (bool_decide_unpack _); vm_compute; exact I).
  unfold run_command_from_input. rewrite Htok.
  split; [|split; [|split]].
  - intros ->. by rewrite (proj2 (Hc LIST_CMD Hl)).
  - intros ->. change (streq LIST_CMD HELP_CMD) with false.
    by rewrite (proj2 (Hc HELP_CMD Hh)).
  - intros H1 H2 H3.
    destruct (streq LIST_CMD t) eqn:E1; [by apply Hc in E1|].
    destruct (streq HELP_CMD t) eqn:E2; [by apply Hc in E2|].
    destruct (streq CMD_CMD t) eqn:E3; [by apply Hc in E3|]. reflexivity.
  - intros -> Hlen.
    change (streq LIST_CMD CMD_CMD) with false.
    change (streq HELP_CMD CMD_CMD) with false.
    change (streq CMD_CMD CMD_CMD) with true. cbn [negb].
    destruct rest as [|drv [|slot [|drv_cmd rest]]]; try reflexivity.
    simpl in Hlen. lia.
Qed.

Lemma verb_dispatch_witness :
  run_command_from_input (cfg := drv_config) (at_line thermo_shell (bytes "list now please"))
  = cmd_list (at_line thermo_shell (bytes "list now please")).
Proof.
  refine (proj1 (@verb_dispatch drv_config (at_line thermo_shell (bytes "list now please"))
                   (bytes "list") [bytes "now"; bytes "please"] _) _).
  - reflexivity.
  - reflexivity.
Defined.

(** X10.  The slot token of a [cmd] line.  A token of digits only is taken
    as its decimal value, saturated at [ULONG_MAX] and then reduced modulo
    2^32 by the assignment to an [unsigned int]; the line goes on to its
    arguments.  A token with digits followed by another character, or
    starting with a character that is no digit, sign or blank, is rejected. *)
Theorem slot_token `{cfg : Config} (sh : shell_t) (drv slot drv_cmd : list Z)
    (rest : list (list Z)) :
  strtok_all (cstring (take (offset (input_buffer sh)) (data (input_buffer sh)))) []
  = CMD_CMD :: drv :: slot :: drv_cmd :: rest ->
  (Forall (fun c => isdigit c = true) slot ->
   run_command_from_input sh
   = match collect_args rest with
     | None => cmd_invalid sh
     | Some args =>
         cmd_cmd sh drv (Z.min ULONG_MAX (fst (digits_value slot 0)) mod UINT_MOD)
                 drv_cmd args
     end)
  /\ (forall ds c g, slot = ds ++ c :: g ->
        Forall (fun c => isdigit c = true) ds -> isdigit c = false ->
        ds <> [] \/ (c <> 43 /\ c <> 45 /\ isspace c = false) ->
        run_command_from_input sh = cmd_invalid sh).
Proof.
  intros Htok.
  assert (Hnul : 0 ∉ slot).
  { apply (line_tokens_no_nul sh _ Htok). do 2 right. by left. }
  assert (Hne : slot <> []).
  { intros ->.
    pose proof (strtok_all_nonempty
                  (cstring (take (offset (input_buffer sh)) (data (input_buffer sh)))) [])
      as H.
    rewrite Htok, Forall_forall in H. apply (H []); [|reflexivity]. do 2 right. by left. }
  unfold run_command_from_input. rewrite Htok.
  change (streq LIST_CMD CMD_CMD) with false.
  change (streq HELP_CMD CMD_CMD) with false.
  change (streq CMD_CMD CMD_CMD) with true. cbn [negb].
  split.
  - intros Hdig. destruct slot as [|d s]; [done|].
    rewrite strtoul_digit_head by (by inversion Hdig).
    rewrite digits_value_all by exact Hdig. cbn [hd]. rewrite Z.eqb_refl. cbn [negb].
    replace (if ULONG_MAX <? fst (digits_value (d :: s) 0) then ULONG_MAX
             else fst (digits_value (d :: s) 0))
      with (Z.min ULONG_MAX (fst (digits_value (d :: s) 0))); [reflexivity|].
    destruct (Z.ltb_spec ULONG_MAX (fst (digits_value (d :: s) 0))); lia.
  - intros ds c g -> Hdig Hc Hcase.
    assert (Hc0 : c <> 0).
    { intros ->. apply Hnul. apply elem_of_app. right. by left. }
    assert (Hrej : hd 0 (snd (strtoul (ds ++ c :: g))) <> 0).
    { destruct ds as [|d ds].
      - destruct Hcase as [|(H43 & H45 & Hsp)]; [done|].
        unfold strtoul. cbn [app skip_spaces]. rewrite Hsp.
        assert (Hsign : match c :: g with
                        | 45 :: r => (true, r)
                        | 43 :: r => (false, r)
                        | _ => (false, c :: g)
                        end = (false, c :: g)).
        { destruct c as [|p|p]; try reflexivity.
          do 6 (destruct p as [p|p|]; try reflexivity; try lia). }
        rewrite Hsign, Hc. exact Hc0.
      - cbn [app]. rewrite strtoul_digit_head by (by inversion Hdig).
        change (d :: ds ++ c :: g) with ((d :: ds) ++ c :: g).
        rewrite digits_value_stop_at by assumption. exact Hc0. }
    destruct (strtoul (ds ++ c :: g)) as [slot_number slot_endptr]. cbn [snd] in Hrej.
    destruct (Z.eqb_spec (hd 0 slot_endptr) 0); [done|]. reflexivity.
Qed.

Lemma slot_token_witness :
  run_command_from_input (cfg := drv_config)
    (at_line thermo_shell (bytes "cmd thermo 4294967299 set 42"))
  = cmd_cmd (cfg := drv_config)
      (at_line thermo_shell (bytes "cmd thermo 4294967299 set 42"))
      (bytes "thermo") 3 (bytes "set") (mk_args [bytes "42"]).
Proof.
  refine (proj1 (@slot_token drv_config
                   (at_line thermo_shell (bytes "cmd thermo 4294967299 set 42"))
                   (bytes "thermo") (bytes "4294967299") (bytes "set") [bytes "42"] _) _).
  - reflexivity.
  - repeat constructor.
Defined.

(** ** Frames that arrive in pieces *)

Lemma nth_app_left (l e : list Z) (i : nat) :
  (i < length l)%nat -> nth i (l ++ e) 0 = nth i l 0.
Proof. intros H. by apply app_nth1. Qed.

(** X11.  A response whose header has arrived but whose payload has not:
    [reader_response] prints nothing, marks the bytes it has and asks for
    exactly the missing ones; once the library has stored that many bytes
    behind them, the next call finds the frame complete and prints it. *)
Theorem response_in_two_steps (sd : shell_driver_t) (out : list Z) :
  eof (sd_usc sd) = false ->
  (sizeof_pr_driver_response_t <= user_size (read_task_b (sd_usc sd)))%nat ->
  (user_size (read_task_b (sd_usc sd)) < response_required sd)%nat ->
  let deficit := (response_required sd - user_size (read_task_b (sd_usc sd)))%nat in
  let sd1 := fst (reader_response sd 0 out) in
  snd (reader_response sd 0 out) = out
  /\ calls (sd_usc sd1) = calls (sd_usc sd) ++ [Usc_recv deficit Reader_response]
  /\ read_task_b (sd_usc sd1)
     = {| data := data (read_task_b (sd_usc sd));
          offset := user_size (read_task_b (sd_usc sd)) |}
  /\ forall extra, length extra = deficit ->
       reader_response (with_more sd1 extra) 0 out
       = (with_more sd1 extra,
          out ++ printf_prec_s
                   (to_int (read_le32 (data (read_task_b (sd_usc sd))) 1))
                   (drop sizeof_pr_driver_response_t
                         (data (read_task_b (sd_usc sd)) ++ extra))
              ++ NEW_LINE ++ PROMPT).
Proof.
  intros Heof Hhdr Hshort deficit sd1. subst deficit sd1.
  assert (Hfirst : reader_response sd 0 out
                   = (unix_socket_client_recv
                        (sd_set_read_offset sd (user_size (read_task_b (sd_usc sd))))
                        (response_required sd - user_size (read_task_b (sd_usc sd)))
                        Reader_response, out)).
  { unfold response_required in *. unfold reader_response, READ_ERROR_HANDLER.
    cbn [Z.eqb negb]. rewrite Heof.
    destruct (Nat.ltb_spec (user_size (read_task_b (sd_usc sd)))
                (sizeof_pr_driver_response_t
                 + Z.to_nat (read_le32 (data (read_task_b (sd_usc sd))) 1))) as [_|];
      [reflexivity|lia]. }
  rewrite Hfirst. cbn [fst snd].
  split; [reflexivity|]. split; [reflexivity|]. split; [reflexivity|].
  intros extra Hextra.
  unfold reader_response, READ_ERROR_HANDLER. cbn [Z.eqb negb].
  unfold with_more, unix_socket_client_recv, sd_set_read_offset, sd_set_usc, usc_call_,
    usc_set_read, set_offset, user_size, response_required in *.
  cbn [sd_usc eof read_task_b data offset]. rewrite Heof.
  assert (Hlen : read_le32 (data (read_task_b (sd_usc sd)) ++ extra) 1
                 = read_le32 (data (read_task_b (sd_usc sd))) 1).
  { unfold read_le32. unfold sizeof_pr_driver_response_t in Hhdr.
    rewrite !nth_app_left by lia. reflexivity. }
  rewrite Hlen.
  destruct (Nat.ltb_spec (length (data (read_task_b (sd_usc sd)) ++ extra))
              (sizeof_pr_driver_response_t
               + Z.to_nat (read_le32 (data (read_task_b (sd_usc sd))) 1))) as [Hlt|_].
  { rewrite length_app in Hlt. lia. }
  reflexivity.
Qed.

Lemma response_in_two_steps_witness :
  reader_response
    (with_more (fst (reader_response (with_read thermo_driver [2; 2; 0; 0; 0]) 0 []))
               (bytes "ok")) 0 []
  = (with_more (fst (reader_response (with_read thermo_driver [2; 2; 0; 0; 0]) 0 []))
               (bytes "ok"),
     bytes "ok" ++ NEW_LINE ++ PROMPT).
Proof.
  destruct (response_in_two_steps (with_read thermo_driver [2; 2; 0; 0; 0]) [])
    as (_ & _ & _ & H).
  - reflexivity.
  - vm_compute. lia.
  - vm_compute. lia.
  - apply (H (bytes "ok")). reflexivity.
Defined.

(** X13.  What the callbacks never do: no reader, nor the writer, nor the
    connector changes the name, the name length or the slot of the record;
    only [reader_info] can change the catalog; only [reader_response] and
    the writer can print. *)
Theorem callbacks_keep_identity `{cfg : Config} (r : reader_t) (sd : shell_driver_t)
    (error : Z) (reconnect_ok : bool) (out : list Z) :
  let same (sd' : shell_driver_t) :=
    sd_name sd' = sd_name sd /\ sd_name_len sd' = sd_name_len sd
    /\ sd_slot sd' = sd_slot sd in
  same (fst (run_reader r sd error out))
  /\ same (fst (writer sd error reconnect_ok out))
  /\ same (connector sd)
  /\ (r <> Reader_info -> sd_commands (fst (run_reader r sd error out)) = sd_commands sd)
  /\ sd_commands (fst (writer sd error reconnect_ok out)) = sd_commands sd
  /\ sd_commands (connector sd) = sd_commands sd
  /\ (r <> Reader_response -> snd (run_reader r sd error out) = out).
Proof.
  intros same. subst same. cbv beta.
  repeat split; try (intros Hr); destruct r; try done;
    unfold run_reader, reader_signature, reader_info, reader_response,
      READ_ERROR_HANDLER, writer;
    repeat (match goal with |- context [if ?b then _ else _] => destruct b end);
    reflexivity.
Qed.

Lemma callbacks_keep_identity_witness :
  sd_commands (fst (run_reader (cfg := drv_config) Reader_signature thermo_driver 104 []))
  = thermo_catalog.
Proof.
  refine (proj1 (proj2 (proj2 (proj2
            (@callbacks_keep_identity drv_config Reader_signature thermo_driver 104
               true [])))) _).
  discriminate.
Defined.


(** ** Directory event batches *)

Lemma le32_value (v : Z) :
  0 <= v < 2 ^ 32 ->
  v mod 256 + 256 * (v / 256 mod 256) + 65536 * (v / 256 / 256 mod 256)
  + 16777216 * (v / 256 / 256 / 256 mod 256) = v.
Proof.
  intros Hv.
  pose proof (Z.div_mod v 256 ltac:(lia)) as H1.
  pose proof (Z.div_mod (v / 256) 256 ltac:(lia)) as H2.
  pose proof (Z.div_mod (v / 256 / 256) 256 ltac:(lia)) as H3.
  assert (H4 : v / 256 / 256 / 256 mod 256 = v / 256 / 256 / 256).
  { apply Z.mod_small. split.
    - repeat apply Z.div_pos; lia.
    - repeat (apply Z.div_lt_upper_bound; [lia|]). lia. }
  lia.
Qed.

Lemma nth_after (pre x : list Z) (k : nat) :
  nth (length pre + k) (pre ++ x) 0 = nth k x 0.
Proof. apply app_nth2_plus. Qed.

Lemma cstring_cut (s r : list Z) : 0 ∉ s -> cstring (s ++ 0 :: r) = s.
Proof.
  induction s as [|c s IH]; intros Hs; [reflexivity|].
  apply not_elem_of_cons in Hs as [Hc Hs]. cbn [cstring app].
  destruct (Z.eqb_spec c 0) as [->|_]; [done|]. by rewrite IH.
Qed.

Lemma encode_event_length (e : dir_event) :
  length (encode_event e) = (sizeof_inotify_event + (length (de_name e) + de_pad e))%nat.
Proof.
  unfold encode_event, le32, sizeof_inotify_event.
  rewrite !length_app, repeat_length. cbn [length]. lia.
Qed.

Section BatchFacts.
Context `{cfg : Config}.

Lemma single_event_decode (sh : shell_t) (pre rest : list Z) (e : dir_event)
    (env : created_env) :
  event_ok e ->
  base_dir_single_event sh (pre ++ encode_event e ++ rest) (length pre) env
  = (dispatch_event sh (de_mask e) (de_name e) env, length (encode_event e)).
Proof.
  intros (Hmask & Hnul & Hlen & Hpad).
  unfold base_dir_single_event.
  assert (Hm : read_le32 (pre ++ encode_event e ++ rest) (length pre + 4) = de_mask e).
  { unfold read_le32. rewrite <- !Nat.add_assoc, !nth_after.
    unfold encode_event, le32. cbn [app nth Nat.add]. by apply le32_value. }
  assert (Hl : read_le32 (pre ++ encode_event e ++ rest) (length pre + 12)
               = Z.of_nat (length (de_name e) + de_pad e)).
  { unfold read_le32. rewrite <- !Nat.add_assoc, !nth_after.
    unfold encode_event, le32. cbn [app nth Nat.add]. apply le32_value. lia. }
  rewrite Hm, Hl, Nat2Z.id, encode_event_length. f_equal. f_equal.
  rewrite drop_app_add'; [|reflexivity].
  unfold encode_event, le32, sizeof_inotify_event. cbn [app drop].
  destruct (Nat.eqb_spec (length (de_name e) + de_pad e) 0) as [H0|H0].
  - destruct (de_name e); [reflexivity|cbn [length] in H0; lia].
  - destruct (de_name e) as [|c name] eqn:Hname.
    + destruct Hpad as [Hp _]. rewrite Hp in H0. cbn [length] in H0. lia.
    + destruct (de_pad e) as [|p]; [lia|]. cbn [repeat].
      rewrite <- !app_assoc. cbn [app drop].
      change (c :: name ++ 0 :: repeat 0 p ++ rest)
        with ((c :: name) ++ 0 :: (repeat 0 p ++ rest)).
      by apply cstring_cut.
Qed.

Lemma events_loop_decode (fuel : nat) (env : nat -> created_env) (pre : list Z)
    (idx : nat) (sh : shell_t) (evs : list dir_event) :
  Forall event_ok evs -> (length evs <= fuel)%nat ->
  events_loop fuel env (pre ++ encode_batch evs) (length pre) idx sh
  = handle_events env idx sh evs.
Proof.
  intros Hok. unfold encode_batch. revert fuel pre idx sh.
  induction Hok as [|e evs He Hok IH]; intros fuel pre idx sh Hf.
  - cbn [map concat]. rewrite app_nil_r.
    destruct fuel; cbn [events_loop]; by rewrite Nat.ltb_irrefl.
  - cbn [length] in Hf. destruct fuel as [|fuel]; [lia|].
    cbn [events_loop handle_events map concat].
    assert (Hlt : (length pre <? length (pre ++ encode_event e ++ concat (map encode_event evs)))%nat = true).
    { apply Nat.ltb_lt. rewrite !length_app, encode_event_length.
      unfold sizeof_inotify_event. lia. }
    rewrite Hlt. cbn [andb]. destruct (running sh); [|reflexivity].
    rewrite single_event_decode by done.
    destruct (dispatch_event sh (de_mask e) (de_name e) (env idx))
      as [sh'|]; [|reflexivity].
    rewrite <- length_app, app_assoc. apply IH. lia.
Qed.

Lemma batch_length (evs : list dir_event) :
  (length evs <= length (encode_batch evs))%nat.
Proof.
  unfold encode_batch. induction evs as [|e evs IH]; [done|].
  cbn [map concat length]. rewrite length_app, encode_event_length.
  unfold sizeof_inotify_event. lia.
Qed.

Lemma handle_events_stopped (env : nat -> created_env) (idx : nat) (sh : shell_t)
    (evs : list dir_event) :
  running sh = false -> handle_events env idx sh evs = Done sh.
Proof. intros Hr. destruct evs; cbn [handle_events]; [done|by rewrite Hr]. Qed.

Lemma handle_events_app (env : nat -> created_env) (idx : nat) (sh : shell_t)
    (evs1 evs2 : list dir_event) :
  handle_events env idx sh (evs1 ++ evs2)
  = match handle_events env idx sh evs1 with
    | Abort => Abort
    | Done sh' => handle_events env (idx + length evs1) sh' evs2
    end.
Proof.
  revert idx sh. induction evs1 as [|e evs1 IH]; intros idx sh.
  - cbn [app handle_events length]. by rewrite Nat.add_0_r.
  - cbn [app handle_events length].
    destruct (running sh) eqn:Hr.
    + destruct (dispatch_event sh (de_mask e) (de_name e) (env idx)) as [sh'|];
        [|reflexivity].
      rewrite IH. by replace (idx + S (length evs1))%nat with (S idx + length evs1)%nat by lia.
    + by rewrite handle_events_stopped.
Qed.

Lemma created_flags (sh sh' : shell_t) (name : list Z) (env : created_env) :
  base_dir_smth_created sh name env = Done sh' ->
  running sh' = running sh /\ iosvc_stopped sh' = iosvc_stopped sh
  /\ output sh' = output sh /\ input_buffer sh' = input_buffer sh.
Proof.
  intros H. apply created_done in H as [->|(dd & sd & _ & _ & _ & _ & _ & _ & _ & _ & ->)];
    done.
Qed.

Lemma deleted_flags (sh : shell_t) (name : list Z) :
  running (base_dir_smth_deleted sh name) = running sh
  /\ iosvc_stopped (base_dir_smth_deleted sh name) = iosvc_stopped sh
  /\ output (base_dir_smth_deleted sh name) = output sh
  /\ input_buffer (base_dir_smth_deleted sh name) = input_buffer sh.
Proof.
  unfold base_dir_smth_deleted.
  destruct (parse_unix_socket_name_ name) as [dd|]; [|done].
  cbn zeta. destruct (clients sh !! _) as [l|]; [|done].
  destruct (scan_drivers _ _ _ _ l); done.
Qed.

Lemma deleted_nul_free (sh : shell_t) (name : list Z) :
  nul_free_names (clients sh) ->
  nul_free_names (clients (base_dir_smth_deleted sh name)).
Proof.
  intros Hnf. unfold base_dir_smth_deleted.
  destruct (parse_unix_socket_name_ name) as [dd|]; [|done].
  cbn zeta. destruct (clients sh !! _) as [l|] eqn:Hl; [|done].
  destruct (scan_drivers _ _ _ _ l) as [i|]; [|done].
  cbn [clients set_clients]. intros h l' sd Hh Hin.
  rewrite lookup_insert_Some in Hh. destruct Hh as [[<- <-]|[_ Hh]].
  - apply list_elem_of_delete_inv in Hin. eapply Hnf; eauto.
  - eapply Hnf; eauto.
Qed.

(** The flags after one event: stopped when the mask has [IN_DELETE_SELF],
    untouched otherwise; no event prints or touches the input buffer. *)
Lemma dispatch_event_flags (sh sh' : shell_t) (mask : Z) (name : list Z)
    (env : created_env) :
  dispatch_event sh mask name env = Done sh' ->
  output sh' = output sh /\ input_buffer sh' = input_buffer sh
  /\ if mask_has mask IN_DELETE_SELF
     then running sh' = false /\ iosvc_stopped sh' = true
     else running sh' = running sh /\ iosvc_stopped sh' = iosvc_stopped sh.
Proof.
  unfold dispatch_event. intros H.
  assert (Hc : exists sh1,
             (if mask_has mask IN_CREATE then base_dir_smth_created sh name env
              else Done sh) = Done sh1
             /\ running sh1 = running sh /\ iosvc_stopped sh1 = iosvc_stopped sh
             /\ output sh1 = output sh /\ input_buffer sh1 = input_buffer sh).
  { destruct (mask_has mask IN_CREATE).
    - destruct (base_dir_smth_created sh name env) as [sh1|] eqn:Hcr; [|done].
      exists sh1. split; [done|]. by apply created_flags in Hcr.
    - by exists sh. }
  destruct Hc as (sh1 & Hc & Hr1 & Hs1 & Ho1 & Hi1). rewrite Hc in H.
  injection H as <-.
  pose proof (deleted_flags sh1 name) as (Hr2 & Hs2 & Ho2 & Hi2).
  destruct (mask_has mask IN_DELETE), (mask_has mask IN_DELETE_SELF);
    cbn [base_dir_self_deleted io_service_stop set_running running iosvc_stopped
         output input_buffer]; repeat split; congruence.
Qed.

Lemma dispatch_event_registry (sh sh' : shell_t) (mask : Z) (name : list Z)
    (env : created_env) :
  0 ∉ name -> Z.of_nat (length name) < 2 ^ 31 ->
  wf_registry (clients sh) -> nul_free_names (clients sh) ->
  dispatch_event sh mask name env = Done sh' ->
  wf_registry (clients sh') /\ nul_free_names (clients sh').
Proof.
  intros Hnul Hlen Hwf Hnf. unfold dispatch_event. intros H.
  assert (Hc : exists sh1,
             (if mask_has mask IN_CREATE then base_dir_smth_created sh name env
              else Done sh) = Done sh1
             /\ wf_registry (clients sh1) /\ nul_free_names (clients sh1)).
  { destruct (mask_has mask IN_CREATE).
    - destruct (base_dir_smth_created sh name env) as [sh1|] eqn:Hcr; [|done].
      exists sh1. split; [done|]. split.
      + by eapply created_wf.
      + by eapply created_nul_free.
    - by exists sh. }
  destruct Hc as (sh1 & Hc & Hwf1 & Hnf1). rewrite Hc in H. injection H as <-.
  pose proof (deleted_wf sh1 name Hwf1) as Hwf2.
  pose proof (deleted_nul_free sh1 name Hnf1) as Hnf2.
  destruct (mask_has mask IN_DELETE), (mask_has mask IN_DELETE_SELF);
    cbn [base_dir_self_deleted io_service_stop set_running clients]; done.
Qed.

Lemma dispatch_event_abort (sh : shell_t) (mask : Z) (name : list Z)
    (env : created_env) :
  nul_free_names (clients sh) ->
  dispatch_event sh mask name env = Abort -> init_ok env = false.
Proof.
  intros Hnf. unfold dispatch_event.
  destruct (mask_has mask IN_CREATE); [|done].
  destruct (base_dir_smth_created sh name env) eqn:Hcr; [done|].
  intros _. by eapply created_abort_only_on_init.
Qed.

(** Over a batch: nothing is printed, and the flags are either untouched or
    those of a stopped shell. *)
Lemma handle_events_flags (env : nat -> created_env) (idx : nat) (sh sh' : shell_t)
    (evs : list dir_event) :
  handle_events env idx sh evs = Done sh' ->
  output sh' = output sh /\ input_buffer sh' = input_buffer sh
  /\ ((running sh' = running sh /\ iosvc_stopped sh' = iosvc_stopped sh)
      \/ (running sh' = false /\ iosvc_stopped sh' = true)).
Proof.
  revert idx sh. induction evs as [|e evs IH]; intros idx sh H.
  - injection H as <-. auto.
  - cbn [handle_events] in H. destruct (running sh) eqn:Hr.
    + destruct (dispatch_event sh (de_mask e) (de_name e) (env idx)) as [sh1|] eqn:Hd;
        [|done].
      apply dispatch_event_flags in Hd as (Ho & Hi & Hf).
      apply IH in H as (Ho' & Hi' & Hf'). rewrite Ho', Hi'.
      split; [done|]. split; [done|].
      destruct (mask_has (de_mask e) IN_DELETE_SELF).
      * destruct Hf as [Hr1 Hs1]. right.
        destruct Hf' as [[Ha Hb]|Hf']; [|done]. split; congruence.
      * destruct Hf as [Hr1 Hs1].
        destruct Hf' as [[Ha Hb]|Hf']; [left; split; congruence|by right].
    + injection H as <-. auto.
Qed.

End BatchFacts.


Section BatchTheorems.
Context `{cfg : Config}.

Lemma events_loop_batch (sh : shell_t) (env : nat -> created_env)
    (evs : list dir_event) :
  Forall event_ok evs ->
  events_loop (length (encode_batch evs)) env (encode_batch evs) 0 0 sh
  = handle_events env 0 sh evs.
Proof.
  intros Hok. apply (events_loop_decode _ env [] 0 sh evs Hok), batch_length.
Qed.

Lemma handle_events_ext (env : nat -> created_env) (idx : nat) (sh : shell_t)
    (evs evs' : list dir_event) :
  map de_mask evs' = map de_mask evs -> map de_name evs' = map de_name evs ->
  handle_events env idx sh evs' = handle_events env idx sh evs.
Proof.
  revert idx sh evs'. induction evs as [|e evs IH]; intros idx sh [|e' evs'] Hm Hn;
    try done.
  cbn [map] in Hm, Hn. injection Hm as Hm1 Hm. injection Hn as Hn1 Hn.
  cbn [handle_events]. rewrite Hm1, Hn1.
  destruct (running sh); [|done].
  destruct (dispatch_event sh (de_mask e) (de_name e) (env idx)); [|done].
  by apply IH.
Qed.

Lemma handle_events_registry (env : nat -> created_env) (idx : nat) (sh : shell_t)
    (evs : list dir_event) :
  Forall (fun e => (0 ∉ de_name e) /\ Z.of_nat (length (de_name e)) < 2 ^ 31) evs ->
  wf_registry (clients sh) -> nul_free_names (clients sh) ->
  match handle_events env idx sh evs with
  | Done sh' => wf_registry (clients sh') /\ nul_free_names (clients sh')
  | Abort => exists k, (idx <= k < idx + length evs)%nat /\ init_ok (env k) = false
  end.
Proof.
  intros Hok. revert idx sh.
  induction Hok as [|e evs [Hnul Hlen] Hok IH]; intros idx sh Hwf Hnf.
  - done.
  - cbn [handle_events length]. destruct (running sh); [|done].
    destruct (dispatch_event sh (de_mask e) (de_name e) (env idx)) as [sh1|] eqn:Hd.
    + destruct (dispatch_event_registry _ _ _ _ _ Hnul Hlen Hwf Hnf Hd) as [Hwf1 Hnf1].
      specialize (IH (S idx) sh1 Hwf1 Hnf1).
      destruct (handle_events env (S idx) sh1 evs); [done|].
      destruct IH as (k & Hk & Hi). exists k. split; [lia|done].
    + exists idx. split; [lia|]. by eapply dispatch_event_abort.
Qed.

Lemma encode_batch_names (evs : list dir_event) (e : dir_event) :
  e ∈ evs -> (length (de_name e) <= length (encode_batch evs))%nat.
Proof.
  unfold encode_batch. induction evs as [|e' evs IH]; intros Hin.
  - by apply elem_of_nil in Hin.
  - cbn [map concat]. rewrite length_app, encode_event_length.
    apply elem_of_cons in Hin as [->|Hin]; [lia|]. specialize (IH Hin). lia.
Qed.

(** X14. [base_dir_event], [base_dir_single_event]: a batch of events as the
    notifier writes it (sixteen-byte headers, names padded with NUL bytes) is
    handled event by event in the order of the batch, each event with its
    mask and its name cut at the first NUL, as long as the shell runs; the
    watch descriptor, the cookie and the amount of padding of the events
    change nothing. *)
Theorem dir_batch_in_order (sh : shell_t) (env : nat -> created_env)
    (evs : list dir_event) :
  Forall event_ok evs ->
  base_dir_event sh (Dir_bytes (encode_batch evs)) env = handle_events env 0 sh evs
  /\ forall evs', Forall event_ok evs' ->
       map de_mask evs' = map de_mask evs -> map de_name evs' = map de_name evs ->
       base_dir_event sh (Dir_bytes (encode_batch evs')) env
       = base_dir_event sh (Dir_bytes (encode_batch evs)) env.
Proof.
  intros Hok. split.
  - by apply events_loop_batch.
  - intros evs' Hok' Hm Hn. unfold base_dir_event.
    rewrite !events_loop_batch by done. by apply handle_events_ext.
Qed.

(** X15. [base_dir_event], [base_dir_self_deleted]: once an event of a batch
    carries [IN_DELETE_SELF], the events after it in the same batch are not
    handled; the batch leaves the shell not running, and, when it was running
    before, with the reactor stopped. *)
Theorem self_delete_ends_batch (sh : shell_t) (env : nat -> created_env)
    (evs1 evs2 : list dir_event) (e : dir_event) :
  Forall event_ok (evs1 ++ e :: evs2) ->
  mask_has (de_mask e) IN_DELETE_SELF = true ->
  base_dir_event sh (Dir_bytes (encode_batch (evs1 ++ e :: evs2))) env
  = base_dir_event sh (Dir_bytes (encode_batch (evs1 ++ [e]))) env
  /\ forall sh',
       base_dir_event sh (Dir_bytes (encode_batch (evs1 ++ e :: evs2))) env = Done sh' ->
       running sh' = false /\ (running sh = true -> iosvc_stopped sh' = true).
Proof.
  intros Hok Hself.
  assert (Hok' : Forall event_ok (evs1 ++ [e])).
  { apply Forall_app in Hok as [H1 H2]. apply Forall_app. split; [done|].
    apply Forall_cons in H2 as [H2 _]. by apply Forall_singleton. }
  unfold base_dir_event. rewrite !events_loop_batch by done.
  rewrite !handle_events_app.
  destruct (handle_events env 0 sh evs1) as [sh1|] eqn:H1; [|done].
  apply handle_events_flags in H1 as (_ & _ & Hf1).
  cbn [handle_events]. destruct (running sh1) eqn:Hr1.
  - destruct (dispatch_event sh1 (de_mask e) (de_name e) (env (0 + length evs1)%nat))
      as [sh2|] eqn:Hd; [|done].
    apply dispatch_event_flags in Hd as (_ & _ & Hf2). rewrite Hself in Hf2.
    destruct Hf2 as [Hr2 Hs2]. rewrite handle_events_stopped by done.
    split; [done|]. intros sh' [= <-]. done.
  - split; [done|]. intros sh' [= <-]. split; [done|]. intros Hr.
    destruct Hf1 as [[Ha _]|[_ Hb]]; [congruence|done].
Qed.

(** X16. [base_dir_event], [base_dir_single_event]: a batch of fewer than 2^31
    bytes keeps the registry well formed (every record in the bucket of the
    hash of its identity, names without NUL and with their length), prints
    nothing and leaves the pending input alone; it is fatal only when
    [unix_socket_client_init] fails for one of its events. *)
Theorem dir_batch_keeps_registry (sh : shell_t) (env : nat -> created_env)
    (evs : list dir_event) :
  Forall event_ok evs -> Z.of_nat (length (encode_batch evs)) < 2 ^ 31 ->
  wf_registry (clients sh) -> nul_free_names (clients sh) ->
  match base_dir_event sh (Dir_bytes (encode_batch evs)) env with
  | Done sh' =>
      wf_registry (clients sh') /\ nul_free_names (clients sh')
      /\ output sh' = output sh /\ input_buffer sh' = input_buffer sh
  | Abort => exists k, (k < length evs)%nat /\ init_ok (env k) = false
  end.
Proof.
  intros Hok Hlen Hwf Hnf. unfold base_dir_event.
  rewrite events_loop_batch by done.
  assert (Hnames : Forall (fun e => (0 ∉ de_name e)
                                    /\ Z.of_nat (length (de_name e)) < 2 ^ 31) evs).
  { apply Forall_forall. intros e Hin. split.
    - rewrite Forall_forall in Hok. by destruct (Hok e Hin) as (_ & H0 & _).
    - pose proof (encode_batch_names evs e Hin). lia. }
  pose proof (handle_events_registry env 0 sh evs Hnames Hwf Hnf) as H.
  destruct (handle_events env 0 sh evs) as [sh'|] eqn:He.
  - destruct H as [H1 H2]. apply handle_events_flags in He as (Ho & Hi & _). done.
  - destruct H as (k & Hk & Hi). exists k. split; [lia|done].
Qed.

End BatchTheorems.


Lemma thermo_created_ok : event_ok thermo_created.
Proof.
  unfold event_ok, thermo_created, IN_CREATE. cbn [de_mask de_name de_pad].
  split; [lia|]. split; [apply (bool_decide_unpack _); vm_compute; exact I|].
  split; [vm_compute; reflexivity|]. cbn. lia.
Qed.

Lemma thermo_deleted_ok : event_ok thermo_deleted.
Proof.
  unfold event_ok, thermo_deleted, IN_DELETE. cbn [de_mask de_name de_pad].
  split; [lia|]. split; [apply (bool_decide_unpack _); vm_compute; exact I|].
  split; [vm_compute; reflexivity|]. cbn. lia.
Qed.

Lemma dir_deleted_ok : event_ok dir_deleted.
Proof.
  unfold event_ok, dir_deleted, IN_DELETE_SELF. cbn [de_mask de_name de_pad].
  split; [lia|]. split; [apply not_elem_of_nil|].
  split; [vm_compute; reflexivity|]. repeat split.
Qed.

Lemma sample_events_ok :
  Forall event_ok [thermo_created; dir_deleted; thermo_deleted].
Proof.
  apply Forall_cons_2; [exact thermo_created_ok|].
  apply Forall_cons_2; [exact dir_deleted_ok|].
  apply Forall_cons_2; [exact thermo_deleted_ok|apply Forall_nil_2].
Qed.


Lemma dir_batch_in_order_witness :
  base_dir_event (cfg := drv_config) running_shell
    (Dir_bytes (encode_batch [thermo_created; dir_deleted; thermo_deleted]))
    (fun _ => env_ok)
  = handle_events (cfg := drv_config) (fun _ => env_ok) 0 running_shell
      [thermo_created; dir_deleted; thermo_deleted].
Proof.
  exact (proj1 (@dir_batch_in_order drv_config running_shell (fun _ => env_ok)
                  [thermo_created; dir_deleted; thermo_deleted] sample_events_ok)).
Defined.

Lemma self_delete_ends_batch_witness :
  base_dir_event (cfg := drv_config) running_shell
    (Dir_bytes (encode_batch ([thermo_created] ++ dir_deleted :: [thermo_deleted])))
    (fun _ => env_ok)
  = base_dir_event (cfg := drv_config) running_shell
      (Dir_bytes (encode_batch ([thermo_created] ++ [dir_deleted])))
      (fun _ => env_ok).
Proof.
  refine (proj1 (@self_delete_ends_batch drv_config running_shell (fun _ => env_ok)
                   [thermo_created] [thermo_deleted] dir_deleted _ _)).
  - exact sample_events_ok.
  - reflexivity.
Defined.

Lemma dir_batch_keeps_registry_witness :
  match base_dir_event (cfg := drv_config) running_shell
          (Dir_bytes (encode_batch [thermo_created; dir_deleted; thermo_deleted]))
          (fun _ => env_ok) with
  | Done sh' =>
      wf_registry (cfg := drv_config) (clients sh') /\ nul_free_names (clients sh')
      /\ output sh' = output running_shell
      /\ input_buffer sh' = input_buffer running_shell
  | Abort => exists k, (k < length [thermo_created; dir_deleted; thermo_deleted])%nat
                       /\ init_ok env_ok = false
  end.
Proof.
  refine (@dir_batch_keeps_registry drv_config running_shell (fun _ => env_ok)
            [thermo_created; dir_deleted; thermo_deleted] _ _ _ _).
  - exact sample_events_ok.
  - vm_compute. reflexivity.
  - intros h l sd Hl. exfalso. revert Hl. apply lookup_empty_Some.
  - intros h l sd Hl. exfalso. revert Hl. apply lookup_empty_Some.
Defined.


(** ** Start-up *)

Section StartFacts.
Context `{cfg : Config}.

Lemma created_registered_keep (sh sh' : shell_t) (name : list Z) (env : created_env)
    (drv : list Z) (slot : Z) :
  base_dir_smth_created sh name env = Done sh' ->
  registered (clients sh) drv slot -> registered (clients sh') drv slot.
Proof.
  intros Hc (h & l & sd & Hl & Hin & Hid).
  destruct (created_done _ _ _ _ Hc) as [->|(dd & sd0 & _ & _ & _ & _ & _ & _ & _ & _ & ->)].
  { by exists h, l, sd. }
  cbn [clients set_clients].
  destruct (decide (hash_pearson (DRIVER_SLOT_ID (drop (driver_name dd) name)
                                    (driver_name_len dd) (slot_number dd)) = h))
    as [Heq|Hne].
  - rewrite Heq, Hl. cbn [default]. exists h, (l ++ [sd0]), sd.
    rewrite lookup_insert_eq. split; [done|]. split; [|done].
    apply elem_of_app. by left.
  - exists h, l, sd. by rewrite lookup_insert_ne.
Qed.

Lemma created_registered_new (sh sh' : shell_t) (name : list Z) (env : created_env)
    (drv : list Z) (slot : Z) :
  base_dir_smth_created sh name env = Done sh' ->
  is_socket env = true -> parse name = Some (drv, slot) ->
  registered (clients sh') drv slot.
Proof.
  intros Hc Hs Hp. apply parse_description in Hp as (dd & Hdd & <- & <-).
  unfold base_dir_smth_created in Hc. rewrite Hs, Hdd in Hc. cbn [negb] in Hc.
  cbv zeta in Hc.
  destruct (scan_drivers _ _ _ _ _); [done|].
  destruct (init_ok env); [|done]. cbn [negb] in Hc. injection Hc as <-.
  cbn [clients set_clients].
  eexists _, _, _. rewrite lookup_insert_eq. split; [reflexivity|].
  split; [apply elem_of_app; right; by apply list_elem_of_singleton|].
  split; reflexivity.
Qed.

Lemma created_registered_inv (sh sh' : shell_t) (name : list Z) (env : created_env)
    (drv : list Z) (slot : Z) :
  base_dir_smth_created sh name env = Done sh' ->
  registered (clients sh') drv slot ->
  registered (clients sh) drv slot
  \/ (is_socket env = true /\ parse name = Some (drv, slot)).
Proof.
  intros Hc (h & l & sd & Hl & Hin & Hn & Hsl).
  destruct (created_done _ _ _ _ Hc)
    as [->|(dd & sd0 & Hs & _ & Hdd & Hn0 & _ & Hsl0 & _ & _ & ->)].
  { left. by exists h, l, sd. }
  cbn [clients set_clients] in Hl.
  apply lookup_insert_Some in Hl as [[<- <-]|[_ Hl]].
  - apply elem_of_app in Hin as [Hin|Hin].
    + left. destruct (clients sh !! _) as [l0|] eqn:Hl0.
      * by eexists _, l0, sd.
      * by apply elem_of_nil in Hin.
    + apply list_elem_of_singleton in Hin as ->. right. split; [done|].
      unfold parse. rewrite Hdd. congruence.
  - left. by exists h, l, sd.
Qed.

Lemma created_each_abort (sh : shell_t) (es : list (dirent * created_env)) :
  nul_free_names (clients sh) ->
  created_each sh es = Abort -> exists p, p ∈ es /\ init_ok (snd p) = false.
Proof.
  revert sh. induction es as [|[e env] es IH]; intros sh Hnf H; [done|].
  cbn [created_each] in H.
  destruct (base_dir_smth_created sh (cstring (d_name e)) env) as [sh1|] eqn:Hc.
  - assert (Hnf1 : nul_free_names (clients sh1)).
    { eapply created_nul_free; [exact Hnf|apply cstring_no_nul|exact Hc]. }
    destruct (IH sh1 Hnf1 H) as (p & Hin & Hp). exists p. split; [by right|done].
  - exists (e, env). split; [by left|]. by eapply created_abort_only_on_init.
Qed.

Lemma created_each_done (sh sh' : shell_t) (es : list (dirent * created_env)) :
  created_each sh es = Done sh' ->
  output sh' = output sh /\ running sh' = running sh
  /\ iosvc_stopped sh' = iosvc_stopped sh /\ input_buffer sh' = input_buffer sh
  /\ (forall drv slot, registered (clients sh) drv slot -> registered (clients sh') drv slot)
  /\ (forall p drv slot, p ∈ es -> is_socket (snd p) = true ->
        parse (cstring (d_name (fst p))) = Some (drv, slot) ->
        registered (clients sh') drv slot)
  /\ (forall drv slot, registered (clients sh') drv slot ->
        registered (clients sh) drv slot
        \/ exists p, p ∈ es /\ is_socket (snd p) = true
                     /\ parse (cstring (d_name (fst p))) = Some (drv, slot)).
Proof.
  revert sh. induction es as [|[e env] es IH]; intros sh H.
  - injection H as <-. repeat split; try done.
    + intros p drv slot Hin. by apply elem_of_nil in Hin.
    + intros drv slot Hr. by left.
  - cbn [created_each] in H.
    destruct (base_dir_smth_created sh (cstring (d_name e)) env) as [sh1|] eqn:Hc;
      [|done].
    destruct (IH sh1 H) as (Ho & Hr & Hs & Hi & Hkeep & Hnew & Hinv).
    destruct (created_flags _ _ _ _ Hc) as (Hr1 & Hs1 & Ho1 & Hi1).
    split; [congruence|]. split; [congruence|]. split; [congruence|].
    split; [congruence|]. split; [|split].
    + intros drv slot Hreg. eapply Hkeep, created_registered_keep; eauto.
    + intros p drv slot Hin Hsock Hp. apply elem_of_cons in Hin as [->|Hin].
      * eapply Hkeep, created_registered_new; eauto.
      * eapply Hnew; eauto.
    + intros drv slot Hreg. destruct (Hinv drv slot Hreg) as [Hreg1|(p & Hin & Hp)].
      * destruct (created_registered_inv _ _ _ _ _ _ Hc Hreg1) as [Hreg0|[Hsock Hp]].
        -- by left.
        -- right. exists (e, env). split; [by left|done].
      * right. exists p. split; [by right|done].
Qed.

Lemma created_each_wf (sh sh' : shell_t) (es : list (dirent * created_env)) :
  Forall (fun p => (length (d_name (fst p)) <= 256)%nat) es ->
  wf_registry (clients sh) -> nul_free_names (clients sh) ->
  created_each sh es = Done sh' ->
  wf_registry (clients sh') /\ nul_free_names (clients sh').
Proof.
  intros Hlen. revert sh. induction Hlen as [|[e env] es He Hlen IH]; intros sh Hwf Hnf H.
  - by injection H as <-.
  - cbn [created_each] in H. cbn [fst] in He.
    destruct (base_dir_smth_created sh (cstring (d_name e)) env) as [sh1|] eqn:Hc;
      [|done].
    apply (IH sh1); [| |done].
    + eapply created_wf; [exact Hwf| |exact Hc].
      assert (length (cstring (d_name e)) <= length (d_name e))%nat; [|lia].
      clear. induction (d_name e) as [|c s IHs]; [done|]. cbn [cstring].
      destruct (c =? 0); cbn [length]; lia.
    + eapply created_nul_free; [exact Hnf|apply cstring_no_nul|exact Hc].
Qed.

Lemma filter_passes (l : list (dirent * created_env)) (p : dirent * created_env) :
  p ∈ List.filter (fun p => socket_name_filter (fst p)) l
  <-> p ∈ l /\ d_is_sock (fst p) = true
      /\ exists dd, parse_unix_socket_name_ (cstring (d_name (fst p))) = Some dd.
Proof.
  rewrite !list_elem_of_In, filter_In. unfold socket_name_filter.
  destruct (d_is_sock (fst p)); cbn [negb].
  - destruct (parse_unix_socket_name_ (cstring (d_name (fst p)))) as [dd|].
    + split; [intros [H _]; eauto|intros [H _]; done].
    + split; [intros [_ H]; done|intros (_ & _ & dd & H); done].
  - split; [intros [_ H]; done|intros (_ & H & _); done].
Qed.

(** X17. [connect_to_all_existing_sockets], [socket_name_filter]: after the
    initial scan the registry holds what it held before and, besides, exactly
    the identities of the directory entries that are sockets ([d_type] and
    [stat]) with a name that parses; entries of another type or with another
    name leave no record.  The scan prints nothing, and the registry stays
    well formed. *)
Theorem initial_scan_registers (sh sh' : shell_t) (l : list (dirent * created_env)) :
  Forall (fun p => (length (d_name (fst p)) <= 256)%nat) l ->
  wf_registry (clients sh) -> nul_free_names (clients sh) ->
  connect_to_all_existing_sockets sh (Scandir_entries l) = Done sh' ->
  (forall drv slot,
     registered (clients sh') drv slot
     <-> registered (clients sh) drv slot
         \/ exists p, p ∈ l /\ d_is_sock (fst p) = true /\ is_socket (snd p) = true
                      /\ parse (cstring (d_name (fst p))) = Some (drv, slot))
  /\ output sh' = output sh
  /\ wf_registry (clients sh') /\ nul_free_names (clients sh').
Proof.
  intros Hlen Hwf Hnf H. unfold connect_to_all_existing_sockets in H.
  destruct (created_each_done _ _ _ H) as (Ho & _ & _ & _ & Hkeep & Hnew & Hinv).
  split; [|split; [done|]].
  - intros drv slot. split.
    + intros Hreg. destruct (Hinv drv slot Hreg) as [H0|(p & Hin & Hs & Hp)]; [by left|].
      right. exists p. apply filter_passes in Hin as (Hin & Hd & _). done.
    + intros [H0|(p & Hin & Hd & Hs & Hp)]; [by apply Hkeep|].
      apply (Hnew p); [|done|done]. apply filter_passes. split; [done|]. split; [done|].
      apply parse_description in Hp as (dd & Hdd & _). eauto.
  - eapply (created_each_wf sh sh'); [|done|done|exact H].
    apply Forall_forall. intros p Hin. apply filter_passes in Hin as (Hin & _).
    rewrite Forall_forall in Hlen. by apply Hlen.
Qed.

(** X18. [shell_run]: a failing [chdir] is fatal; when the watch cannot be
    added the shell returns as it is, not running and without a prompt;
    otherwise it is fatal only when [scandir] fails or
    [unix_socket_client_init] fails for an entry that passed the filter, and
    else the shell runs and has printed exactly the prompt. *)
Theorem shell_run_start (sh : shell_t) (env : run_env) :
  nul_free_names (clients sh) ->
  match shell_run sh env with
  | Abort =>
      chdir_ok env = false
      \/ (watch_ok env = true
          /\ (dir_scan env = Scandir_error
              \/ exists l p, dir_scan env = Scandir_entries l /\ p ∈ l
                             /\ socket_name_filter (fst p) = true
                             /\ init_ok (snd p) = false))
  | Done sh' =>
      chdir_ok env = true
      /\ if watch_ok env
         then running sh' = true /\ output sh' = output sh ++ PROMPT
              /\ input_buffer sh' = input_buffer sh
              /\ iosvc_stopped sh' = iosvc_stopped sh
         else sh' = sh
  end.
Proof.
  intros Hnf. unfold shell_run.
  destruct (chdir_ok env); cbn [negb]; [|by left].
  destruct (watch_ok env); cbn [negb]; [|done].
  unfold connect_to_all_existing_sockets.
  destruct (dir_scan env) as [|l]; [right; split; [done|by left]|].
  destruct (created_each (set_running sh true) _) as [sh1|] eqn:Hc.
  - destruct (created_each_done _ _ _ Hc) as (Ho & Hr & Hs & Hi & _).
    cbn [fprintf running output input_buffer iosvc_stopped].
    rewrite Ho, Hr, Hs, Hi. done.
  - apply created_each_abort in Hc as (p & Hin & Hp); [|done].
    right. split; [done|]. right. exists l, p. split; [done|].
    apply list_elem_of_In, filter_In in Hin as [Hin Hf].
    split; [by apply list_elem_of_In|done].
Qed.

End StartFacts.

Lemma initial_scan_registers_witness :
  exists sh',
    connect_to_all_existing_sockets (cfg := drv_config) shell_init
      (Scandir_entries sample_dir) = Done sh'
    /\ registered (clients sh') (bytes "thermo") 3
    /\ ~ registered (clients sh') (bytes "notes") 1.
Proof.
  destruct (connect_to_all_existing_sockets (cfg := drv_config) shell_init
              (Scandir_entries sample_dir)) as [sh'|] eqn:Hc;
    [|vm_compute in Hc; discriminate].
  exists sh'. split; [reflexivity|].
  assert (Hlen : Forall (fun p : dirent * created_env =>
                           (length (d_name (fst p)) <= 256)%nat) sample_dir).
  { apply Forall_cons_2; [vm_compute; lia|].
    apply Forall_cons_2; [vm_compute; lia|].
    apply Forall_cons_2; [vm_compute; lia|apply Forall_nil_2]. }
  assert (Hwf : wf_registry (cfg := drv_config) (clients shell_init)).
  { intros h l sd Hl. exfalso. revert Hl. apply lookup_empty_Some. }
  assert (Hnf : nul_free_names (clients shell_init)).
  { intros h l sd Hl. exfalso. revert Hl. apply lookup_empty_Some. }
  destruct (@initial_scan_registers drv_config shell_init sh' sample_dir Hlen Hwf Hnf Hc)
    as (Hreg & _).
  split.
  - apply Hreg. right. exists thermo_entry.
    split; [by do 2 right; left|]. repeat split; reflexivity.
  - intros Hn. apply Hreg in Hn as [(h & l & sd & Hl & _)|(p & Hin & Hd & Hs & Hp)].
    + revert Hl. apply lookup_empty_Some.
    + apply elem_of_cons in Hin as [->|Hin]; [discriminate Hd|].
      apply elem_of_cons in Hin as [->|Hin]; [vm_compute in Hp; discriminate|].
      apply list_elem_of_singleton in Hin as ->. vm_compute in Hp. discriminate.
Defined.

Lemma shell_run_start_witness :
  match shell_run (cfg := drv_config) shell_init
          {| chdir_ok := true; watch_ok := true; dir_scan := Scandir_entries sample_dir |}
  with
  | Abort => False
  | Done sh' => running sh' = true /\ output sh' = PROMPT
  end.
Proof.
  pose proof (@shell_run_start drv_config shell_init
                {| chdir_ok := true; watch_ok := true;
                   dir_scan := Scandir_entries sample_dir |}) as H.
  destruct (shell_run (cfg := drv_config) shell_init _) as [sh'|] eqn:Hr.
  - destruct H as (_ & Hrun & Hout & _).
    + intros h l sd Hl. exfalso. revert Hl. apply lookup_empty_Some.
    + split; [exact Hrun|exact Hout].
  - vm_compute in Hr. discriminate.
Defined.


(** ** The listing *)

Lemma concat_map_nil {A : Type} (f : A -> list Z) (xs : list A) :
  (forall x, x ∈ xs -> f x = []) -> concat (map f xs) = [].
Proof.
  induction xs as [|x xs IH]; intros H; [done|].
  cbn [map concat]. rewrite (H x) by by left. cbn [app].
  apply IH. intros y Hy. apply H. by right.
Qed.

Lemma concat_map_member {A : Type} (f : A -> list Z) (xs : list A) (x : A) :
  x ∈ xs -> exists pre post, concat (map f xs) = pre ++ f x ++ post.
Proof.
  intros Hin. apply list_elem_of_split in Hin as (l1 & l2 & ->).
  exists (concat (map f l1)), (concat (map f l2)).
  by rewrite map_app, concat_app.
Qed.

Lemma print_driver_shape (sd : shell_driver_t) :
  sd_name_len sd = length (sd_name sd) -> 0 ∉ sd_name sd ->
  Z.of_nat (sd_name_len sd) < 2 ^ 31 ->
  print_driver sd
  = NEW_LINE ++ DRIVER_PRE ++ sd_name sd ++ NEW_LINE
    ++ SLOT_PRE ++ utoa (sd_slot sd) ++ NEW_LINE
    ++ concat (map print_command (sd_commands sd)).
Proof.
  intros Hlen Hnul Hsmall. unfold print_driver. do 2 f_equal.
  unfold printf_prec_s, to_int, UINT_MOD.
  rewrite Z.mod_small by lia.
  destruct (Z.ltb_spec (Z.of_nat (sd_name_len sd)) (2 ^ 31)) as [_|]; [|lia].
  destruct (Z.ltb_spec (Z.of_nat (sd_name_len sd)) 0) as [|_]; [lia|].
  rewrite Nat2Z.id, Hlen, firstn_all. by rewrite cstring_id.
Qed.

(** X19. [cmd_list], [print_drv]: the listing leaves the registry alone and
    ends with the prompt; every record of the registry has its block in it
    (an empty line, ["Driver: "] and the name, ["Slot: "] and the slot in
    decimal, then one line per command of the catalog); a registry whose
    buckets are all empty, as after the deletion of every driver, lists
    nothing but the prompt. *)
Theorem list_shows_every_driver (sh : shell_t) :
  clients (cmd_list sh) = clients sh
  /\ (forall h l sd, clients sh !! h = Some l -> sd ∈ l ->
        sd_name_len sd = length (sd_name sd) -> 0 ∉ sd_name sd ->
        Z.of_nat (sd_name_len sd) < 2 ^ 31 ->
        exists pre post,
          output (cmd_list sh)
          = output sh ++ pre
            ++ (NEW_LINE ++ DRIVER_PRE ++ sd_name sd ++ NEW_LINE
                ++ SLOT_PRE ++ utoa (sd_slot sd) ++ NEW_LINE
                ++ concat (map print_command (sd_commands sd)))
            ++ post ++ PROMPT)
  /\ ((forall h l, clients sh !! h = Some l -> l = []) ->
        output (cmd_list sh) = output sh ++ PROMPT).
Proof.
  split; [reflexivity|]. split.
  - intros h l sd Hl Hin Hlen Hnul Hsmall.
    apply elem_of_map_to_list in Hl.
    destruct (concat_map_member
                (fun kv : Z * list shell_driver_t => concat (map print_driver (snd kv)))
                _ _ Hl) as (pre1 & post1 & H1).
    destruct (concat_map_member print_driver _ _ Hin) as (pre2 & post2 & H2).
    exists (pre1 ++ pre2), (post2 ++ post1).
    unfold cmd_list, finish_cmd, print_drv. cbn [fprintf output].
    rewrite H1. cbn [snd]. rewrite H2, print_driver_shape by done.
    rewrite <- !app_assoc. reflexivity.
  - intros Hempty. unfold cmd_list, finish_cmd, print_drv. cbn [fprintf output].
    rewrite concat_map_nil; [by rewrite app_nil_r|].
    intros [h l] Hin. apply elem_of_map_to_list in Hin. cbn [snd].
    by rewrite (Hempty h l Hin).
Qed.

Lemma list_shows_every_driver_witness :
  exists pre post,
    output (cmd_list thermo_shell)
    = output thermo_shell ++ pre
      ++ (NEW_LINE ++ DRIVER_PRE ++ bytes "thermo" ++ NEW_LINE
          ++ SLOT_PRE ++ bytes "3" ++ NEW_LINE
          ++ concat (map print_command thermo_catalog))
      ++ post ++ PROMPT.
Proof.
  destruct (list_shows_every_driver thermo_shell) as (_ & H & _).
  apply (H thermo_hash [thermo_driver] thermo_driver).
  - apply lookup_singleton_eq.
  - by left.
  - reflexivity.
  - apply (bool_decide_unpack _). vm_compute. exact I.
  - vm_compute. reflexivity.
Defined.


(** ** The socket server *)

Lemma take_plus {A : Type} (n m : nat) (l : list A) :
  take (n + m) l = take n l ++ take m (drop n l).
Proof.
  revert l. induction n as [|n IH]; intros [|x l]; cbn [Nat.add take drop app];
    try done.
  - by rewrite take_nil.
  - by rewrite IH.
Qed.

Lemma send_loop_spec (ks : list Uss.send_result) (buf : list Z)
    (wrote to_write : nat) (wire : list Z)
    (wrote' to_write' : nat) (err : Z) (wire' : list Z) (ks' : list Uss.send_result) :
  Uss.send_loop ks buf wrote to_write wire = Some (wrote', to_write', err, wire', ks') ->
  (wrote' + to_write' = wrote + to_write)%nat /\ (wrote <= wrote')%nat
  /\ wire' = wire ++ take (wrote' - wrote) (drop wrote buf)
  /\ (exists pre, ks = pre ++ ks')
  /\ (to_write' = 0%nat -> err = 0)
  /\ (to_write' <> 0%nat -> err <> Uss.EINTR /\ Uss.Send_err err ∈ ks).
Proof.
  revert wrote to_write wire.
  induction ks as [|k ks IH]; intros wrote to_write wire H; cbn [Uss.send_loop] in H.
  - destruct (Nat.eqb_spec to_write 0) as [->|Hne]; [|done].
    injection H as <- <- <- <- <-. rewrite Nat.sub_diag, app_nil_r.
    repeat split; try done. by exists [].
  - destruct (Nat.eqb_spec to_write 0) as [->|Hne].
    { injection H as <- <- <- <- <-. rewrite Nat.sub_diag, app_nil_r.
      repeat split; try done. by exists []. }
    destruct k as [n|e].
    + destruct (Nat.ltb_spec to_write n) as [|Hle]; [done|].
      apply IH in H as (Hsum & Hmono & Hwire & (pre & Hpre) & Hz & Hnz).
      split; [lia|]. split; [lia|]. split.
      { rewrite Hwire, <- app_assoc. f_equal.
        replace (wrote' - wrote)%nat with (n + (wrote' - (wrote + n)))%nat by lia.
        rewrite take_plus, drop_drop. reflexivity. }
      split; [exists (Uss.Send_ok n :: pre); by rewrite Hpre|].
      split; [done|]. intros Hn. destruct (Hnz Hn) as [H1 H2].
      split; [done|by right].
    + destruct (Z.eqb_spec e Uss.EINTR) as [->|Hne'].
      * apply IH in H as (Hsum & Hmono & Hwire & (pre & Hpre) & Hz & Hnz).
        repeat split; try done.
        -- exists (Uss.Send_err Uss.EINTR :: pre). by rewrite Hpre.
        -- by apply Hnz.
        -- right. by apply Hnz.
      * injection H as <- <- <- <- <-. rewrite Nat.sub_diag, app_nil_r.
        repeat split; try done; [by exists [Uss.Send_err e]|by left].
Qed.

(** One wake-up of the write job. *)
Lemma data_may_be_sent_spec (c c' : Uss.uss_connection_t)
    (ks ks' : list Uss.send_result) :
  (Uss.currently_wrote c <= length (data (Uss.write_b c)))%nat ->
  Uss.data_may_be_sent c ks = Some (c', ks') ->
  Uss.write_b c' = Uss.write_b c
  /\ (Uss.currently_wrote c <= Uss.currently_wrote c' <= length (data (Uss.write_b c)))%nat
  /\ Uss.wire_out c'
     = Uss.wire_out c
       ++ take (Uss.currently_wrote c' - Uss.currently_wrote c)
            (drop (Uss.currently_wrote c) (data (Uss.write_b c)))
  /\ (Uss.read_b c' = Uss.read_b c /\ Uss.currently_read c' = Uss.currently_read c
      /\ Uss.wire_in c' = Uss.wire_in c /\ Uss.ussc_eof c' = Uss.ussc_eof c
      /\ Uss.read_job c' = Uss.read_job c /\ Uss.has_writer c' = Uss.has_writer c
      /\ Uss.has_reader c' = Uss.has_reader c)
  /\ (exists pre, ks = pre ++ ks')
  /\ ((Uss.write_job c' = Uss.write_job c /\ Uss.called c' = Uss.called c
       /\ (Uss.currently_wrote c' < length (data (Uss.write_b c)))%nat
       /\ Uss.Send_err Uss.EAGAIN ∈ ks)
      \/ (Uss.write_job c' = false
          /\ exists err,
               Uss.called c'
               = Uss.called c
                 ++ (if Uss.has_writer c then [Uss.Writer_called err] else [])
               /\ err <> Uss.EINTR /\ err <> Uss.EAGAIN
               /\ (Uss.currently_wrote c' = length (data (Uss.write_b c)) -> err = 0)
               /\ ((Uss.currently_wrote c' < length (data (Uss.write_b c)))%nat ->
                   Uss.Send_err err ∈ ks))).
Proof.
  intros Hle H. unfold Uss.data_may_be_sent, user_size in H.
  destruct (Uss.send_loop ks _ _ _ _) as [[[[[wrote' to_write'] err] wire'] ks1]|] eqn:Hl;
    [|done].
  apply send_loop_spec in Hl as (Hsum & Hmono & Hwire & Hpre & Hz & Hnz).
  injection H as <- <-.
  cbn [Uss.write_b Uss.currently_wrote Uss.wire_out Uss.read_b Uss.currently_read
       Uss.wire_in Uss.ussc_eof Uss.read_job Uss.has_writer Uss.has_reader
       Uss.write_job Uss.called].
  split; [done|]. split; [lia|]. split; [done|]. split; [done|]. split; [done|].
  destruct (Nat.eqb_spec to_write' 0) as [Hz0|Hnz0]; cbn [negb andb].
  - right. split; [done|]. exists err. rewrite (Hz Hz0).
    split; [by destruct (Uss.has_writer c); rewrite ?app_nil_r|].
    split; [done|]. split; [done|]. split; [done|]. lia.
  - destruct (Hnz Hnz0) as [He Hin].
    destruct (Z.eqb_spec err Uss.EAGAIN) as [->|Hna].
    + left. split; [done|]. split; [done|]. split; [lia|done].
    + right. split; [done|]. exists err.
      split; [by destruct (Uss.has_writer c); rewrite ?app_nil_r|].
      split; [done|]. split; [done|]. split; [lia|done].
Qed.

Lemma writes_spec (n : nat) (c c' : Uss.uss_connection_t)
    (ks ks' : list Uss.send_result) (w0 : list Z) :
  (Uss.currently_wrote c <= length (data (Uss.write_b c)))%nat ->
  Uss.wire_out c = w0 ++ take (Uss.currently_wrote c) (data (Uss.write_b c)) ->
  Uss.write_job c = true ->
  Forall Uss.errno_set_send ks ->
  Uss.writes n c ks = Some (c', ks') ->
  Uss.write_b c' = Uss.write_b c
  /\ (Uss.currently_wrote c' <= length (data (Uss.write_b c)))%nat
  /\ Uss.wire_out c' = w0 ++ take (Uss.currently_wrote c') (data (Uss.write_b c))
  /\ (Uss.read_b c' = Uss.read_b c /\ Uss.currently_read c' = Uss.currently_read c
      /\ Uss.wire_in c' = Uss.wire_in c /\ Uss.ussc_eof c' = Uss.ussc_eof c
      /\ Uss.read_job c' = Uss.read_job c /\ Uss.has_writer c' = Uss.has_writer c
      /\ Uss.has_reader c' = Uss.has_reader c)
  /\ (if Uss.write_job c'
      then Uss.called c' = Uss.called c
           /\ (n = 0%nat
               \/ (Uss.currently_wrote c' < length (data (Uss.write_b c)))%nat)
      else exists err,
             Uss.called c'
             = Uss.called c
               ++ (if Uss.has_writer c then [Uss.Writer_called err] else [])
             /\ err <> Uss.EINTR /\ err <> Uss.EAGAIN
             /\ (err = 0 <-> Uss.currently_wrote c' = length (data (Uss.write_b c)))).
Proof.
  revert c ks. induction n as [|n IH]; intros c ks Hle Hwire Hjob Hks H.
  - injection H as <- <-. rewrite Hjob. repeat split; try done. by left.
  - cbn [Uss.writes] in H. rewrite Hjob in H.
    destruct (Uss.data_may_be_sent c ks) as [[c1 ks1]|] eqn:Hd; [|done].
    destruct (data_may_be_sent_spec _ _ _ _ Hle Hd)
      as (Hb & Hw & Hwo & Hrest & (pre & Hpre) & Hcase).
    assert (Hwire1 : Uss.wire_out c1
                     = w0 ++ take (Uss.currently_wrote c1) (data (Uss.write_b c1))).
    { rewrite Hwo, Hwire, Hb, <- app_assoc. f_equal.
      replace (Uss.currently_wrote c1)
        with (Uss.currently_wrote c + (Uss.currently_wrote c1 - Uss.currently_wrote c))%nat
        at 2 by lia.
      by rewrite take_plus. }
    assert (Hks1 : Forall Uss.errno_set_send ks1).
    { rewrite Hpre in Hks. by apply Forall_app in Hks as [_ Hks]. }
    destruct Hcase as [(Hj & Hc & Hlt & _)|(Hj & err & Hc & He1 & He2 & Hall & Hsome)].
    + assert (Hle1 : (Uss.currently_wrote c1 <= length (data (Uss.write_b c1)))%nat)
        by (rewrite Hb; lia).
      assert (Hjob1 : Uss.write_job c1 = true) by congruence.
      destruct (IH c1 ks1 Hle1 Hwire1 Hjob1 Hks1 H) as (Hb' & Hw' & Hwo' & Hrest' & Hfin).
      rewrite Hb in *. split; [congruence|]. split; [done|]. split; [done|].
      split.
      { destruct Hrest as (? & ? & ? & ? & ? & ? & ?).
        destruct Hrest' as (? & ? & ? & ? & ? & ? & ?). repeat split; congruence. }
      destruct (Uss.write_job c').
      * destruct Hfin as [Hc' [->|Hlt']].
        -- cbn [Uss.writes] in H. injection H as <- <-. split; [congruence|].
           right. lia.
        -- split; [congruence|]. by right.
      * destruct Hfin as (err & Hc' & Hrest2). exists err.
        destruct Hrest as (_ & _ & _ & _ & _ & Hhw & _).
        rewrite Hc', Hc, Hhw. done.
    + assert (H' : c' = c1 /\ ks' = ks1).
      { destruct n; cbn [Uss.writes] in H; [by injection H|].
        rewrite Hj in H. by injection H. }
      destruct H' as [-> ->]. rewrite Hj, Hb in *.
      split; [done|]. split; [lia|]. split; [done|]. split; [done|].
      exists err. split; [done|]. split; [done|]. split; [done|].
      split; [|done]. intros ->.
      destruct (Nat.eq_dec (Uss.currently_wrote c1) (length (data (Uss.write_b c))))
        as [|Hne]; [done|].
      exfalso. assert (Hin : Uss.Send_err 0 ∈ ks) by (apply Hsome; lia).
      rewrite Forall_forall in Hks. by apply (Hks _ Hin).
Qed.

Lemma send_posted (c : Uss.uss_connection_t) (d : list Z) (w : bool) :
  data (Uss.write_b (Uss.unix_socket_server_send c d w)) = d
  /\ Uss.currently_wrote (Uss.unix_socket_server_send c d w) = 0%nat
  /\ Uss.write_job (Uss.unix_socket_server_send c d w) = true
  /\ Uss.has_writer (Uss.unix_socket_server_send c d w) = w.
Proof.
  unfold Uss.unix_socket_server_send, Uss.memcpy, buffer_realloc.
  cbn [Uss.write_b Uss.currently_wrote Uss.write_job Uss.has_writer data].
  split; [|done]. rewrite firstn_all, drop_ge, app_nil_r; [done|].
  rewrite length_app, length_take, repeat_length. lia.
Qed.

(** X20. [unix_socket_server_send], [data_may_be_sent]: at every moment
    after a send was posted, over any number of wake-ups, partial sends,
    interrupted calls and errors, the bytes handed to the kernel are the
    first [currently_wrote] bytes of the data given, in their order: none
    is sent twice, skipped or taken from elsewhere.  The read side of the
    connection is not touched. *)
Theorem sent_is_prefix (c c' : Uss.uss_connection_t) (d : list Z) (w : bool)
    (n : nat) (ks ks' : list Uss.send_result) :
  Forall Uss.errno_set_send ks ->
  Uss.writes n (Uss.unix_socket_server_send c d w) ks = Some (c', ks') ->
  data (Uss.write_b c') = d
  /\ (Uss.currently_wrote c' <= length d)%nat
  /\ Uss.wire_out c' = Uss.wire_out c ++ take (Uss.currently_wrote c') d
  /\ Uss.read_b c' = Uss.read_b c /\ Uss.currently_read c' = Uss.currently_read c
  /\ Uss.wire_in c' = Uss.wire_in c /\ Uss.read_job c' = Uss.read_job c.
Proof.
  intros Hks H.
  destruct (send_posted c d w) as (Hd & Hw & Hj & Hhw).
  assert (Hle0 : (Uss.currently_wrote (Uss.unix_socket_server_send c d w)
                  <= length (data (Uss.write_b (Uss.unix_socket_server_send c d w))))%nat)
    by (rewrite Hw; lia).
  assert (Hwire0 : Uss.wire_out (Uss.unix_socket_server_send c d w)
                   = Uss.wire_out c
                     ++ take (Uss.currently_wrote (Uss.unix_socket_server_send c d w))
                          (data (Uss.write_b (Uss.unix_socket_server_send c d w))))
    by (rewrite Hw, take_0, app_nil_r; reflexivity).
  destruct (writes_spec n _ c' ks ks' (Uss.wire_out c) Hle0 Hwire0 Hj Hks H)
    as (Hb & Hle & Hwire & Hrest & _).
  rewrite Hd in *. rewrite Hb, Hd.
  destruct Hrest as (H1 & H2 & H3 & _ & H5 & _). done.
Qed.

(** X21. [data_may_be_sent]: the writer of a send is called at most once,
    and exactly when the write job is removed.  While the job is posted
    (the kernel answered [EAGAIN] with bytes left) nothing is called; when
    it is removed the writer, if there is one, gets an error number that is
    zero exactly when all the bytes were sent, and never [EINTR] or
    [EAGAIN]. *)
Theorem writer_called_once (c c' : Uss.uss_connection_t) (d : list Z) (w : bool)
    (n : nat) (ks ks' : list Uss.send_result) :
  Forall Uss.errno_set_send ks ->
  Uss.writes n (Uss.unix_socket_server_send c d w) ks = Some (c', ks') ->
  if Uss.write_job c'
  then Uss.called c' = Uss.called c
       /\ (n = 0%nat \/ (Uss.currently_wrote c' < length d)%nat)
  else exists err,
         Uss.called c' = Uss.called c ++ (if w then [Uss.Writer_called err] else [])
         /\ err <> Uss.EINTR /\ err <> Uss.EAGAIN
         /\ (err = 0 <-> Uss.currently_wrote c' = length d).
Proof.
  intros Hks H.
  destruct (send_posted c d w) as (Hd & Hw & Hj & Hhw).
  assert (Hle0 : (Uss.currently_wrote (Uss.unix_socket_server_send c d w)
                  <= length (data (Uss.write_b (Uss.unix_socket_server_send c d w))))%nat)
    by (rewrite Hw; lia).
  assert (Hwire0 : Uss.wire_out (Uss.unix_socket_server_send c d w)
                   = Uss.wire_out c
                     ++ take (Uss.currently_wrote (Uss.unix_socket_server_send c d w))
                          (data (Uss.write_b (Uss.unix_socket_server_send c d w))))
    by (rewrite Hw, take_0, app_nil_r; reflexivity).
  destruct (writes_spec n _ c' ks ks' (Uss.wire_out c) Hle0 Hwire0 Hj Hks H)
    as (_ & _ & _ & _ & Hfin).
  rewrite Hd, Hhw in Hfin. exact Hfin.
Qed.

Lemma send_loop_complete (ks : list Uss.send_result) (buf : list Z)
    (wrote to_write : nat) (wire : list Z) :
  Forall Uss.only_eintr_send ks -> Uss.taken ks = to_write ->
  exists ks',
    Uss.send_loop ks buf wrote to_write wire
    = Some ((wrote + to_write)%nat, 0%nat, 0, wire ++ take to_write (drop wrote buf), ks').
Proof.
  intros Hks. revert wrote to_write wire.
  induction Hks as [|k ks Hk Hks IH]; intros wrote to_write wire Ht.
  - cbn in Ht. subst to_write. exists []. cbn [Uss.send_loop Nat.eqb].
    by rewrite Nat.add_0_r, take_0, app_nil_r.
  - cbn [Uss.send_loop]. destruct (Nat.eqb_spec to_write 0) as [->|Hne].
    { eexists. by rewrite Nat.add_0_r, take_0, app_nil_r. }
    destruct k as [n|e].
    + cbn [Uss.taken foldr] in Ht. fold (Uss.taken ks) in Ht.
      destruct (Nat.ltb_spec to_write n) as [|_]; [lia|].
      destruct (IH (wrote + n)%nat (to_write - n)%nat (wire ++ take n (drop wrote buf)))
        as (ks' & ->); [lia|].
      exists ks'.
      replace (wrote + n + (to_write - n))%nat with (wrote + to_write)%nat by lia.
      rewrite <- app_assoc.
      replace (take n (drop wrote buf) ++ take (to_write - n) (drop (wrote + n) buf))
        with (take to_write (drop wrote buf)); [reflexivity|].
      replace to_write with (n + (to_write - n))%nat at 1 by lia.
      by rewrite take_plus, drop_drop.
    + cbn in Hk. subst e. cbn [Uss.taken foldr] in Ht. fold (Uss.taken ks) in Ht.
      rewrite Z.eqb_refl. by apply IH.
Qed.

(** X22. [data_may_be_sent]: when the kernel takes the bytes, in whatever
    pieces and with whatever number of interrupted calls in between, one
    wake-up sends all of the data, removes the job and calls the writer with
    the error number zero. *)
Theorem send_completes (c : Uss.uss_connection_t) (d : list Z) (w : bool)
    (ks : list Uss.send_result) :
  Forall Uss.only_eintr_send ks -> Uss.taken ks = length d ->
  exists c' ks',
    Uss.data_may_be_sent (Uss.unix_socket_server_send c d w) ks = Some (c', ks')
    /\ Uss.wire_out c' = Uss.wire_out c ++ d
    /\ Uss.currently_wrote c' = length d
    /\ Uss.write_job c' = false
    /\ Uss.called c' = Uss.called c ++ (if w then [Uss.Writer_called 0] else []).
Proof.
  intros Hks Ht.
  destruct (send_posted c d w) as (Hd & Hw & Hj & Hhw).
  unfold Uss.data_may_be_sent, user_size. rewrite Hd, Hw, Hhw, Nat.sub_0_r.
  destruct (send_loop_complete ks d 0 (length d)
              (Uss.wire_out (Uss.unix_socket_server_send c d w)) Hks Ht) as (ks' & ->).
  eexists _, ks'. split; [reflexivity|].
  cbn [Uss.wire_out Uss.currently_wrote Uss.write_job Uss.called Nat.eqb negb andb
       Nat.add drop Uss.unix_socket_server_send].
  rewrite firstn_all. repeat split; try done.
  destruct w; by rewrite ?app_nil_r.
Qed.


Lemma recv_loop_spec (ks : list Uss.recv_result) (A B : list Z)
    (at_ read to_read : nat) (eof : bool) (wire : list Z)
    (buf' : list Z) (read' to_read' : nat) (eof' : bool) (err : Z) (wire' : list Z)
    (ks' : list Uss.recv_result) :
  length A = (at_ + read)%nat -> length B = to_read ->
  Uss.recv_loop ks (A ++ B) at_ read to_read eof wire
  = Some (buf', read', to_read', eof', err, wire', ks') ->
  exists got pre,
    ks = pre ++ ks' /\ wire' = wire ++ got
    /\ buf' = A ++ got ++ drop (length got) B
    /\ read' = (read + length got)%nat /\ (to_read' + length got = to_read)%nat
    /\ (to_read' = 0%nat \/ eof' = true -> err = 0)
    /\ (to_read' <> 0%nat -> eof' = false ->
        err <> Uss.EINTR /\ Uss.Recv_err err ∈ ks).
Proof.
  revert A B read to_read eof wire.
  assert (Hstop : forall (ks : list Uss.recv_result) A B read to_read eof wire,
             (to_read =? 0)%nat || eof = true ->
             Some (A ++ B, read, to_read, eof, 0, wire, ks)
             = Some (buf', read', to_read', eof', err, wire', ks') ->
             exists got pre,
               ks = pre ++ ks' /\ wire' = wire ++ got
               /\ buf' = A ++ got ++ drop (length got) B
               /\ read' = (read + length got)%nat
               /\ (to_read' + length got = to_read)%nat
               /\ (to_read' = 0%nat \/ eof' = true -> err = 0)
               /\ (to_read' <> 0%nat -> eof' = false ->
                   err <> Uss.EINTR /\ Uss.Recv_err err ∈ ks)).
  { intros ks0 A B read to_read eof wire Hc H. injection H as <- <- <- <- <- <- <-.
    exists [], []. cbn [length app drop]. rewrite app_nil_r, !Nat.add_0_r.
    do 6 (split; [done|]). intros Hn He. rewrite He, orb_false_r in Hc.
    apply Nat.eqb_eq in Hc. done. }
  induction ks as [|k ks IH]; intros A B read to_read eof wire HA HB H;
    cbn [Uss.recv_loop] in H.
  - destruct ((to_read =? 0)%nat || eof) eqn:Hc; [|done]. by eapply Hstop.
  - destruct ((to_read =? 0)%nat || eof) eqn:Hc; [by eapply Hstop|].
    destruct k as [d|e].
    + destruct (Nat.ltb_spec to_read (length d)) as [|Hle]; [done|].
      assert (Hbuf : take (at_ + read) (A ++ B) ++ d
                     ++ drop (at_ + read + length d) (A ++ B)
                     = (A ++ d) ++ drop (length d) B).
      { rewrite <- HA, take_app_length, drop_app_add'; [|done].
        by rewrite <- app_assoc. }
      rewrite Hbuf in H.
      apply IH in H as (got & pre & Hpre & Hwire & Hb & Hr & Ht & Hz & Hnz).
      * exists (d ++ got), (Uss.Recv_ok d :: pre). rewrite length_app.
        split; [by rewrite Hpre|]. split; [by rewrite Hwire, <- app_assoc|].
        split; [by rewrite Hb, <- !app_assoc, drop_drop|].
        split; [lia|]. split; [lia|]. split; [done|].
        intros Hn He. destruct (Hnz Hn He) as [H1 H2]. split; [done|by right].
      * rewrite length_app. lia.
      * rewrite length_drop. lia.
    + destruct (Z.eqb_spec e Uss.EINTR) as [->|Hne].
      * apply IH in H as (got & pre & Hpre & Hwire & Hb & Hr & Ht & Hz & Hnz);
          [|done|done].
        exists got, (Uss.Recv_err Uss.EINTR :: pre).
        split; [by rewrite Hpre|]. repeat split; try done.
        -- by apply Hnz.
        -- right. by apply Hnz.
      * injection H as <- <- <- <- <- <- <-.
        exists [], [Uss.Recv_err e]. cbn [length app drop].
        rewrite app_nil_r, !Nat.add_0_r. repeat split; try done.
        -- intros [Hz|He]; [by rewrite Hz in Hc|by rewrite He, orb_true_r in Hc].
        -- by left.
Qed.

(** One wake-up of the read job. *)
Lemma data_may_be_read_spec (c c' : Uss.uss_connection_t) (pending : Z)
    (ks ks' : list Uss.recv_result) :
  (offset (Uss.read_b c) + Uss.currently_read c <= length (data (Uss.read_b c)))%nat ->
  Uss.data_may_be_read c pending ks = Some (c', ks') ->
  exists got pre,
    ks = pre ++ ks' /\ Uss.wire_in c' = Uss.wire_in c ++ got
    /\ data (Uss.read_b c')
       = take (offset (Uss.read_b c) + Uss.currently_read c) (data (Uss.read_b c))
         ++ got
         ++ drop (offset (Uss.read_b c) + Uss.currently_read c + length got)
              (data (Uss.read_b c))
    /\ offset (Uss.read_b c') = offset (Uss.read_b c)
    /\ Uss.currently_read c' = (Uss.currently_read c + length got)%nat
    /\ (offset (Uss.read_b c) + Uss.currently_read c + length got
        <= length (data (Uss.read_b c)))%nat
    /\ (Uss.write_b c' = Uss.write_b c /\ Uss.currently_wrote c' = Uss.currently_wrote c
        /\ Uss.wire_out c' = Uss.wire_out c /\ Uss.write_job c' = Uss.write_job c
        /\ Uss.has_writer c' = Uss.has_writer c /\ Uss.has_reader c' = Uss.has_reader c)
    /\ ((Uss.read_job c' = Uss.read_job c /\ Uss.called c' = Uss.called c
         /\ (offset (Uss.read_b c) + Uss.currently_read c'
             < length (data (Uss.read_b c)))%nat)
        \/ (Uss.read_job c' = false
            /\ exists err,
                 Uss.called c'
                 = Uss.called c
                   ++ (if Uss.has_reader c then [Uss.Reader_called err] else [])
                 /\ err <> Uss.EINTR /\ err <> Uss.EAGAIN
                 /\ (Uss.ussc_eof c' = true -> err = 0)
                 /\ ((offset (Uss.read_b c) + Uss.currently_read c'
                      = length (data (Uss.read_b c)))%nat -> err = 0)
                 /\ (Uss.ussc_eof c' = false ->
                     (offset (Uss.read_b c) + Uss.currently_read c'
                      < length (data (Uss.read_b c)))%nat ->
                     Uss.Recv_err err ∈ ks))).
Proof.
  intros Hle H. unfold Uss.data_may_be_read, user_size in H.
  destruct (Z.eqb_spec pending 0) as [_|_].
  { injection H as <- <-. exists [], [].
    cbn [Uss.read_done Uss.set_eof Uss.wire_in Uss.read_b Uss.currently_read
         Uss.write_b Uss.currently_wrote Uss.wire_out Uss.write_job Uss.has_writer
         Uss.has_reader Uss.read_job Uss.called Uss.ussc_eof length app].
    rewrite !Nat.add_0_r, app_nil_r, take_drop.
    repeat split; try done. right. split; [done|]. exists 0.
    split; [by destruct (Uss.has_reader c); rewrite ?app_nil_r|]. done. }
  set (o := offset (Uss.read_b c)) in *. set (r := Uss.currently_read c) in *.
  set (buf := data (Uss.read_b c)) in *.
  rewrite <- (take_drop (o + r) buf) in H at 1.
  destruct (Uss.recv_loop ks _ o r _ false _)
    as [[[[[[[buf' read'] to_read'] eof'] err] wire'] ks1]|] eqn:Hl; [|done].
  apply recv_loop_spec in Hl
    as (got & pre & Hpre & Hwire & Hb & Hr & Ht & Hz & Hnz);
    [|rewrite length_take; lia|rewrite length_drop; lia].
  rewrite drop_drop in Hb.
  assert (Hcb : forall e : Z,
            (if Uss.has_reader c then Uss.called c ++ [Uss.Reader_called e]
             else Uss.called c)
            = Uss.called c ++ (if Uss.has_reader c then [Uss.Reader_called e] else [])).
  { intros e. by destruct (Uss.has_reader c); rewrite ?app_nil_r. }
  destruct eof'.
  - injection H as <- <-. exists got, pre. split; [done|].
    cbn [Uss.read_done Uss.wire_in Uss.read_b Uss.currently_read Uss.write_b
         Uss.currently_wrote Uss.wire_out Uss.write_job Uss.has_writer Uss.has_reader
         Uss.read_job Uss.called Uss.ussc_eof data offset].
    split; [done|]. split; [done|]. split; [done|]. split; [done|]. split; [lia|].
    split; [done|]. right. split; [done|].
    exists err. rewrite (Hz (or_intror eq_refl)). split; [apply Hcb|]. done.
  - destruct (Nat.eqb_spec to_read' 0) as [Hz0|Hnz0]; cbn [negb andb] in H.
    + injection H as <- <-. exists got, pre. split; [done|].
      cbn [Uss.read_done Uss.wire_in Uss.read_b Uss.currently_read Uss.write_b
           Uss.currently_wrote Uss.wire_out Uss.write_job Uss.has_writer Uss.has_reader
           Uss.read_job Uss.called Uss.ussc_eof data offset].
      split; [done|]. split; [done|]. split; [done|]. split; [done|]. split; [lia|].
      split; [done|]. right. split; [done|].
      exists err. rewrite (Hz (or_introl Hz0)). split; [apply Hcb|].
      split; [done|]. split; [done|]. split; [done|]. split; [done|]. lia.
    + destruct (Hnz Hnz0 eq_refl) as [He Hin].
      destruct (Z.eqb_spec err Uss.EAGAIN) as [->|Hna].
      * injection H as <- <-. exists got, pre. split; [done|].
        cbn [Uss.read_done Uss.wire_in Uss.read_b Uss.currently_read Uss.write_b
             Uss.currently_wrote Uss.wire_out Uss.write_job Uss.has_writer
             Uss.has_reader Uss.read_job Uss.called Uss.ussc_eof data offset].
        split; [done|]. split; [done|]. split; [done|]. split; [done|]. split; [lia|].
        split; [done|]. left. split; [done|]. split; [done|]. lia.
      * injection H as <- <-. exists got, pre. split; [done|].
        cbn [Uss.read_done Uss.wire_in Uss.read_b Uss.currently_read Uss.write_b
             Uss.currently_wrote Uss.wire_out Uss.write_job Uss.has_writer
             Uss.has_reader Uss.read_job Uss.called Uss.ussc_eof data offset].
        split; [done|]. split; [done|]. split; [done|]. split; [done|]. split; [lia|].
        split; [done|]. right. split; [done|]. exists err. split; [apply Hcb|].
        split; [done|]. split; [done|]. split; [done|]. split; [lia|done].
Qed.

Lemma recv_posted (c : Uss.uss_connection_t) (sz : nat) (r : bool) :
  exists tail,
    length tail = sz
    /\ data (Uss.read_b (Uss.unix_socket_server_recv c sz r)) = data (Uss.read_b c) ++ tail
    /\ offset (Uss.read_b (Uss.unix_socket_server_recv c sz r))
       = length (data (Uss.read_b c))
    /\ Uss.currently_read (Uss.unix_socket_server_recv c sz r) = 0%nat
    /\ Uss.read_job (Uss.unix_socket_server_recv c sz r) = true
    /\ Uss.has_reader (Uss.unix_socket_server_recv c sz r) = r.
Proof.
  exists (repeat 0 sz). rewrite repeat_length. split; [done|].
  unfold Uss.unix_socket_server_recv, buffer_realloc, set_offset, user_size.
  cbn [Uss.read_b Uss.currently_read Uss.read_job Uss.has_reader data offset].
  split; [|done]. rewrite take_ge by lia. f_equal. f_equal. lia.
Qed.

Lemma reads_spec (ps : list Z) (c c' : Uss.uss_connection_t)
    (ks ks' : list Uss.recv_result) (old tail got0 win0 : list Z) :
  data (Uss.read_b c) = old ++ got0 ++ tail ->
  offset (Uss.read_b c) = length old -> Uss.currently_read c = length got0 ->
  Uss.wire_in c = win0 ++ got0 ->
  Uss.read_job c = true ->
  Forall Uss.errno_set_recv ks ->
  Uss.reads ps c ks = Some (c', ks') ->
  exists got,
    Uss.wire_in c' = win0 ++ got
    /\ data (Uss.read_b c') = old ++ got ++ drop (length got - length got0) tail
    /\ (length got0 <= length got <= length got0 + length tail)%nat
    /\ offset (Uss.read_b c') = length old
    /\ Uss.currently_read c' = length got
    /\ (Uss.write_b c' = Uss.write_b c /\ Uss.currently_wrote c' = Uss.currently_wrote c
        /\ Uss.wire_out c' = Uss.wire_out c /\ Uss.write_job c' = Uss.write_job c
        /\ Uss.has_writer c' = Uss.has_writer c /\ Uss.has_reader c' = Uss.has_reader c)
    /\ (if Uss.read_job c'
        then Uss.called c' = Uss.called c
             /\ (ps = [] \/ (length got < length got0 + length tail)%nat)
        else exists err,
               Uss.called c'
               = Uss.called c
                 ++ (if Uss.has_reader c then [Uss.Reader_called err] else [])
               /\ err <> Uss.EINTR /\ err <> Uss.EAGAIN
               /\ (Uss.ussc_eof c' = true -> err = 0)
               /\ (Uss.ussc_eof c' = false ->
                   (err = 0 <-> length got = (length got0 + length tail)%nat))).
Proof.
  revert c ks got0 tail.
  induction ps as [|pending ps IH]; intros c ks got0 tail Hdata Hoff Hread Hwin Hjob Hks H.
  - injection H as <- <-. exists got0. rewrite Nat.sub_diag, Hjob. cbn [drop].
    repeat split; try done; try lia. by left.
  - cbn [Uss.reads] in H. rewrite Hjob in H.
    destruct (Uss.data_may_be_read c pending ks) as [[c1 ks1]|] eqn:Hd; [|done].
    assert (Hle : (offset (Uss.read_b c) + Uss.currently_read c
                   <= length (data (Uss.read_b c)))%nat).
    { rewrite Hdata, Hoff, Hread, !length_app. lia. }
    destruct (data_may_be_read_spec _ _ _ _ _ Hle Hd)
      as (got & pre & Hpre & Hw1 & Hb1 & Ho1 & Hr1 & Hle1 & Hrest & Hcase).
    rewrite Hdata, Hoff, Hread in *. rewrite !length_app in Hle1.
    assert (Hks1 : Forall Uss.errno_set_recv ks1).
    { rewrite Hpre in Hks. by apply Forall_app in Hks as [_ Hks]. }
    assert (Hdata1 : data (Uss.read_b c1) = old ++ (got0 ++ got) ++ drop (length got) tail).
    { rewrite Hb1, <- (length_app old got0), (app_assoc old got0 tail), take_app_length.
      rewrite drop_app_add' by done. by rewrite <- !app_assoc. }
    assert (Hwin1 : Uss.wire_in c1 = win0 ++ got0 ++ got).
    { by rewrite Hw1, Hwin, <- app_assoc. }
    assert (Hread1 : Uss.currently_read c1 = length (got0 ++ got)).
    { by rewrite Hr1, length_app. }
    destruct Hcase as [(Hj & Hc & Hlt)|(Hj & err & Hc & He1 & He2 & Heof & Hall & Hsome)].
    + assert (Hjob1 : Uss.read_job c1 = true) by congruence.
      destruct (IH c1 ks1 (got0 ++ got) (drop (length got) tail)
                  Hdata1 Ho1 Hread1 Hwin1 Hjob1 Hks1 H)
        as (got' & Hw' & Hb' & Hlen' & Ho' & Hr' & Hrest' & Hfin).
      rewrite length_app, length_drop in *.
      exists got'. split; [done|]. split.
      { rewrite Hb', drop_drop. do 3 f_equal. lia. }
      split; [lia|]. split; [done|]. split; [done|]. split.
      { destruct Hrest as (? & ? & ? & ? & ? & ?).
        destruct Hrest' as (? & ? & ? & ? & ? & ?). repeat split; congruence. }
      destruct (Uss.read_job c').
      * destruct Hfin as [Hc' Hor]. split; [congruence|]. right.
        destruct Hor as [->|Hlt'].
        -- cbn [Uss.reads] in H. injection H as <- <-.
           rewrite Hr' in Hlt. rewrite ?length_app in Hlt. lia.
        -- lia.
      * destruct Hfin as (err & Hc' & Hn1 & Hn2 & Heof' & Hiff). exists err.
        destruct Hrest as (_ & _ & _ & _ & _ & Hhr).
        rewrite Hc', Hc, Hhr. split; [done|]. split; [done|]. split; [done|].
        split; [done|]. intros He. rewrite (Hiff He). lia.
    + assert (H' : c' = c1 /\ ks' = ks1).
      { destruct ps; cbn [Uss.reads] in H; [by injection H|].
        rewrite Hj in H. by injection H. }
      destruct H' as [-> ->]. rewrite Hj.
      exists (got0 ++ got). rewrite length_app.
      split; [done|]. split.
      { rewrite Hdata1.
        by replace (length got0 + length got - length got0)%nat with (length got) by lia. }
      split; [lia|]. split; [done|]. split; [by rewrite Hread1, length_app|].
      split; [done|].
      exists err. split; [done|]. split; [done|]. split; [done|]. split; [done|].
      intros Hne. rewrite Hr1, !length_app in Hall, Hsome. split.
      * intros ->.
        destruct (Nat.eq_dec (length got0 + length got)%nat
                    (length got0 + length tail)%nat)
          as [|Hneq]; [done|].
        exfalso. assert (Hin : Uss.Recv_err 0 ∈ ks) by (apply Hsome; [done|lia]).
        rewrite Forall_forall in Hks. by apply (Hks _ Hin).
      * intros Heq. apply Hall. lia.
Qed.

(** X23. [unix_socket_server_recv], [data_may_be_read]: at every moment
    after a receive of [sz] bytes was posted, over any number of wake-ups,
    partial reads, interrupted calls and errors, the buffer holds the bytes
    it held before followed by the bytes the kernel delivered, in their
    order; [currently_read] counts them and never exceeds [sz]; the buffer
    has grown by exactly [sz] bytes.  The write side is not touched. *)
Theorem received_is_appended (c c' : Uss.uss_connection_t) (sz : nat) (r : bool)
    (ps : list Z) (ks ks' : list Uss.recv_result) :
  Forall Uss.errno_set_recv ks ->
  Uss.reads ps (Uss.unix_socket_server_recv c sz r) ks = Some (c', ks') ->
  exists got,
    Uss.wire_in c' = Uss.wire_in c ++ got
    /\ take (length (data (Uss.read_b c)) + Uss.currently_read c') (data (Uss.read_b c'))
       = data (Uss.read_b c) ++ got
    /\ Uss.currently_read c' = length got /\ (length got <= sz)%nat
    /\ length (data (Uss.read_b c')) = (length (data (Uss.read_b c)) + sz)%nat
    /\ offset (Uss.read_b c') = length (data (Uss.read_b c))
    /\ Uss.write_b c' = Uss.write_b c /\ Uss.currently_wrote c' = Uss.currently_wrote c
    /\ Uss.wire_out c' = Uss.wire_out c /\ Uss.write_job c' = Uss.write_job c.
Proof.
  intros Hks H.
  destruct (recv_posted c sz r) as (tail & Htail & Hd & Ho & Hr & Hj & Hhr).
  assert (Hd0 : data (Uss.read_b (Uss.unix_socket_server_recv c sz r))
                = data (Uss.read_b c) ++ [] ++ tail) by exact Hd.
  assert (Hw0 : Uss.wire_in (Uss.unix_socket_server_recv c sz r) = Uss.wire_in c ++ [])
    by (by rewrite app_nil_r).
  destruct (reads_spec ps _ c' ks ks' (data (Uss.read_b c)) tail [] (Uss.wire_in c)
              Hd0 Ho Hr Hw0 Hj Hks H)
    as (got & Hw & Hb & Hlen & Ho' & Hr' & Hrest & _).
  cbn [length] in *. rewrite Nat.sub_0_r in Hb.
  exists got. split; [done|]. split.
  { rewrite Hb, Hr', app_assoc, <- length_app. apply take_app_length. }
  split; [done|]. split; [lia|]. split.
  { rewrite Hb, !length_app, length_drop. lia. }
  split; [done|]. destruct Hrest as (H1 & H2 & H3 & H4 & _). done.
Qed.

(** X24. [data_may_be_read]: the reader of a receive is called at most
    once, and exactly when the read job is removed.  While the job is posted
    nothing is called and bytes are still missing; when it is removed the
    reader, if there is one, gets an error number that is never [EINTR] or
    [EAGAIN]: zero at the end of the stream ([eof] set), and otherwise zero
    exactly when all [sz] bytes have arrived. *)
Theorem reader_called_once (c c' : Uss.uss_connection_t) (sz : nat) (r : bool)
    (ps : list Z) (ks ks' : list Uss.recv_result) :
  Forall Uss.errno_set_recv ks ->
  Uss.reads ps (Uss.unix_socket_server_recv c sz r) ks = Some (c', ks') ->
  if Uss.read_job c'
  then Uss.called c' = Uss.called c
       /\ (ps = [] \/ (Uss.currently_read c' < sz)%nat)
  else exists err,
         Uss.called c' = Uss.called c ++ (if r then [Uss.Reader_called err] else [])
         /\ err <> Uss.EINTR /\ err <> Uss.EAGAIN
         /\ (Uss.ussc_eof c' = true -> err = 0)
         /\ (Uss.ussc_eof c' = false -> (err = 0 <-> Uss.currently_read c' = sz)).
Proof.
  intros Hks H.
  destruct (recv_posted c sz r) as (tail & Htail & Hd & Ho & Hr & Hj & Hhr).
  assert (Hd0 : data (Uss.read_b (Uss.unix_socket_server_recv c sz r))
                = data (Uss.read_b c) ++ [] ++ tail) by exact Hd.
  assert (Hw0 : Uss.wire_in (Uss.unix_socket_server_recv c sz r) = Uss.wire_in c ++ [])
    by (by rewrite app_nil_r).
  destruct (reads_spec ps _ c' ks ks' (data (Uss.read_b c)) tail [] (Uss.wire_in c)
              Hd0 Ho Hr Hw0 Hj Hks H)
    as (got & _ & _ & _ & _ & Hr' & _ & Hfin).
  cbn [length Nat.add] in Hfin. rewrite Htail, Hhr, <- Hr' in Hfin. exact Hfin.
Qed.

Lemma stored_cons_ok (d : list Z) (ks : list Uss.recv_result) :
  Uss.stored (Uss.Recv_ok d :: ks) = d ++ Uss.stored ks.
Proof. reflexivity. Qed.

Lemma stored_cons_err (e : Z) (ks : list Uss.recv_result) :
  Uss.stored (Uss.Recv_err e :: ks) = Uss.stored ks.
Proof. reflexivity. Qed.

Lemma recv_loop_complete (ks : list Uss.recv_result) (A B : list Z)
    (at_ read : nat) (wire : list Z) :
  Forall Uss.only_eintr_recv ks -> length (Uss.stored ks) = length B ->
  length A = (at_ + read)%nat ->
  exists ks',
    Uss.recv_loop ks (A ++ B) at_ read (length B) false wire
    = Some (A ++ Uss.stored ks, (read + length B)%nat, 0%nat, false, 0,
            wire ++ Uss.stored ks, ks').
Proof.
  intros Hks. revert A B read wire.
  induction Hks as [|k ks Hk Hks IH]; intros A B read wire Hlen HA.
  - cbn in Hlen. destruct B; [|done]. exists []. cbn [Uss.recv_loop length Nat.eqb orb].
    unfold Uss.stored. cbn [map concat]. by rewrite Nat.add_0_r, !app_nil_r.
  - cbn [Uss.recv_loop]. destruct (Nat.eqb_spec (length B) 0) as [Hz|Hnz]; cbn [orb].
    { destruct B; [|done]. cbn [length] in Hlen. apply nil_length_inv in Hlen.
      rewrite Hlen. eexists. cbn [length]. by rewrite Nat.add_0_r, !app_nil_r. }
    destruct k as [d|e].
    + cbn in Hk. rewrite stored_cons_ok, length_app in Hlen. rewrite stored_cons_ok.
      destruct (Nat.ltb_spec (length B) (length d)) as [|_]; [lia|].
      assert (Hd : (length d =? 0)%nat = false).
      { apply Nat.eqb_neq. destruct d; [done|cbn [length]; lia]. }
      rewrite Hd.
      assert (Hbuf : take (at_ + read) (A ++ B) ++ d
                     ++ drop (at_ + read + length d) (A ++ B)
                     = (A ++ d) ++ drop (length d) B).
      { rewrite <- HA, take_app_length, drop_app_add'; [|done].
        by rewrite <- app_assoc. }
      rewrite Hbuf.
      replace (length B - length d)%nat with (length (drop (length d) B))
        by (rewrite length_drop; lia).
      destruct (IH (A ++ d) (drop (length d) B) (read + length d)%nat (wire ++ d))
        as (ks' & ->).
      * rewrite length_drop. lia.
      * rewrite length_app. lia.
      * exists ks'. rewrite length_drop, <- !app_assoc.
        by replace (read + length d + (length B - length d))%nat
          with (read + length B)%nat by lia.
    + cbn in Hk. subst e. rewrite stored_cons_err in *. rewrite Z.eqb_refl.
      by apply IH.
Qed.

(** X25. [data_may_be_read]: when the kernel has data pending and delivers
    [sz] bytes, in whatever non-empty pieces and with whatever number of
    interrupted calls in between, one wake-up stores them all behind the
    earlier content of the buffer, removes the job and calls the reader with
    the error number zero and [eof] unset. *)
Theorem recv_completes (c : Uss.uss_connection_t) (sz : nat) (r : bool)
    (pending : Z) (ks : list Uss.recv_result) :
  pending <> 0 -> Forall Uss.only_eintr_recv ks -> length (Uss.stored ks) = sz ->
  exists c' ks',
    Uss.data_may_be_read (Uss.unix_socket_server_recv c sz r) pending ks = Some (c', ks')
    /\ data (Uss.read_b c') = data (Uss.read_b c) ++ Uss.stored ks
    /\ Uss.wire_in c' = Uss.wire_in c ++ Uss.stored ks
    /\ Uss.currently_read c' = sz
    /\ Uss.ussc_eof c' = false /\ Uss.read_job c' = false
    /\ Uss.called c' = Uss.called c ++ (if r then [Uss.Reader_called 0] else []).
Proof.
  intros Hp Hks Hlen.
  destruct (recv_posted c sz r) as (tail & Htail & Hd & Ho & Hr & Hj & Hhr).
  unfold Uss.data_may_be_read, user_size.
  destruct (Z.eqb_spec pending 0) as [|_]; [done|].
  rewrite Hd, Ho, Hr, Hhr, length_app, Nat.sub_0_r.
  replace (length (data (Uss.read_b c)) + length tail - length (data (Uss.read_b c)))%nat
    with (length tail) by lia.
  destruct (recv_loop_complete ks (data (Uss.read_b c)) tail
              (length (data (Uss.read_b c))) 0
              (Uss.wire_in (Uss.unix_socket_server_recv c sz r)) Hks)
    as (ks' & ->); [lia|lia|].
  eexists _, ks'. split; [reflexivity|].
  cbn [Uss.read_done Uss.read_b Uss.wire_in Uss.currently_read Uss.ussc_eof
       Uss.read_job Uss.called Uss.has_reader data Nat.eqb negb andb Nat.add
       Uss.unix_socket_server_recv].
  repeat split; try done. destruct r; by rewrite ?app_nil_r.
Qed.


Lemma hello_answers_errno : Forall Uss.errno_set_send hello_answers.
Proof.
  unfold hello_answers.
  repeat (apply Forall_cons_2; [discriminate|]). apply Forall_nil_2.
Qed.

Lemma four_answers_errno : Forall Uss.errno_set_recv four_answers.
Proof.
  unfold four_answers.
  repeat (apply Forall_cons_2; [discriminate|]). apply Forall_nil_2.
Qed.

Lemma sent_is_prefix_witness :
  exists c' ks',
    Uss.writes 2 hello_posted hello_answers = Some (c', ks')
    /\ data (Uss.write_b c') = bytes "hello"
    /\ Uss.wire_out c' = Uss.wire_out Uss.accepted
                         ++ take (Uss.currently_wrote c') (bytes "hello").
Proof.
  destruct (Uss.writes 2 hello_posted hello_answers) as [[c' ks']|] eqn:H;
    [|vm_compute in H; discriminate].
  exists c', ks'. split; [reflexivity|].
  destruct (sent_is_prefix Uss.accepted c' (bytes "hello") true 2 hello_answers ks'
              hello_answers_errno H) as (H1 & _ & H3 & _).
  split; [exact H1|exact H3].
Defined.

Lemma writer_called_once_witness :
  exists c' ks',
    Uss.writes 2 hello_posted hello_answers = Some (c', ks')
    /\ if Uss.write_job c'
       then Uss.called c' = Uss.called Uss.accepted
            /\ (2 = 0 \/ Uss.currently_wrote c' < length (bytes "hello"))%nat
       else exists err,
              Uss.called c' = Uss.called Uss.accepted ++ [Uss.Writer_called err]
              /\ err <> Uss.EINTR /\ err <> Uss.EAGAIN
              /\ (err = 0 <-> Uss.currently_wrote c' = length (bytes "hello")).
Proof.
  destruct (Uss.writes 2 hello_posted hello_answers) as [[c' ks']|] eqn:H;
    [|vm_compute in H; discriminate].
  exists c', ks'. split; [reflexivity|].
  exact (writer_called_once Uss.accepted c' (bytes "hello") true 2 hello_answers ks'
           hello_answers_errno H).
Defined.

Lemma send_completes_witness :
  exists c' ks',
    Uss.data_may_be_sent hello_posted
      [Uss.Send_ok 2; Uss.Send_err Uss.EINTR; Uss.Send_ok 3] = Some (c', ks')
    /\ Uss.wire_out c' = Uss.wire_out Uss.accepted ++ bytes "hello"
    /\ Uss.currently_wrote c' = length (bytes "hello")
    /\ Uss.write_job c' = false
    /\ Uss.called c' = Uss.called Uss.accepted ++ [Uss.Writer_called 0].
Proof.
  apply (send_completes Uss.accepted (bytes "hello") true
           [Uss.Send_ok 2; Uss.Send_err Uss.EINTR; Uss.Send_ok 3]).
  - apply Forall_cons_2; [exact I|]. apply Forall_cons_2; [reflexivity|].
    apply Forall_cons_2; [exact I|apply Forall_nil_2].
  - reflexivity.
Defined.

Lemma received_is_appended_witness :
  exists c' ks' got,
    Uss.reads [2; 2] four_posted four_answers = Some (c', ks')
    /\ Uss.wire_in c' = Uss.wire_in Uss.accepted ++ got
    /\ take (length (data (Uss.read_b Uss.accepted)) + Uss.currently_read c')
         (data (Uss.read_b c'))
       = data (Uss.read_b Uss.accepted) ++ got
    /\ Uss.currently_read c' = length got.
Proof.
  destruct (Uss.reads [2; 2] four_posted four_answers) as [[c' ks']|] eqn:H;
    [|vm_compute in H; discriminate].
  destruct (received_is_appended Uss.accepted c' 4 true [2; 2] four_answers ks'
              four_answers_errno H) as (got & H1 & H2 & H3 & _).
  exists c', ks', got. split; [reflexivity|]. split; [exact H1|].
  split; [exact H2|exact H3].
Defined.

Lemma reader_called_once_witness :
  exists c' ks',
    Uss.reads [2; 2] four_posted four_answers = Some (c', ks')
    /\ if Uss.read_job c'
       then Uss.called c' = Uss.called Uss.accepted
            /\ ([2; 2] = [] \/ (Uss.currently_read c' < 4)%nat)
       else exists err,
              Uss.called c' = Uss.called Uss.accepted ++ [Uss.Reader_called err]
              /\ err <> Uss.EINTR /\ err <> Uss.EAGAIN
              /\ (Uss.ussc_eof c' = true -> err = 0)
              /\ (Uss.ussc_eof c' = false -> (err = 0 <-> Uss.currently_read c' = 4%nat)).
Proof.
  destruct (Uss.reads [2; 2] four_posted four_answers) as [[c' ks']|] eqn:H;
    [|vm_compute in H; discriminate].
  exists c', ks'. split; [reflexivity|].
  exact (reader_called_once Uss.accepted c' 4 true [2; 2] four_answers ks'
           four_answers_errno H).
Defined.

Lemma recv_completes_witness :
  exists c' ks',
    Uss.data_may_be_read four_posted 4
      [Uss.Recv_ok [1; 2]; Uss.Recv_err Uss.EINTR; Uss.Recv_ok [3; 4]] = Some (c', ks')
    /\ data (Uss.read_b c') = data (Uss.read_b Uss.accepted) ++ [1; 2; 3; 4]
    /\ Uss.ussc_eof c' = false
    /\ Uss.called c' = Uss.called Uss.accepted ++ [Uss.Reader_called 0].
Proof.
  destruct (recv_completes Uss.accepted 4 true 4
              [Uss.Recv_ok [1; 2]; Uss.Recv_err Uss.EINTR; Uss.Recv_ok [3; 4]])
    as (c' & ks' & H & H1 & _ & _ & H4 & _ & H6).
  - discriminate.
  - apply Forall_cons_2; [discriminate|]. apply Forall_cons_2; [reflexivity|].
    apply Forall_cons_2; [discriminate|apply Forall_nil_2].
  - reflexivity.
  - exists c', ks'. split; [exact H|]. split; [exact H1|]. split; [exact H4|exact H6].
Defined.


(** ** Frames from the signature byte on *)

Section FlowFacts.
Context `{cfg : Config}.

Lemma reader_signature_step (sd : shell_driver_t) (out : list Z) :
  eof (sd_usc sd) = false ->
  reader_signature sd 0 out
  = let s := nth 0 (data (read_task_b (sd_usc sd))) 0 in
    let sd' := sd_set_read_offset sd sizeof_pr_signature_t in
    if s =? PR_DRV_INFO then
      (unix_socket_client_recv sd' 2 Reader_info, out)
    else if s =? PR_DRV_RESPONSE then
      (unix_socket_client_recv sd' 4 Reader_response, out)
    else (unix_socket_client_reconnect sd', out).
Proof.
  intros Heof. unfold reader_signature, READ_ERROR_HANDLER.
  cbn [Z.eqb negb]. by rewrite Heof.
Qed.

Lemma reader_info_step (sd : shell_driver_t) (out : list Z) :
  eof (sd_usc sd) = false ->
  reader_info sd 0 out
  = if (user_size (read_task_b (sd_usc sd)) <? info_required sd)%nat
    then (unix_socket_client_recv
            (sd_set_read_offset sd (user_size (read_task_b (sd_usc sd))))
            (info_required sd - user_size (read_task_b (sd_usc sd))) Reader_info, out)
    else (sd_set_commands sd
            (map (read_command_info (data (read_task_b (sd_usc sd))))
                 (seq 0 (Z.to_nat (read_le16 (data (read_task_b (sd_usc sd))) 1)))),
          out).
Proof.
  intros Heof. unfold reader_info, READ_ERROR_HANDLER, info_required.
  cbn [Z.eqb negb]. by rewrite Heof.
Qed.

Lemma reader_response_step (sd : shell_driver_t) (out : list Z) :
  eof (sd_usc sd) = false ->
  reader_response sd 0 out
  = if (user_size (read_task_b (sd_usc sd)) <? response_required sd)%nat
    then (unix_socket_client_recv
            (sd_set_read_offset sd (user_size (read_task_b (sd_usc sd))))
            (response_required sd - user_size (read_task_b (sd_usc sd)))
            Reader_response, out)
    else (sd, out
              ++ printf_prec_s
                   (to_int (read_le32 (data (read_task_b (sd_usc sd))) 1))
                   (drop sizeof_pr_driver_response_t (data (read_task_b (sd_usc sd))))
              ++ NEW_LINE ++ PROMPT).
Proof.
  intros Heof. unfold reader_response, READ_ERROR_HANDLER, response_required.
  cbn [Z.eqb negb]. by rewrite Heof.
Qed.

(** X26. [reader_signature], [reader_info]: an info frame announcing [n > 0]
    commands, received from its signature byte on, takes three calls: the
    shell asks for the two bytes of the count, then for the [161 * n] bytes
    of the descriptors, so for exactly the bytes of the frame, and then
    installs the [n] descriptors of the frame as the catalog, without
    printing. *)
Theorem info_frame_flow (sd : shell_driver_t) (out : list Z) (n : nat)
    (body : list Z) :
  eof (sd_usc sd) = false ->
  data (read_task_b (sd_usc sd)) = [PR_DRV_INFO] ->
  (0 < n)%nat -> Z.of_nat n < 65536 ->
  length body = (sizeof_pr_driver_command_info_t * n)%nat ->
  let frame := [PR_DRV_INFO] ++ le16 (Z.of_nat n) ++ body in
  let sd1 := fst (reader_signature sd 0 out) in
  let sd2 := fst (reader_info (with_more sd1 (le16 (Z.of_nat n))) 0 out) in
  let r3 := reader_info (with_more sd2 body) 0 out in
  calls (sd_usc (fst r3))
  = calls (sd_usc sd)
    ++ [Usc_recv 2 Reader_info; Usc_recv (length body) Reader_info]
  /\ (1 + 2 + length body = length frame)%nat
  /\ data (read_task_b (sd_usc (fst r3))) = frame
  /\ sd_commands (fst r3) = map (read_command_info frame) (seq 0 n)
  /\ snd r3 = out.
Proof.
  intros Heof Hdata Hn Hn16 Hbody frame sd1 sd2 r3.
  assert (H1 : sd1 = unix_socket_client_recv
                       (sd_set_read_offset sd sizeof_pr_signature_t) 2 Reader_info).
  { subst sd1. rewrite reader_signature_step by done. cbn zeta.
    rewrite Hdata. cbn [nth]. by rewrite Z.eqb_refl. }
  assert (Hcount : read_le16 ([PR_DRV_INFO] ++ le16 (Z.of_nat n)) 1 = Z.of_nat n).
  { unfold read_le16, le16. cbn [app nth].
    pose proof (Z.div_mod (Z.of_nat n) 256 ltac:(lia)) as Hdm.
    rewrite (Z.mod_small (Z.of_nat n / 256) 256); [lia|].
    split; [apply Z.div_pos; lia|apply Z.div_lt_upper_bound; lia]. }
  assert (H2 : sd2 = unix_socket_client_recv
                       (sd_set_read_offset (with_more sd1 (le16 (Z.of_nat n))) 3)
                       (length body) Reader_info).
  { subst sd2. rewrite reader_info_step by (by rewrite H1).
    unfold info_required, user_size. rewrite H1.
    cbn [with_more unix_socket_client_recv sd_set_read_offset sd_set_usc usc_call_
         usc_set_read set_offset sd_usc read_task_b data].
    rewrite Hdata, Hcount, Nat2Z.id.
    change (length ([PR_DRV_INFO] ++ le16 (Z.of_nat n))) with 3%nat.
    destruct (Nat.ltb_spec 3 (sizeof_pr_driver_info_t
                               + sizeof_pr_driver_command_info_t * n)) as [_|Hge].
    - cbn [fst]. unfold sizeof_pr_driver_info_t, sizeof_pr_driver_command_info_t in *.
      rewrite Hbody. f_equal. lia.
    - unfold sizeof_pr_driver_info_t, sizeof_pr_driver_command_info_t in Hge. lia. }
  assert (Hframe : data (read_task_b (sd_usc (with_more sd2 body))) = frame).
  { rewrite H2, H1.
    cbn [with_more unix_socket_client_recv sd_set_read_offset sd_set_usc usc_call_
         usc_set_read set_offset sd_usc read_task_b data].
    rewrite Hdata. subst frame. by rewrite <- app_assoc. }
  assert (Hcount' : read_le16 frame 1 = Z.of_nat n).
  { by subst frame. }
  assert (H3 : r3 = (sd_set_commands (with_more sd2 body)
                       (map (read_command_info frame) (seq 0 n)), out)).
  { subst r3. rewrite reader_info_step by (by rewrite H2, H1).
    unfold info_required, user_size. rewrite Hframe, Hcount', Nat2Z.id.
    destruct (Nat.ltb_spec (length frame)
                (sizeof_pr_driver_info_t + sizeof_pr_driver_command_info_t * n))
      as [Hlt|_]; [|reflexivity].
    subst frame. rewrite !length_app, Hbody in Hlt. cbn [length le16] in Hlt.
    unfold sizeof_pr_driver_info_t in Hlt. lia. }
  rewrite H3. cbn [fst snd].
  split.
  { rewrite H2, H1.
    cbn [with_more unix_socket_client_recv sd_set_read_offset sd_set_usc usc_call_
         usc_set_read set_offset sd_usc sd_set_commands calls].
    by rewrite <- app_assoc. }
  split; [subst frame; rewrite !length_app; cbn [length le16]; lia|].
  split; [exact Hframe|]. done.
Qed.

(** X27. [reader_signature], [reader_response]: a response frame with a
    payload of [0 < L < 2^31] bytes, received from its signature byte on,
    takes three calls: the shell asks for the four bytes of the length, then
    for the [L] bytes of the payload, so for exactly the bytes of the frame,
    and then prints the payload up to its first NUL, a newline and the
    prompt. *)
Theorem response_frame_flow (sd : shell_driver_t) (out : list Z) (payload : list Z) :
  eof (sd_usc sd) = false ->
  data (read_task_b (sd_usc sd)) = [PR_DRV_RESPONSE] ->
  PR_DRV_RESPONSE <> PR_DRV_INFO ->
  payload <> [] -> Z.of_nat (length payload) < 2 ^ 31 ->
  let hdr := le32 (Z.of_nat (length payload)) in
  let frame := [PR_DRV_RESPONSE] ++ hdr ++ payload in
  let sd1 := fst (reader_signature sd 0 out) in
  let sd2 := fst (reader_response (with_more sd1 hdr) 0 out) in
  let r3 := reader_response (with_more sd2 payload) 0 out in
  calls (sd_usc (fst r3))
  = calls (sd_usc sd)
    ++ [Usc_recv 4 Reader_response; Usc_recv (length payload) Reader_response]
  /\ (1 + 4 + length payload = length frame)%nat
  /\ data (read_task_b (sd_usc (fst r3))) = frame
  /\ snd r3 = out ++ cstring payload ++ NEW_LINE ++ PROMPT.
Proof.
  intros Heof Hdata Hne Hpay Hlen hdr frame sd1 sd2 r3.
  assert (H1 : sd1 = unix_socket_client_recv
                       (sd_set_read_offset sd sizeof_pr_signature_t) 4 Reader_response).
  { subst sd1. rewrite reader_signature_step by done. cbn zeta.
    rewrite Hdata. cbn [nth].
    destruct (Z.eqb_spec PR_DRV_RESPONSE PR_DRV_INFO) as [|_]; [done|].
    by rewrite Z.eqb_refl. }
  assert (Hl : forall rest, read_le32 ([PR_DRV_RESPONSE] ++ hdr ++ rest) 1
                            = Z.of_nat (length payload)).
  { intros rest. unfold read_le32, hdr, le32. cbn [app nth Nat.add].
    apply le32_value. lia. }
  assert (Hpos : (0 < length payload)%nat).
  { destruct payload; [done|cbn [length]; lia]. }
  assert (H2 : sd2 = unix_socket_client_recv
                       (sd_set_read_offset (with_more sd1 hdr) 5)
                       (length payload) Reader_response).
  { subst sd2. rewrite reader_response_step by (by rewrite H1).
    unfold response_required, user_size. rewrite H1.
    cbn [with_more unix_socket_client_recv sd_set_read_offset sd_set_usc usc_call_
         usc_set_read set_offset sd_usc read_task_b data].
    rewrite Hdata. pose proof (Hl []) as Hl0. rewrite app_nil_r in Hl0.
    rewrite Hl0, Nat2Z.id.
    change (length ([PR_DRV_RESPONSE] ++ hdr)) with 5%nat.
    destruct (Nat.ltb_spec 5 (sizeof_pr_driver_response_t + length payload)) as [_|Hge].
    - cbn [fst]. unfold sizeof_pr_driver_response_t. f_equal. lia.
    - unfold sizeof_pr_driver_response_t in Hge. lia. }
  assert (Hframe : data (read_task_b (sd_usc (with_more sd2 payload))) = frame).
  { rewrite H2, H1.
    cbn [with_more unix_socket_client_recv sd_set_read_offset sd_set_usc usc_call_
         usc_set_read set_offset sd_usc read_task_b data].
    rewrite Hdata. subst frame. by rewrite <- app_assoc. }
  assert (H3 : r3 = (with_more sd2 payload,
                     out ++ cstring payload ++ NEW_LINE ++ PROMPT)).
  { subst r3. rewrite reader_response_step by (by rewrite H2, H1).
    unfold response_required, user_size. rewrite Hframe. subst frame.
    rewrite Hl, Nat2Z.id.
    destruct (Nat.ltb_spec (length ([PR_DRV_RESPONSE] ++ hdr ++ payload))
                (sizeof_pr_driver_response_t + length payload)) as [Hlt|_].
    { rewrite !length_app in Hlt. cbn [length hdr le32] in Hlt.
      unfold sizeof_pr_driver_response_t in Hlt. lia. }
    do 3 f_equal. unfold printf_prec_s, to_int, UINT_MOD.
    rewrite Z.mod_small by lia.
    destruct (Z.ltb_spec (Z.of_nat (length payload)) (2 ^ 31)) as [_|]; [|lia].
    destruct (Z.ltb_spec (Z.of_nat (length payload)) 0) as [|_]; [lia|].
    rewrite Nat2Z.id. unfold sizeof_pr_driver_response_t, hdr, le32.
    cbn [app drop]. by rewrite firstn_all. }
  rewrite H3. cbn [fst snd].
  split.
  { rewrite H2, H1.
    cbn [with_more unix_socket_client_recv sd_set_read_offset sd_set_usc usc_call_
         usc_set_read set_offset sd_usc calls].
    by rewrite <- app_assoc. }
  split; [subst frame; rewrite !length_app; cbn [length hdr le32]; lia|].
  split; [exact Hframe|]. done.
Qed.

End FlowFacts.


Lemma info_frame_flow_witness :
  sd_commands
    (fst (reader_info
            (with_more
               (fst (reader_info
                       (with_more
                          (fst (reader_signature (cfg := drv_config) info_pending 0 []))
                          (le16 (Z.of_nat 1)))
                       0 []))
               one_descriptor)
            0 []))
  = map (read_command_info
           ([PR_DRV_INFO (Config := drv_config)] ++ le16 (Z.of_nat 1) ++ one_descriptor))
        (seq 0 1).
Proof.
  pose proof (@info_frame_flow drv_config info_pending [] 1 one_descriptor) as H.
  cbv zeta in H. refine (proj1 (proj2 (proj2 (proj2 (H _ _ _ _ _))))).
  - reflexivity.
  - reflexivity.
  - lia.
  - lia.
  - reflexivity.
Defined.

Lemma response_frame_flow_witness :
  snd (reader_response
         (with_more
            (fst (reader_response
                    (with_more
                       (fst (reader_signature (cfg := drv_config) response_pending 0 []))
                       (le32 (Z.of_nat (length (bytes "21.5")))))
                    0 []))
            (bytes "21.5"))
         0 [])
  = [] ++ cstring (bytes "21.5") ++ NEW_LINE ++ PROMPT.
Proof.
  pose proof (@response_frame_flow drv_config response_pending [] (bytes "21.5")) as H.
  cbv zeta in H. refine (proj2 (proj2 (proj2 (H _ _ _ _ _)))).
  - reflexivity.
  - reflexivity.
  - discriminate.
  - discriminate.
  - vm_compute. reflexivity.
Defined.

(** ** A driver after its removal *)

Section LifeFacts.
Context `{cfg : Config}.

Lemma name_slice_nul_free (name : list Z) (dd : driver_description_t) :
  0 ∉ name -> 0 ∉ name_slice name dd.
Proof.
  intros Hn Hin. apply Hn. unfold name_slice in Hin.
  eapply elem_of_sublist; [exact Hin|].
  etransitivity; [apply sublist_take|apply sublist_drop].
Qed.

(** X29. [base_dir_smth_deleted], [cmd_cmd]: once the only record of an
    identity has been removed by a [DELETED] event, the identity is not
    registered and every [cmd] addressed to it is answered with
    ["Invalid command"] and the prompt. *)
Theorem deleted_driver_rejects_commands (sh : shell_t) (name : list Z)
    (drv : list Z) (slot : Z) (h : Z) (l : list shell_driver_t) (i : nat)
    (sd : shell_driver_t) (cmd : list Z) (args : list arg_from_input_t) :
  wf_registry (clients sh) -> nul_free_names (clients sh) ->
  0 ∉ name -> Z.of_nat (length name) < 2 ^ 31 ->
  parse name = Some (drv, slot) ->
  resolves (clients sh) drv slot h l i sd ->
  (forall j sd', l !! j = Some sd' -> sd_name sd' = drv -> sd_slot sd' = slot -> j = i) ->
  ~ registered (clients (base_dir_smth_deleted sh name)) drv slot
  /\ rejected (base_dir_smth_deleted sh name)
       (cmd_cmd (base_dir_smth_deleted sh name) drv slot cmd args).
Proof.
  intros Hwf Hnf Hnul Hlen Hp Hres Huniq.
  assert (Hwf' : wf_registry (clients (base_dir_smth_deleted sh name)))
    by by apply deleted_wf.
  assert (Hdrv : 0 ∉ drv).
  { destruct (parse_description _ _ _ Hp) as (dd & _ & <- & _).
    by apply name_slice_nul_free. }
  assert (Hnot : ~ registered (clients (base_dir_smth_deleted sh name)) drv slot).
  { intros (h' & l' & sd' & Hl' & Hin & Hn' & Hsl').
    destruct (Hwf' _ _ _ Hl' Hin) as [Hlen' Hh'].
    destruct (parse_description _ _ _ Hp) as (dd & Hdd & Hsl & Hslot).
    assert (Hres' : resolves (clients sh) (name_slice name dd) (slot_number dd) h l i sd)
      by (by rewrite Hsl, Hslot).
    rewrite (deleted_resolved sh name dd h l i sd Hnf Hlen Hdd Hres') in Hl'.
    cbn [clients set_clients] in Hl'.
    destruct Hres as (Hh & Hl & _).
    assert (Heq : h' = h).
    { rewrite Hh' , Hh, Hlen', Hn', Hsl'. reflexivity. }
    rewrite Heq, lookup_insert_eq in Hl'. injection Hl' as <-.
    apply list_elem_of_lookup_1 in Hin as [j Hj].
    destruct (Nat.lt_ge_cases j i) as [Hlt|Hge].
    - rewrite list_lookup_delete_lt in Hj by done.
      pose proof (Huniq j sd' Hj Hn' Hsl'). lia.
    - rewrite list_lookup_delete_ge in Hj by done.
      pose proof (Huniq (S j) sd' Hj Hn' Hsl'). lia. }
  split; [done|].
  rewrite cmd_cmd_unregistered by done. apply cmd_invalid_rejected.
Qed.

End LifeFacts.


Lemma deleted_driver_rejects_commands_witness :
  ~ registered
      (clients (base_dir_smth_deleted (cfg := drv_config) thermo_shell
                  (bytes "thermo.3.drv")))
      (bytes "thermo") 3
  /\ rejected
       (base_dir_smth_deleted (cfg := drv_config) thermo_shell (bytes "thermo.3.drv"))
       (cmd_cmd (cfg := drv_config)
          (base_dir_smth_deleted (cfg := drv_config) thermo_shell (bytes "thermo.3.drv"))
          (bytes "thermo") 3 (bytes "get") []).
Proof.
  apply (@deleted_driver_rejects_commands drv_config thermo_shell (bytes "thermo.3.drv")
           (bytes "thermo") 3 thermo_hash [thermo_driver] O thermo_driver
           (bytes "get") []).
  - exact thermo_shell_wf.
  - exact thermo_shell_nul_free.
  - apply (bool_decide_unpack _). vm_compute. exact I.
  - vm_compute. reflexivity.
  - reflexivity.
  - split; [reflexivity|]. split; [apply lookup_singleton_eq|].
    repeat split. intros j ? Hj. lia.
  - intros j sd' Hj _ _. destruct j; [reflexivity|discriminate Hj].
Defined.


(** ** The directory part of a parsed name *)

Section DirectoryFacts.
Context `{cfg : Config}.








End DirectoryFacts.



(** ** The catalog of an info frame *)

Lemma cstring_padded (s : list Z) (k : nat) : 0 ∉ s -> cstring (s ++ repeat 0 k) = s.
Proof.
  intros Hs. destruct k as [|k]; cbn [repeat].
  - rewrite app_nil_r. by apply cstring_id.
  - by apply cstring_cut.
Qed.

Lemma encode_command_info_length (d : pr_driver_command_info_t) :
  dci_ok d -> length (encode_command_info d) = sizeof_pr_driver_command_info_t.
Proof.
  intros (_ & Hn & _ & Hd). unfold encode_command_info.
  rewrite !length_app, !repeat_length. cbn [length].
  unfold MAX_COMMAND_NAME_LEN, MAX_COMMAND_DESCRIPTION_LEN,
    sizeof_pr_driver_command_info_t in *. lia.
Qed.

Lemma descriptors_length (cs : list pr_driver_command_info_t) :
  Forall dci_ok cs ->
  length (concat (map encode_command_info cs))
  = (sizeof_pr_driver_command_info_t * length cs)%nat.
Proof.
  induction 1 as [|d cs Hd _ IH]; [cbn; lia|].
  cbn [map concat length]. rewrite length_app, encode_command_info_length, IH by done.
  lia.
Qed.

Section CatalogFacts.
Context `{cfg : Config}.

Lemma info_frame_length (cs : list pr_driver_command_info_t) :
  Forall dci_ok cs ->
  length (info_frame cs)
  = (sizeof_pr_driver_info_t + sizeof_pr_driver_command_info_t * length cs)%nat.
Proof.
  intros Hok. unfold info_frame. rewrite !length_app, descriptors_length by done.
  reflexivity.
Qed.

Lemma info_frame_count (cs : list pr_driver_command_info_t) (k : nat) :
  Z.of_nat (length cs) < 65536 -> (sizeof_pr_driver_info_t <= k)%nat ->
  read_le16 (take k (info_frame cs)) 1 = Z.of_nat (length cs).
Proof.
  intros Hn Hk. unfold sizeof_pr_driver_info_t in Hk.
  destruct k as [|[|[|k]]]; try lia.
  unfold read_le16, info_frame, le16. cbn [app take nth].
  pose proof (Z.div_mod (Z.of_nat (length cs)) 256 ltac:(lia)) as Hdm.
  rewrite (Z.mod_small (Z.of_nat (length cs) / 256) 256); [lia|].
  split; [apply Z.div_pos; lia|apply Z.div_lt_upper_bound; lia].
Qed.

(** The bytes of the frame from the descriptor number [i] on. *)
Lemma info_frame_at (cs : list pr_driver_command_info_t) (i : nat)
    (d : pr_driver_command_info_t) :
  Forall dci_ok cs -> cs !! i = Some d ->
  drop (sizeof_pr_driver_info_t + sizeof_pr_driver_command_info_t * i) (info_frame cs)
  = encode_command_info d ++ concat (map encode_command_info (drop (S i) cs)).
Proof.
  intros Hok Hi. unfold info_frame.
  rewrite <- (take_drop_middle cs i d Hi) at 2.
  rewrite map_app, concat_app. cbn [map concat].
  rewrite (app_assoc [PR_DRV_INFO]), (app_assoc _ (concat _)).
  apply drop_app_length'.
  rewrite !length_app, descriptors_length.
  - rewrite length_take_le; [reflexivity|].
    apply lookup_lt_Some in Hi. lia.
  - apply Forall_take. exact Hok.
Qed.

Lemma read_command_info_view (cs : list pr_driver_command_info_t) (i : nat)
    (d : pr_driver_command_info_t) :
  Forall dci_ok cs -> cs !! i = Some d ->
  command_view (read_command_info (info_frame cs) i)
  = (dci_name d, dci_descr d, dci_arity d).
Proof.
  intros Hok Hi.
  assert (Hd : dci_ok d).
  { rewrite Forall_forall in Hok. apply Hok. by eapply list_elem_of_lookup_2. }
  destruct Hd as (Hn0 & Hn & Hd0 & Hd).
  pose proof (info_frame_at cs i d Hok Hi) as Hat.
  set (rest := concat (map encode_command_info (drop (S i) cs))) in *.
  unfold command_view, read_command_info. cbv zeta.
  cbn [sdc_name sdc_descr sdc_arity].
  set (base := (sizeof_pr_driver_info_t + sizeof_pr_driver_command_info_t * i)%nat) in *.
  assert (Hname : take MAX_COMMAND_NAME_LEN (drop base (info_frame cs))
                  = dci_name d ++ repeat 0 (MAX_COMMAND_NAME_LEN - length (dci_name d))).
  { rewrite Hat. unfold encode_command_info.
    rewrite <- !app_assoc, (app_assoc (dci_name d)).
    apply take_app_length'. rewrite length_app, repeat_length. lia. }
  assert (Hrest : drop (base + 32) (info_frame cs)
                  = dci_descr d
                    ++ repeat 0 (MAX_COMMAND_DESCRIPTION_LEN - length (dci_descr d))
                    ++ [dci_arity d] ++ rest).
  { rewrite <- drop_drop, Hat. unfold encode_command_info.
    rewrite <- !app_assoc, (app_assoc (dci_name d)).
    apply drop_app_length'. rewrite length_app, repeat_length.
    unfold MAX_COMMAND_NAME_LEN in *. lia. }
  assert (Hdescr : take MAX_COMMAND_DESCRIPTION_LEN (drop (base + 32) (info_frame cs))
                   = dci_descr d
                     ++ repeat 0 (MAX_COMMAND_DESCRIPTION_LEN - length (dci_descr d))).
  { rewrite Hrest, (app_assoc (dci_descr d)).
    apply take_app_length'. rewrite length_app, repeat_length. lia. }
  assert (Harity : nth (base + 160) (info_frame cs) 0 = dci_arity d).
  { replace (base + 160)%nat with (base + 32 + 128)%nat by lia.
    rewrite <- nth_skipn, Hrest, (app_assoc (dci_descr d)).
    rewrite app_nth2; rewrite length_app, repeat_length;
      unfold MAX_COMMAND_DESCRIPTION_LEN in *; [|lia].
    replace (128 - (length (dci_descr d) + (128 - length (dci_descr d))))%nat
      with 0%nat by lia.
    reflexivity. }
  rewrite Hname, Hdescr, Harity, !cstring_padded by done. reflexivity.
Qed.

(** X12. [reader_info]: the catalog a complete info frame installs is the one
    the driver wrote: for every descriptor of the frame, in order, the name
    and the description as strings (texts of at most 32 and 128 bytes without
    NUL, padded with NUL bytes to their fields) and the arity; nothing is
    printed.  While only the first [k] bytes of the frame have arrived, the
    three of the header among them, the catalog is left alone and exactly the
    missing bytes are asked for. *)
Theorem info_installs_catalog (sd : shell_driver_t) (out : list Z)
    (cs : list pr_driver_command_info_t) :
  eof (sd_usc sd) = false ->
  Z.of_nat (length cs) < 65536 -> Forall dci_ok cs ->
  (data (read_task_b (sd_usc sd)) = info_frame cs ->
   exists cmds,
     reader_info sd 0 out = (sd_set_commands sd cmds, out)
     /\ map command_view cmds
        = map (fun d => (dci_name d, dci_descr d, dci_arity d)) cs)
  /\ (forall k,
        (sizeof_pr_driver_info_t <= k < length (info_frame cs))%nat ->
        data (read_task_b (sd_usc sd)) = take k (info_frame cs) ->
        reader_info sd 0 out
        = (unix_socket_client_recv (sd_set_read_offset sd k)
             (length (info_frame cs) - k) Reader_info, out)
        /\ sd_commands (fst (reader_info sd 0 out)) = sd_commands sd).
Proof.
  intros Heof Hn Hok. pose proof (info_frame_length cs Hok) as Hlen. split.
  - intros Hdata. rewrite reader_info_step by done.
    unfold info_required, user_size. rewrite Hdata.
    assert (Hc : read_le16 (info_frame cs) 1 = Z.of_nat (length cs)).
    { rewrite <- (firstn_all (info_frame cs)). apply info_frame_count; [done|].
      rewrite Hlen. lia. }
    rewrite Hc, Nat2Z.id, Hlen, Nat.ltb_irrefl.
    eexists. split; [reflexivity|].
    apply list_eq. intros i. rewrite !list_lookup_fmap.
    destruct (cs !! i) as [d|] eqn:Hi.
    + rewrite lookup_seq_lt by (by eapply lookup_lt_Some).
      cbn [fmap option_fmap option_map Nat.add]. f_equal.
      by apply read_command_info_view.
    + rewrite lookup_seq_ge; [reflexivity|]. by apply lookup_ge_None.
  - intros k [Hk1 Hk2] Hdata.
    assert (Hstep : reader_info sd 0 out
                    = (unix_socket_client_recv (sd_set_read_offset sd k)
                         (length (info_frame cs) - k) Reader_info, out)).
    { rewrite reader_info_step by done.
      unfold info_required, user_size. rewrite Hdata.
      rewrite info_frame_count by done.
      rewrite Nat2Z.id, <- Hlen, length_take_le by lia.
      destruct (Nat.ltb_spec k (length (info_frame cs))) as [_|]; [reflexivity|lia]. }
    rewrite Hstep. split; reflexivity.
Qed.

End CatalogFacts.

Lemma thermo_info_ok : Forall dci_ok thermo_info.
Proof.
  unfold thermo_info.
  apply Forall_cons_2; [|apply Forall_cons_2; [|apply Forall_nil_2]];
    (split; [apply (bool_decide_unpack _); vm_compute; exact I|]);
    (split; [vm_compute; lia|]);
    (split; [apply (bool_decide_unpack _); vm_compute; exact I|]);
    vm_compute; lia.
Qed.

Lemma info_installs_catalog_witness :
  exists cmds,
    reader_info info_received 0 [] = (sd_set_commands info_received cmds, [])
    /\ map command_view cmds
       = [ (bytes "get", bytes "read the temperature", 0);
           (bytes "set", bytes "assign setpoint", 1) ].
Proof.
  refine (proj1 (@info_installs_catalog drv_config info_received [] thermo_info _ _ _) _).
  - reflexivity.
  - cbn. lia.
  - exact thermo_info_ok.
  - reflexivity.
Defined.
